(** * The autofill driver ([src/autofill/driver.py])

    A shallow embedding of [AutofillDriver]: the workflow state machine, the
    page transitions and the upload/insert sequencer, over an explicit model of
    the browser session the driver talks to.

    The driver is a sequential program whose every step is a call into
    Selenium.  What the browser answers is not under the driver's control, so
    the session is a parameter: a [Session] answers each call from the history
    of everything that happened so far.  The driver's methods become
    computations in a small state-and-exception monad that threads the
    driver object's fields, and that keeps the state reached when an exception
    is raised (as Python does). *)

From Stdlib Require Import String Ascii List ZArith Arith Bool Lia DecimalString.
Import ListNotations.
Open Scope string_scope.
Open Scope list_scope.

(** ** Data model *)

(** Modelled from the spec: the enumeration [States] of [constants], which is
    not among the sources.  Section 3 lists its values in their order; the
    driver names them [States.initialising], [States.defining_order], ... *)
Inductive States : Set :=
| initialising
| defining_order
| paging_to_fronts
| inserting_fronts
| paging_to_backs
| inserting_backs
| paging_to_review.

Definition States_eq_dec (a b : States) : {a = b} + {a <> b}.
Proof. decide equality. Defined.

(** Position of a state in the order of section 3. *)
Definition rank (s : States) : nat :=
  match s with
  | initialising => 0
  | defining_order => 1
  | paging_to_fronts => 2
  | inserting_fronts => 3
  | paging_to_backs => 4
  | inserting_backs => 5
  | paging_to_review => 6
  end.

(** Modelled from the spec: [Faces] of [constants] (section 3, "face (enum:
    Front | Back)").  Here a face also plays the part of the reference
    [self.order.fronts] / [self.order.backs] that the driver passes around. *)
Inductive Faces : Set := Front | Back.

(** Modelled from the spec: [CardImage] of [order] (the Asset Descriptor of
    section 3), with the attributes the driver reads. *)
Record CardImage : Set := {
  name : string;
  file_path : string;
  slots : list Z;
  downloaded : bool
}.

(** Modelled from the spec: [CardImageCollection] of [order] (the Asset
    Collection of section 3).  [queue] holds the descriptors in the order in
    which the download workers deliver them; the driver is its only consumer,
    so from its side the queue is the list of deliveries still to come, and a
    [get] on a queue that receives nothing more blocks for ever. *)
Record CardImageCollection : Set := {
  cards : list CardImage;
  queue : list CardImage
}.

Record OrderDetails : Set := {
  quantity : Z;
  bracket : Z;
  stock : string;
  foil : bool
}.

Record CardOrder : Set := {
  details : OrderDetails;
  fronts : CardImageCollection;
  backs : CardImageCollection
}.

Definition collection (f : Faces) (o : CardOrder) : CardImageCollection :=
  match f with Front => fronts o | Back => backs o end.

Definition with_queue (f : Faces) (q : list CardImage) (o : CardOrder) : CardOrder :=
  match f with
  | Front => {| details := details o;
                fronts := {| cards := cards (fronts o); queue := q |};
                backs := backs o |}
  | Back => {| details := details o;
               fronts := fronts o;
               backs := {| cards := cards (backs o); queue := q |} |}
  end.

(** ** Exceptions *)

(** The exceptions the driver raises or handles by name; [WebDriverException]
    stands for any other failure of a call, [IndexError] for [elem[-1]] on an
    empty list. *)
Inductive Exn : Set :=
| InvalidStateException (expected actual : States)
| NoSuchElementException
| NoSuchFrameException
| TimeoutException
| UnexpectedAlertPresentException
| NoAlertPresentException
| JavascriptException
| WebDriverException
| IndexError.

Inductive Res (A : Type) : Type :=
| Ok (a : A)
| Err (e : Exn).
Arguments Ok {A} a.
Arguments Err {A} e.

(** ** The session *)

(** A handle on an element of the page. *)
Inductive WebElement : Set := Element (handle : nat).

(** The Selenium calls the driver makes. *)
Inductive Call : Set :=
| driver_get (url : string)
| find_element_by_id (id : string)
| find_element_by_xpath (xpath : string)
| find_elements_by_xpath (xpath : string)
| execute_script (script : string)
| switch_to_frame_ (frame : string)
| switch_to_default_content
| switch_to_alert
| alert_accept
| value_of_css_property (e : WebElement) (property : string)
| send_keys (e : WebElement) (keys : string)
| get_attribute (e : WebElement) (attribute : string)
| click (e : WebElement)
| select_by_visible_text (e : WebElement) (text : string)
| select_by_value (e : WebElement) (value : string)
| wait_until_invisible (timeout : nat) (e : WebElement).

(** What a call answered, as it is written to the log. *)
Inductive Value : Set :=
| VNone
| VElement (e : WebElement)
| VElements (es : list WebElement)
| VString (s : string).

(** Everything the driver does that is visible from outside, in order. *)
Inductive Event : Set :=
| ECall (c : Call) (r : Res Value)
| ESleep (seconds : nat)
| EFileExists (path : string) (r : bool)
| EQueueGet (f : Faces) (image : CardImage)
| EStatusBar (st : States) (act : string)
| EUploadBar.

Definition History := list Event.

(** The browser (and the file system) as the driver sees it: every answer is a
    function of the history so far, so a session may change between any two
    calls.  There is one field per kind of answer. *)
Record Session : Type := {
  run_command : History -> Call -> Res unit;
  find_one : History -> Call -> Res WebElement;
  find_all : History -> Call -> Res (list WebElement);
  read_string : History -> Call -> Res string;
  read_attribute : History -> Call -> Res (option string);
  isfile : History -> string -> bool
}.

(** ** The driver object and the monad of its methods *)

(** The fields of [AutofillDriver] that its methods read or write; [trace] is
    the log of events. *)
Record World : Type := {
  state : States;
  action : string;
  order : CardOrder;
  upload_bar : nat;
  trace : History
}.

Definition log (e : Event) (w : World) : World :=
  {| state := state w; action := action w; order := order w;
     upload_bar := upload_bar w; trace := trace w ++ [e] |}.

(** How a method ends: it returns, raises, or does not end at all, either
    because a loop used up its [fuel] or because it blocks on an empty queue. *)
Inductive Outcome (A : Type) : Type :=
| Ret (a : A)
| Raise (e : Exn)
| OutOfFuel
| Blocked.
Arguments Ret {A} a.
Arguments Raise {A} e.
Arguments OutOfFuel {A}.
Arguments Blocked {A}.

Definition M (A : Type) : Type := World -> Outcome A * World.

Definition ret {A} (a : A) : M A := fun w => (Ret a, w).

Definition raise {A} (e : Exn) : M A := fun w => (Raise e, w).

Definition out_of_fuel {A} : M A := fun w => (OutOfFuel, w).

Definition bind {A B} (m : M A) (k : A -> M B) : M B :=
  fun w =>
    match m w with
    | (Ret a, w1) => k a w1
    | (Raise e, w1) => (Raise e, w1)
    | (OutOfFuel, w1) => (OutOfFuel, w1)
    | (Blocked, w1) => (Blocked, w1)
    end.

(** [try: m except ...: h]; the handler [h] says which exceptions it takes. *)
Definition try_except {A} (m : M A) (h : Exn -> option (M A)) : M A :=
  fun w =>
    match m w with
    | (Raise e, w1) =>
        match h e with
        | Some k => k w1
        | None => (Raise e, w1)
        end
    | r => r
    end.

Declare Scope driver_scope.
Delimit Scope driver_scope with driver.
Notation "x <- m ;; k" := (bind m (fun x => k))
  (at level 61, m at next level, right associativity) : driver_scope.
Notation "m ;; k" := (bind m (fun _ => k))
  (at level 61, right associativity) : driver_scope.
Open Scope driver_scope.

(** What a loop body tells its loop: leave the method with a value, leave the
    loop, or go round again. *)
Inductive Flow (A : Type) : Type :=
| Return_ (a : A)
| Again.
Arguments Return_ {A} a.
Arguments Again {A}.

(** ** Text *)

(** The double quote character. *)
Definition dq : string := String "034"%char EmptyString.

(** Python's [str] of an [int]. *)
Definition str (z : Z) : string := NilZero.string_of_int (Z.to_int z).

(** Truth value of an optional string ([if pid:]). *)
Definition truthy (p : option string) : bool :=
  match p with
  | Some s => negb (s =? "")
  | None => false
  end.

(** An optional string as an f-string prints it. *)
Definition fmt (p : option string) : string :=
  match p with
  | Some s => s
  | None => "None"
  end.

(** ** Primitive steps *)

Section Driver.

Context (sess : Session).

(** One Selenium call: the session answers from the history, the call and its
    answer are logged, and an error answer is raised as an exception. *)
Definition invoke {A} (ask : Session -> History -> Call -> Res A)
    (show : A -> Value) (c : Call) : M A :=
  fun w =>
    match ask sess (trace w) c with
    | Ok a => (Ret a, log (ECall c (Ok (show a))) w)
    | Err e => (Raise e, log (ECall c (Err e)) w)
    end.

Definition command (c : Call) : M unit :=
  invoke run_command (fun _ => VNone) c.

Definition element (c : Call) : M WebElement :=
  invoke find_one VElement c.

Definition elements (c : Call) : M (list WebElement) :=
  invoke find_all VElements c.

Definition text (c : Call) : M string :=
  invoke read_string VString c.

(** An attribute's value as it is logged. *)
Definition shown (o : option string) : Value :=
  match o with
  | Some s => VString s
  | None => VNone
  end.

Definition attribute (c : Call) : M (option string) :=
  invoke read_attribute shown c.

(** [time.sleep(seconds)] *)
Definition sleep (seconds : nat) : M unit :=
  fun w => (Ret tt, log (ESleep seconds) w).

(** [image.file_exists()] *)
Definition file_exists (image : CardImage) : M bool :=
  fun w =>
    let r := isfile sess (trace w) (file_path image) in
    (Ret r, log (EFileExists (file_path image) r) w).

(** [images.queue.get()], for the collection of face [f]. *)
Definition queue_get (f : Faces) : M CardImage :=
  fun w =>
    match queue (collection f (order w)) with
    | [] => (Blocked, w)
    | image :: rest =>
        (Ret image,
         log (EQueueGet f image)
           {| state := state w; action := action w;
              order := with_queue f rest (order w);
              upload_bar := upload_bar w; trace := trace w |})
    end.

(** [self.upload_bar.update()] *)
Definition upload_bar_update : M unit :=
  fun w =>
    (Ret tt,
     log EUploadBar
       {| state := state w; action := action w; order := order w;
          upload_bar := S (upload_bar w); trace := trace w |}).

Definition get_state : M States := fun w => (Ret (state w), w).

Definition get_order : M CardOrder := fun w => (Ret (order w), w).

(** ** Helpers of the driver *)

Definition set_state (st : States) (act : string) : M unit :=
  fun w =>
    (Ret tt,
     log (EStatusBar st (if act =? "" then "N/A" else act)%string)
       {| state := st; action := act; order := order w;
          upload_bar := upload_bar w; trace := trace w |}).

(** [self.set_state(self.state, act)] *)
Definition set_action (act : string) : M unit :=
  st <- get_state ;;
  set_state st act.

Definition assert_state (expected_state : States) : M unit :=
  fun w =>
    if States_eq_dec (state w) expected_state
    then (Ret tt, w)
    else (Raise (InvalidStateException expected_state (state w)), w).

(** [alert = self.driver.switch_to.alert; alert.accept()], with a missing
    alert passed over: the handler of [upload_image]'s polling loop. *)
Definition accept_alert : M unit :=
  try_except
    (command switch_to_alert ;; command alert_accept)
    (fun e => match e with
              | NoAlertPresentException => Some (ret tt)
              | _ => None
              end).

(** Modelled from the spec: the decorator [alert_handler] of [utils], which is
    not among the sources.  Sections 6 and 7: an unsolicited dialog is
    accepted (nothing happens if none is present) and does not propagate.
    The decorated method is run; when it is interrupted by an unexpected alert
    the alert is accepted and the method's call returns [None]. *)
Definition alert_handler (func : M unit) : M unit :=
  try_except func
    (fun e => match e with
              | UnexpectedAlertPresentException => Some accept_alert
              | _ => None
              end).

Definition switch_to_frame (frame : string) : M unit :=
  alert_handler
    (try_except
       (command (switch_to_frame_ frame))
       (fun e => match e with
                 | NoSuchFrameException | NoSuchElementException => Some (ret tt)
                 | _ => None
                 end)).

(** The [while True] loop of [wait]. *)
Fixpoint wait_loop (fuel : nat) (wait_elem : WebElement) : M unit :=
  match fuel with
  | O => out_of_fuel
  | S fuel' =>
      r <- try_except
             (command (wait_until_invisible 100 wait_elem) ;; ret (Return_ tt))
             (fun e => match e with
                       | TimeoutException => Some (ret Again)
                       | _ => None
                       end) ;;
      match r with
      | Return_ _ => ret tt
      | Again => wait_loop fuel' wait_elem
      end
  end.

Definition wait (fuel : nat) : M unit :=
  alert_handler
    (try_except
       (wait_elem <- element (find_element_by_id "sysdiv_wait") ;;
        wait_loop fuel wait_elem)
       (fun e => match e with
                 | NoSuchElementException => Some (ret tt)
                 | _ => None
                 end)).

Definition execute_javascript (js : string) : M unit :=
  alert_handler (command (execute_script ("javascript:" ++ js)%string)).

Definition next_step (fuel : nat) : M unit :=
  wait fuel ;;
  execute_javascript "oDesign.setNextStep();".

Definition different_images : M unit :=
  execute_javascript "setMode('ImageText', 0);".

Definition same_images : M unit :=
  execute_javascript "setMode('ImageText', 1);".

Definition page_to_fronts : M unit :=
  assert_state paging_to_fronts ;;
  execute_javascript
    "doPersonalize('https://www.makeplayingcards.com/products/pro_item_process_flow.aspx');" ;;
  switch_to_frame "sysifm_loginFrame" ;;
  o <- get_order ;;
  execute_javascript
    ("document.getElementById('txt_card_number').value="
       ++ str (quantity (details o)) ++ ";")%string ;;
  different_images ;;
  command switch_to_default_content ;;
  set_state inserting_fronts "".

Definition page_to_backs (fuel : nat) : M unit :=
  assert_state paging_to_backs ;;
  next_step fuel ;;
  wait fuel ;;
  try_except
    (e <- element (find_element_by_id "closeBtn") ;; command (click e))
    (fun e => match e with
              | NoSuchElementException => Some (ret tt)
              | _ => None
              end) ;;
  next_step fuel ;;
  switch_to_frame "sysifm_loginFrame" ;;
  o <- get_order ;;
  (if Nat.eqb (length (cards (backs o))) 1
   then same_images
   else different_images) ;;
  command switch_to_default_content ;;
  set_state inserting_backs "".

(** ** Uploading *)

Definition uploads_xpath : string := "//*[contains(@id, 'upload_')]".

Definition upload_input_xpath : string :=
  ("//*[@id=" ++ dq ++ "uploadId" ++ dq ++ "]")%string.

(** [while progress_container.value_of_css_property("display") != "none"] *)
Fixpoint wait_for_idle (fuel : nat) (progress_container : WebElement) : M unit :=
  match fuel with
  | O => out_of_fuel
  | S fuel' =>
      d <- text (value_of_css_property progress_container "display") ;;
      if (d =? "none")%string
      then ret tt
      else sleep 3 ;; wait_for_idle fuel' progress_container
  end.

(** [while progress_container.value_of_css_property("display") == "none"] *)
Fixpoint attempt_upload (fuel : nat) (image : CardImage)
    (progress_container : WebElement) : M unit :=
  match fuel with
  | O => out_of_fuel
  | S fuel' =>
      d <- text (value_of_css_property progress_container "display") ;;
      if (d =? "none")%string
      then
        input <- element (find_element_by_xpath upload_input_xpath) ;;
        command (send_keys input (file_path image)) ;;
        sleep 1 ;;
        progress_container' <- element (find_element_by_id "divFileProgressContainer") ;;
        attempt_upload fuel' image progress_container'
      else ret tt
  end.

(** [elem[-1]] *)
Definition last_element (elem : list WebElement) : M WebElement :=
  match rev elem with
  | e :: _ => ret e
  | [] => raise IndexError
  end.

(** The final [while True] loop of [upload_image]. *)
Fixpoint await_upload (fuel : nat) (num_elems : nat) : M (option string) :=
  match fuel with
  | O => out_of_fuel
  | S fuel' =>
      r <- try_except
             (elem <- elements (find_elements_by_xpath uploads_xpath) ;;
              if Nat.ltb num_elems (length elem)
              then
                e <- last_element elem ;;
                pid <- attribute (get_attribute e "pid") ;;
                ret (Return_ pid)
              else sleep 2 ;; ret Again)
             (fun e => match e with
                       | UnexpectedAlertPresentException =>
                           Some (accept_alert ;; ret Again)
                       | _ => None
                       end) ;;
      match r with
      | Return_ pid => ret pid
      | Again => await_upload fuel' num_elems
      end
  end.

Definition upload_image (fuel : nat) (image : CardImage) : M (option string) :=
  exists_ <- file_exists image ;;
  if exists_ : bool
  then
    set_action ("Uploading " ++ dq ++ name image ++ dq)%string ;;
    elem <- elements (find_elements_by_xpath uploads_xpath) ;;
    let num_elems := length elem in
    progress_container <- element (find_element_by_id "divFileProgressContainer") ;;
    wait_for_idle fuel progress_container ;;
    attempt_upload fuel image progress_container ;;
    await_upload fuel num_elems
  else
    set_action "" ;;
    ret None.

(** The text of the placement command for one slot. *)
Definition place_js (slot : Z) (pid : option string) : string :=
  ("l.applyDragPhoto(l.getElement3(" ++ dq ++ "dnImg" ++ dq ++ ", " ++ str slot
     ++ "), 0, " ++ dq ++ fmt pid ++ dq ++ ")")%string.

(** [for slot in image.slots] of [insert_image]. *)
Fixpoint insert_slots (fuel : nat) (pid : option string) (l : list Z) : M unit :=
  match l with
  | [] => ret tt
  | slot :: rest =>
      execute_javascript (place_js slot pid) ;;
      wait fuel ;;
      insert_slots fuel pid rest
  end.

Definition insert_image (fuel : nat) (pid : option string) (image : CardImage) : M unit :=
  if truthy pid
  then
    set_action ("Inserting " ++ dq ++ name image ++ dq)%string ;;
    execute_javascript "l = PageLayout.prototype" ;;
    insert_slots fuel pid (slots image) ;;
    set_action ""
  else ret tt.

Definition upload_and_insert_image (fuel : nat) (image : CardImage) : M unit :=
  pid <- upload_image fuel image ;;
  insert_image fuel pid image.

(** One round of the loop of [upload_and_insert_images]. *)
Definition sequencer_step (fuel : nat) (f : Faces) : M unit :=
  image <- queue_get f ;;
  (if downloaded image
   then upload_and_insert_image fuel image
   else ret tt) ;;
  upload_bar_update.

(** [for _ in range(n)] *)
Fixpoint sequencer_loop (fuel : nat) (f : Faces) (n : nat) : M unit :=
  match n with
  | O => ret tt
  | S n' => sequencer_step fuel f ;; sequencer_loop fuel f n'
  end.

Definition upload_and_insert_images (fuel : nat) (f : Faces) : M unit :=
  o <- get_order ;;
  sequencer_loop fuel f (length (cards (collection f o))).

(** ** Public operations *)

Definition define_order : M unit :=
  assert_state defining_order ;;
  o <- get_order ;;
  stock_dropdown <- element (find_element_by_id "dro_paper_type") ;;
  command (select_by_visible_text stock_dropdown (stock (details o))) ;;
  qty_dropdown <- element (find_element_by_id "dro_choosesize") ;;
  command (select_by_value qty_dropdown (str (bracket (details o)))) ;;
  (if foil (details o)
   then
     foil_dropdown <- element (find_element_by_id "dro_product_effect") ;;
     command (select_by_value foil_dropdown "EF_055")
   else ret tt) ;;
  set_state paging_to_fronts "".

Definition insert_fronts (fuel : nat) : M unit :=
  page_to_fronts ;;
  assert_state inserting_fronts ;;
  upload_and_insert_images fuel Front ;;
  set_state paging_to_backs "".

Definition insert_backs (fuel : nat) : M unit :=
  page_to_backs fuel ;;
  assert_state inserting_backs ;;
  upload_and_insert_images fuel Back ;;
  set_state paging_to_review "".

Definition starting_url : string :=
  "https://www.makeplayingcards.com/design/custom-blank-card.html".

(** [__attrs_post_init__], the progress bars apart. *)
Definition post_init : M unit :=
  command (driver_get starting_url) ;;
  set_state defining_order "".

(** [execute]; the two [download_images] calls start the workers that fill the
    queues, which here are given with the order. *)
Definition execute (fuel : nat) : M unit :=
  define_order ;;
  insert_fronts fuel ;;
  insert_backs fuel.

End Driver.

Arguments invoke sess {A} ask show c w.

(** ** Reading a run *)

(** The public operations, with the state each one declares on entry and on
    exit (its first [assert_state] and its last [set_state]). *)
Inductive Operation : Set := op_define_order | op_insert_fronts | op_insert_backs.

Definition entry_state (op : Operation) : States :=
  match op with
  | op_define_order => defining_order
  | op_insert_fronts => paging_to_fronts
  | op_insert_backs => paging_to_backs
  end.

Definition exit_state (op : Operation) : States :=
  match op with
  | op_define_order => paging_to_fronts
  | op_insert_fronts => paging_to_backs
  | op_insert_backs => paging_to_review
  end.

Definition run (sess : Session) (fuel : nat) (op : Operation) : M unit :=
  match op with
  | op_define_order => define_order sess
  | op_insert_fronts => insert_fronts sess fuel
  | op_insert_backs => insert_backs sess fuel
  end.

(** A whole run: the driver is constructed, then [execute] is called. *)
Definition whole_run (sess : Session) (fuel : nat) : M unit :=
  post_init sess ;; execute sess fuel.

Definition different_js : string := "javascript:setMode('ImageText', 0);".
Definition same_js : string := "javascript:setMode('ImageText', 1);".

Definition is_mode_js (js : string) : bool :=
  ((js =? different_js) || (js =? same_js))%string.

(** The event is a mode command ([setMode]). *)
Definition is_mode (e : Event) : bool :=
  match e with
  | ECall (execute_script js) _ => is_mode_js js
  | _ => false
  end.

(** The event submits a file to the upload input. *)
Definition is_upload (e : Event) : bool :=
  match e with
  | ECall (send_keys _ _) _ => true
  | _ => false
  end.

(** The event is a call into the session. *)
Definition is_call (e : Event) : bool :=
  match e with
  | ECall _ _ => true
  | _ => false
  end.

Definition is_pop (e : Event) : bool :=
  match e with
  | EQueueGet _ _ => true
  | _ => false
  end.

Definition is_progress (e : Event) : bool :=
  match e with
  | EUploadBar => true
  | _ => false
  end.

(** Pops and progress updates: the marks the sequencer leaves in the log. *)
Definition is_mark (e : Event) : bool := is_pop e || is_progress e.

(** The log of the sequencer for the descriptors popped, round by round: the
    pop, what was done with the descriptor (nothing at all when its
    [downloaded] is false), the progress update. *)
Inductive rounds (f : Faces) : list CardImage -> list Event -> Prop :=
| rounds_done : rounds f [] []
| rounds_next image l work d :
    Forall (fun e => is_mark e = false) work ->
    (downloaded image = false -> work = []) ->
    rounds f l d ->
    rounds f (image :: l) (EQueueGet f image :: work ++ EUploadBar :: d).

(** The states written by [set_state], in order. *)
Fixpoint assigned (d : list Event) : list States :=
  match d with
  | [] => []
  | EStatusBar st _ :: d' => st :: assigned d'
  | _ :: d' => assigned d'
  end.

(** Each state of [l] is at or after the one before it, starting from [s]. *)
Fixpoint ascending (s : States) (l : list States) : Prop :=
  match l with
  | [] => True
  | x :: l' => rank s <= rank x /\ ascending x l'
  end.

(** From [w] to [w'] the log only grew, every state written was at or after
    the one it replaced, and the state of [w'] is the last one written. *)
Definition forward (w w' : World) : Prop :=
  exists d, trace w' = trace w ++ d
            /\ ascending (state w) (assigned d)
            /\ state w' = last (assigned d) (state w).

(** From [w] to [w'] the workflow state stayed and the status bar was only
    refreshed in that state. *)
Definition still (w w' : World) : Prop :=
  state w' = state w
  /\ exists d, trace w' = trace w ++ d /\ assigned d = repeat (state w) (length (assigned d)).

(** *** Footprints *)

(** Events a helper may log while the workflow state is [st]: calls allowed by
    [C], sleeps, file checks and refreshes of the status bar in state [st]. *)
Definition calls_in (C : Call -> Prop) (st : States) (e : Event) : Prop :=
  match e with
  | ECall c _ => C c
  | ESleep _ | EFileExists _ _ => True
  | EStatusBar st' _ => st' = st
  | EQueueGet _ _ | EUploadBar => False
  end.

(** [m] leaves the workflow state, the order and the upload counter as they
    are, and logs only events of [calls_in C], however it ends. *)
Definition keeps (C : Call -> Prop) {A} (m : M A) : Prop :=
  forall w,
    state (snd (m w)) = state w
    /\ order (snd (m w)) = order w
    /\ upload_bar (snd (m w)) = upload_bar w
    /\ exists d, trace (snd (m w)) = trace w ++ d
                 /\ Forall (calls_in C (state w)) d.

(** [m] logs a call of [c] first, whatever happens, and after it only events
    of [calls_in C]. *)
Definition begins (c : Call) (C : Call -> Prop) {A} (m : M A) : Prop :=
  forall w,
    state (snd (m w)) = state w
    /\ order (snd (m w)) = order w
    /\ upload_bar (snd (m w)) = upload_bar w
    /\ exists r d, trace (snd (m w)) = trace w ++ ECall c r :: d
                   /\ Forall (calls_in C (state w)) d.

(** Calls that dismiss a dialog. *)
Definition alert_call (c : Call) : Prop :=
  match c with
  | switch_to_alert | alert_accept => True
  | _ => False
  end.

(** Calls made by [wait] after it has looked up the loading indicator. *)
Definition waiting_call (c : Call) : Prop :=
  match c with
  | switch_to_alert | alert_accept | wait_until_invisible _ _ => True
  | _ => False
  end.

(** Calls that neither run a script nor submit a file. *)
Definition passive_call (c : Call) : Prop :=
  match c with
  | execute_script _ | send_keys _ _ => False
  | _ => True
  end.

(** Calls that run no script. *)
Definition scriptless_call (c : Call) : Prop :=
  match c with
  | execute_script _ => False
  | _ => True
  end.

(** Calls that are not a mode command. *)
Definition modeless_call (c : Call) : Prop :=
  match c with
  | execute_script js => is_mode_js js = false
  | _ => True
  end.

(** Calls that are neither a mode command nor an upload. *)
Definition plain_call (c : Call) : Prop :=
  match c with
  | execute_script js => is_mode_js js = false
  | send_keys _ _ => False
  | _ => True
  end.

(** No restriction on the calls. *)
Definition any_call (c : Call) : Prop := True.

(** The dismissal of a dialog does not itself report an unexpected dialog. *)
Definition dismissal_is_quiet (sess : Session) : Prop :=
  forall h c, alert_call c -> run_command sess h c <> Err UnexpectedAlertPresentException.

(** *** The mode command *)

(** The face an inserting operation works on. *)
Definition face_op (f : Faces) : Operation :=
  match f with Front => op_insert_fronts | Back => op_insert_backs end.

(** The mode command the page transition of face [f] issues: always
    different images for the fronts, and for the backs the same image exactly
    when there is one back. *)
Definition mode_of (f : Faces) (o : CardOrder) : string :=
  match f with
  | Front => different_js
  | Back => if Nat.eqb (length (cards (backs o))) 1 then same_js else different_js
  end.

(** The mode command as the claim words it: the same image exactly when the
    face has one descriptor, whichever face it is. *)
Definition mode_as_stated (f : Faces) (o : CardOrder) : string :=
  if Nat.eqb (length (cards (collection f o))) 1 then same_js else different_js.

(** Neither a mode command nor an upload. *)
Definition plain (e : Event) : Prop := is_mode e = false /\ is_upload e = false.

(** Since [w0] only plain events were logged. *)
Definition before_mode (w0 w : World) : Prop :=
  exists d, trace w = trace w0 ++ d /\ Forall plain d.

(** Since [w0] the mode command [js] was issued once, after plain events
    only, and no other mode command was. *)
Definition mode_once (js : string) (w0 w : World) : Prop :=
  exists d1 r d2,
    trace w = trace w0 ++ d1 ++ ECall (execute_script js) r :: d2
    /\ Forall plain d1
    /\ Forall (fun e => is_mode e = false) d2.

(** The event is the same-image mode command. *)
Definition is_same_image (e : Event) : bool :=
  match e with
  | ECall (execute_script js) _ => (js =? same_js)%string
  | _ => false
  end.

(** *** The log of an insertion *)

(** The look-up with which [wait] begins. *)
Definition wait_begin : Call := find_element_by_id "sysdiv_wait".

(** The scripts run and the waits begun, in the order of the log. *)
Fixpoint steps (d : list Event) : list Call :=
  match d with
  | [] => []
  | ECall (execute_script js) _ :: d' => execute_script js :: steps d'
  | ECall (find_element_by_id id) _ :: d' =>
      if (id =? "sysdiv_wait")%string
      then find_element_by_id id :: steps d'
      else steps d'
  | _ :: d' => steps d'
  end.

(** The text of the script is a placement command. *)
Definition is_placement_js (js : string) : bool :=
  prefix "javascript:l.applyDragPhoto(" js.

(** The placement commands issued, in the order of the log. *)
Fixpoint placements (d : list Event) : list string :=
  match d with
  | [] => []
  | ECall (execute_script js) _ :: d' =>
      if is_placement_js js then js :: placements d' else placements d'
  | _ :: d' => placements d'
  end.

(** *** The log of an upload *)

Definition poll_call : Call := find_elements_by_xpath uploads_xpath.

Definition display_call (pc : WebElement) : Call := value_of_css_property pc "display".

(** A reading of the progress container's [display]. *)
Definition display_of (pc : WebElement) (v : string) : Event :=
  ECall (display_call pc) (Ok (VString v)).

Definition progress_call : Call := find_element_by_id "divFileProgressContainer".

(** The log of the first loop: the indicator is read, with three seconds'
    sleep after every reading that finds it showing, until it is hidden. *)
Inductive idle_wait (pc : WebElement) : list Event -> Prop :=
| idle_now : idle_wait pc [display_of pc "none"]
| idle_later v d :
    v <> "none" -> idle_wait pc d ->
    idle_wait pc (display_of pc v :: ESleep 3 :: d).

(** The log of the second loop, with the number of its rounds: as long as the
    indicator is read hidden the file is submitted and, a second later, the
    progress container is looked up again; the loop ends with the first
    reading that finds the indicator showing. *)
Inductive submissions (image : CardImage) : WebElement -> list Event -> nat -> Prop :=
| submissions_end pc v :
    v <> "none" -> submissions image pc [display_of pc v] 0
| submissions_round pc input pc' d k :
    submissions image pc' d k ->
    submissions image pc
      (display_of pc "none"
       :: ECall (find_element_by_xpath upload_input_xpath) (Ok (VElement input))
       :: ECall (send_keys input (file_path image)) (Ok VNone)
       :: ESleep 1
       :: ECall progress_call (Ok (VElement pc'))
       :: d)
      (S k).

(** The log of a dialog that is accepted, or found gone. *)
Inductive dismissal : list Event -> Prop :=
| dismissal_accepted :
    dismissal [ECall switch_to_alert (Ok VNone); ECall alert_accept (Ok VNone)]
| dismissal_gone :
    dismissal [ECall switch_to_alert (Err NoAlertPresentException)]
| dismissal_late :
    dismissal [ECall switch_to_alert (Ok VNone);
               ECall alert_accept (Err NoAlertPresentException)].

(** The log of the third loop, for [n] uploads counted before, and the value
    returned: the list of uploads is read, with two seconds' sleep after every
    reading that is not longer than [n] and a dismissal after every reading
    that a dialog interrupts, until a reading is longer than [n]; the pid of
    its last entry is returned. *)
Inductive polling (n : nat) : list Event -> option string -> Prop :=
| polling_found front e pid :
    n < length (front ++ [e]) ->
    polling n
      [ECall poll_call (Ok (VElements (front ++ [e])));
       ECall (get_attribute e "pid") (Ok (shown pid))]
      pid
| polling_sleep es d pid :
    length es <= n -> polling n d pid ->
    polling n (ECall poll_call (Ok (VElements es)) :: ESleep 2 :: d) pid
| polling_list_alert a d pid :
    dismissal a -> polling n d pid ->
    polling n (ECall poll_call (Err UnexpectedAlertPresentException) :: a ++ d) pid
| polling_pid_alert front e a d pid :
    n < length (front ++ [e]) -> dismissal a -> polling n d pid ->
    polling n
      (ECall poll_call (Ok (VElements (front ++ [e])))
       :: ECall (get_attribute e "pid") (Err UnexpectedAlertPresentException)
       :: a ++ d)
      pid.

(** Reading the indicator hidden twice in a row, the session gives the same
    answer. *)
Definition steady_indicator (sess : Session) : Prop :=
  forall h pc,
    read_string sess h (display_call pc) = Ok "none"%string ->
    read_string sess (h ++ [display_of pc "none"]) (display_call pc) = Ok "none"%string.

(** The log of an upload that returned, in its three phases. *)
Definition upload_log (image : CardImage) (st : States) (pid : option string)
    (d : list Event) (k : nat) : Prop :=
  exists es0 pc d1 d2 d3,
    d = [EFileExists (file_path image) true;
         EStatusBar st ("Uploading " ++ dq ++ name image ++ dq)%string;
         ECall poll_call (Ok (VElements es0));
         ECall progress_call (Ok (VElement pc))]
        ++ d1 ++ d2 ++ d3
    /\ idle_wait pc d1
    /\ submissions image pc d2 k
    /\ polling (length es0) d3 pid.

(** C8 as the claim words it: the file is submitted (at least once). *)
Definition upload_as_stated : Prop :=
  forall sess fuel image w pid,
    isfile sess (trace w) (file_path image) = true ->
    fst (upload_image sess fuel image w) = Ret pid ->
    exists d k,
      trace (snd (upload_image sess fuel image w)) = trace w ++ d
      /\ upload_log image (state w) pid d k
      /\ 1 <= k.

(** *** Scenarios *)

(** The driver object in state [st], with nothing logged yet. *)
Definition driver_in (st : States) (o : CardOrder) : World :=
  {| state := st; action := ""; order := o; upload_bar := 0; trace := [] |}.

Definition count_uploads (h : History) : nat := length (filter is_upload h).

(** Whether the progress container shows: it appears when a file is
    submitted and is gone after the next three-second pause. *)
Fixpoint uploading (h : History) (busy : bool) : bool :=
  match h with
  | [] => busy
  | ECall (send_keys _ _) _ :: h' => uploading h' true
  | ESleep 3 :: h' => uploading h' false
  | _ :: h' => uploading h' busy
  end.

(** A page that behaves: every command succeeds, every element is there, a
    submitted file shows up in the list of uploads at once with its number as
    pid, and every file exists except [missing.png]. *)
Definition browser : Session :=
  {| run_command := fun _ _ => Ok tt;
     find_one := fun _ _ => Ok (Element 0);
     find_all := fun h _ => Ok (map Element (seq 1 (count_uploads h)));
     read_string := fun h _ => Ok (if uploading h false then "block" else "none")%string;
     read_attribute := fun _ c =>
       match c with
       | get_attribute (Element k) _ => Ok (Some (str (Z.of_nat k)))
       | _ => Ok None
       end;
     isfile := fun _ path => negb (path =? "missing.png")%string |}.

Definition card (n : string) (l : list Z) (ok : bool) : CardImage :=
  {| name := n; file_path := (n ++ ".png")%string; slots := l; downloaded := ok |}.

Definition faces (l : list CardImage) : CardImageCollection :=
  {| cards := l; queue := l |}.

Definition some_details : OrderDetails :=
  {| quantity := 3; bracket := 18; stock := "(S30) Standard Smooth"; foil := false |}.

(** One front for all three slots, two backs. *)
Definition small_order : CardOrder :=
  {| details := some_details;
     fronts := faces [card "front" [0; 1; 2]%Z true];
     backs := faces [card "back_a" [0; 2]%Z true; card "back_b" [1]%Z true] |}.

(** Three fronts: one that failed to download, one whose file has gone, one
    that is fine. *)
Definition patchy_order : CardOrder :=
  {| details := some_details;
     fronts := faces [card "lost" [0]%Z false;
                      {| name := "gone"; file_path := "missing.png";
                         slots := [1]%Z; downloaded := true |};
                      card "fine" [2; 5; 2]%Z true];
     backs := faces [] |}.

Definition count_waits (h : History) : nat :=
  length (filter (fun e => match e with
                           | ECall (wait_until_invisible _ _) _ => true
                           | _ => false
                           end) h).

Definition count_polls (h : History) : nat :=
  length (filter (fun e => match e with
                           | ECall (find_elements_by_xpath _) _ => true
                           | _ => false
                           end) h).

Definition count_reads (h : History) : nat :=
  length (filter (fun e => match e with
                           | ECall (value_of_css_property _ _) _ => true
                           | _ => false
                           end) h).

(** The page of [browser] with noise: every wait for the loading indicator
    times out once before it succeeds, and a dialog interrupts the second
    reading of the list of uploads. *)
Definition noisy : Session :=
  {| run_command := fun h c =>
       match c with
       | wait_until_invisible _ _ =>
           if Nat.even (count_waits h) then Err TimeoutException else Ok tt
       | _ => Ok tt
       end;
     find_one := find_one browser;
     find_all := fun h c =>
       if Nat.eqb (count_polls h) 1
       then Err UnexpectedAlertPresentException
       else find_all browser h c;
     read_string := read_string browser;
     read_attribute := read_attribute browser;
     isfile := isfile browser |}.

(** A page on which something else starts an upload just after the driver
    has seen the indicator hidden (the user, or a file the driver submitted
    twice for an earlier descriptor): the indicator reads hidden once and
    showing from then on, and the list of uploads has one entry, pid 1, from
    its second reading on. *)
Definition flicker : Session :=
  {| run_command := fun _ _ => Ok tt;
     find_one := fun _ _ => Ok (Element 0);
     find_all := fun h _ => Ok (if Nat.eqb (count_polls h) 0 then [] else [Element 1]);
     read_string := fun h _ =>
       Ok (if Nat.eqb (count_reads h) 0 then "none" else "block")%string;
     read_attribute := read_attribute browser;
     isfile := fun _ _ => true |}.

(** *** The rest of the driver *)

(** [configure_bars]: the total given to the download and to the upload
    counter. *)
Definition num_images (o : CardOrder) : nat :=
  length (cards (fronts o)) + length (cards (backs o)).

(** The state in which the descriptors of face [f] are inserted. *)
Definition inserting (f : Faces) : States :=
  match f with Front => inserting_fronts | Back => inserting_backs end.

(** The method returned (it neither raised nor hung). *)
Definition returned {A} (o : Outcome A) : bool :=
  match o with
  | Ret _ => true
  | _ => false
  end.

(** The pop of a descriptor and the progress update that closes its round. *)
Definition round_marks (f : Faces) (image : CardImage) : list Event :=
  [EQueueGet f image; EUploadBar].

(** From [w] to [w'] the order and the upload counter stayed as they were
    and the log grew by events that are neither pops nor progress updates. *)
Definition quiet (w w' : World) : Prop :=
  order w' = order w
  /\ upload_bar w' = upload_bar w
  /\ exists d, trace w' = trace w ++ d /\ filter is_mark d = [].

Definition quietly {A} (m : M A) : Prop := forall w, quiet w (snd (m w)).

(** From [w] to [w'] the order is what it was except that each queue may have
    lost descriptors from its front. *)
Definition served (w w' : World) : Prop :=
  details (order w') = details (order w)
  /\ forall f,
       cards (collection f (order w')) = cards (collection f (order w))
       /\ exists k, queue (collection f (order w'))
                    = skipn k (queue (collection f (order w))).

Definition serves {A} (m : M A) : Prop := forall w, served w (snd (m w)).

(** [m] never changes the workflow state. *)
Definition steady {A} (m : M A) : Prop := forall w, state (snd (m w)) = state w.

(** When it fails to return, [m] leaves the workflow state as it found it. *)
Definition halts_in_place {A} (m : M A) : Prop :=
  forall w, returned (fst (m w)) = false -> state (snd (m w)) = state w.

Definition until_call (e : WebElement) : Call := wait_until_invisible 100 e.

(** From the log of [w] on, the wait for [e] to disappear times out [k] times
    and then succeeds. *)
Fixpoint clears_after (sess : Session) (e : WebElement) (w : World) (k : nat) : Prop :=
  match k with
  | O => run_command sess (trace w) (until_call e) = Ok tt
  | S k' =>
      run_command sess (trace w) (until_call e) = Err TimeoutException
      /\ clears_after sess e (log (ECall (until_call e) (Err TimeoutException)) w) k'
  end.

(** The log of a wait that saw [k] timeouts before the indicator went. *)
Definition waited (e : WebElement) (k : nat) : list Event :=
  repeat (ECall (until_call e) (Err TimeoutException)) k
  ++ [ECall (until_call e) (Ok VNone)].

(** Calls [upload_image] may make for [image]: look-ups, reads of the
    indicator and of an attribute, the dismissal of a dialog, and the
    submission of the descriptor's own file; nothing else. *)
Definition own_upload_call (image : CardImage) (c : Call) : Prop :=
  match c with
  | find_element_by_id _ | find_element_by_xpath _ | find_elements_by_xpath _
  | value_of_css_property _ _ | get_attribute _ _
  | switch_to_alert | alert_accept => True
  | send_keys _ keys => keys = file_path image
  | _ => False
  end.

(** Calls of [switch_to_frame]. *)
Definition frame_call (c : Call) : Prop :=
  match c with
  | switch_to_frame_ _ | switch_to_alert | alert_accept => True
  | _ => False
  end.

(** Calls of the attempt to close the pop-up in [page_to_backs]. *)
Definition close_call (c : Call) : Prop :=
  match c with
  | find_element_by_id id => id = "closeBtn"%string
  | click _ => True
  | _ => False
  end.

(** What [define_order] logs when it returns, given the dropdowns found. *)
Definition define_order_log (o : CardOrder) (e1 e2 e3 : WebElement) : list Event :=
  [ECall (find_element_by_id "dro_paper_type") (Ok (VElement e1));
   ECall (select_by_visible_text e1 (stock (details o))) (Ok VNone);
   ECall (find_element_by_id "dro_choosesize") (Ok (VElement e2));
   ECall (select_by_value e2 (str (bracket (details o)))) (Ok VNone)]
  ++ (if foil (details o)
      then [ECall (find_element_by_id "dro_product_effect") (Ok (VElement e3));
            ECall (select_by_value e3 "EF_055") (Ok VNone)]
      else [])
  ++ [EStatusBar paging_to_fronts "N/A"].

(** The scripts of the two page transitions. *)
Definition personalize_js : string :=
  "javascript:doPersonalize('https://www.makeplayingcards.com/products/pro_item_process_flow.aspx');".

Definition quantity_js (o : CardOrder) : string :=
  ("javascript:document.getElementById('txt_card_number').value="
     ++ str (quantity (details o)) ++ ";")%string.

Definition next_step_js : string := "javascript:oDesign.setNextStep();".

(** An order with foil, for the scenarios. *)
Definition foil_order : CardOrder :=
  {| details := {| quantity := 3; bracket := 18;
                   stock := "(S30) Standard Smooth"; foil := true |};
     fronts := fronts small_order;
     backs := backs small_order |}.

(** The page of [browser] on which the second placement command of a run is
    rejected with a JavaScript error. *)
Definition broken : Session :=
  {| run_command := fun h c =>
       match c with
       | execute_script js =>
           if is_placement_js js && Nat.eqb (length (placements h)) 1
           then Err JavascriptException
           else Ok tt
       | _ => Ok tt
       end;
     find_one := find_one browser;
     find_all := find_all browser;
     read_string := read_string browser;
     read_attribute := read_attribute browser;
     isfile := isfile browser |}.

(** The exception is not the driver's own [InvalidStateException]. *)
Definition foreign (e : Exn) : bool :=
  match e with
  | InvalidStateException _ _ => false
  | _ => true
  end.

(** Answers of kind [ask] never carry the driver's own exception. *)
Definition answers_foreign {A} (ask : Session -> History -> Call -> Res A)
    (sess : Session) : Prop :=
  forall h c e, ask sess h c = Err e -> foreign e = true.

(** No call of the session is answered with the driver's own exception, which
    Selenium does not know. *)
Definition selenium_session (sess : Session) : Prop :=
  answers_foreign run_command sess
  /\ answers_foreign find_one sess
  /\ answers_foreign find_all sess
  /\ answers_foreign read_string sess
  /\ answers_foreign read_attribute sess.

(** [m] raises no [InvalidStateException]. *)
Definition unasserting {A} (m : M A) : Prop :=
  forall w e, fst (m w) = Raise e -> foreign e = true.

(** An exception the driver raises itself, without a call behind it: a failed
    state assertion, or [elem[-1]] on an empty list. *)
Definition own_exception (e : Exn) : bool :=
  match e with
  | InvalidStateException _ _ | IndexError => true
  | _ => false
  end.

(** The last entry of the log of [w] is a call that was answered with [e]. *)
Definition failed_call (e : Exn) (w : World) : Prop :=
  exists h c, trace w = h ++ [ECall c (Err e)].

(** When [m] raises, the exception is the driver's own or the answer of the
    call logged last. *)
Definition abrupt {A} (m : M A) : Prop :=
  forall w e, fst (m w) = Raise e ->
    own_exception e = true \/ failed_call e (snd (m w)).

(** *** Dialogs and timeouts, however the loops end *)




(** *** The waits of an insertion *)










(** *** The work of one round *)

(** Calls [insert_image] may make for [image]: the prototype script, a
    placement command for one of the descriptor's slots, the look-up of the
    loading indicator, a wait for it, and the dismissal of a dialog; nothing
    else. *)
Definition own_insert_call (image : CardImage) (c : Call) : Prop :=
  match c with
  | execute_script js =>
      js = "javascript:l = PageLayout.prototype"%string
      \/ exists slot pid,
           In slot (slots image)
           /\ js = ("javascript:" ++ place_js slot pid)%string
  | find_element_by_id id => id = "sysdiv_wait"%string
  | wait_until_invisible _ _ | switch_to_alert | alert_accept => True
  | _ => False
  end.

(** Calls of the upload or of the insertion of [image]. *)
Definition round_call (image : CardImage) (c : Call) : Prop :=
  own_upload_call image c \/ own_insert_call image c.

(** ** The monad *)

Lemma bind_ret_inv {A B} (m : M A) (k : A -> M B) w b w' :
  bind m k w = (Ret b, w') ->
  exists a w1, m w = (Ret a, w1) /\ k a w1 = (Ret b, w').
Proof.
  unfold bind. destruct (m w) as [[a|e| |] w1]; intros H; try discriminate.
  exists a, w1. split; [reflexivity | exact H].
Qed.

(** ** Footprint lemmas *)

Section Keeps.

Context (sess : Session) (C : Call -> Prop).

Lemma keeps_ret {A} (a : A) : keeps C (ret a).
Proof.
  intros w. simpl. repeat split. exists []. rewrite app_nil_r. auto.
Qed.

Lemma keeps_raise {A} e : keeps C (@raise A e).
Proof.
  intros w. simpl. repeat split. exists []. rewrite app_nil_r. auto.
Qed.

Lemma keeps_out_of_fuel {A} : keeps C (@out_of_fuel A).
Proof.
  intros w. simpl. repeat split. exists []. rewrite app_nil_r. auto.
Qed.

Lemma keeps_get_state : keeps C get_state.
Proof.
  intros w. simpl. repeat split. exists []. rewrite app_nil_r. auto.
Qed.

Lemma keeps_get_order : keeps C get_order.
Proof.
  intros w. simpl. repeat split. exists []. rewrite app_nil_r. auto.
Qed.

Lemma keeps_then {A B} (m : M A) (k : A -> M B) w :
  keeps C m ->
  (forall a w1, m w = (Ret a, w1) -> keeps C (k a)) ->
  state (snd (bind m k w)) = state w
  /\ order (snd (bind m k w)) = order w
  /\ upload_bar (snd (bind m k w)) = upload_bar w
  /\ exists d, trace (snd (bind m k w)) = trace w ++ d
               /\ Forall (calls_in C (state w)) d.
Proof.
  intros Hm Hk. specialize (Hm w). unfold bind.
  destruct (m w) as [[a|e| |] w1] eqn:E; simpl in Hm; simpl; try exact Hm.
  destruct Hm as (Hs & Ho & Hu & d1 & Ht & Hd).
  destruct (Hk a w1 eq_refl w1) as (Hs' & Ho' & Hu' & d2 & Ht' & Hd').
  rewrite Hs', Ho', Hu', Ht', Ht, Hs, Ho, Hu. repeat split.
  exists (d1 ++ d2). rewrite app_assoc. split; [reflexivity|].
  apply Forall_app. split; [exact Hd|]. rewrite <- Hs. exact Hd'.
Qed.

Lemma keeps_bind {A B} (m : M A) (k : A -> M B) :
  keeps C m -> (forall a, keeps C (k a)) -> keeps C (bind m k).
Proof. intros Hm Hk w. apply keeps_then; auto. Qed.

Lemma keeps_try {A} (m : M A) h :
  keeps C m -> (forall e k, h e = Some k -> keeps C k) -> keeps C (try_except m h).
Proof.
  intros Hm Hh w. specialize (Hm w). unfold try_except.
  destruct (m w) as [[a|e| |] w1] eqn:E; simpl in Hm; simpl; try exact Hm.
  destruct (h e) as [k|] eqn:He; [|exact Hm].
  destruct Hm as (Hs & Ho & Hu & d1 & Ht & Hd).
  destruct (Hh e k He w1) as (Hs' & Ho' & Hu' & d2 & Ht' & Hd').
  rewrite Hs', Ho', Hu', Ht', Ht, Hs, Ho, Hu. repeat split.
  exists (d1 ++ d2). rewrite app_assoc. split; [reflexivity|].
  apply Forall_app. split; [exact Hd|]. rewrite <- Hs. exact Hd'.
Qed.

Lemma keeps_invoke {A} ask (show : A -> Value) c :
  C c -> keeps C (invoke sess ask show c).
Proof.
  intros Hc w. unfold invoke.
  destruct (ask sess (trace w) c); simpl; repeat split;
    eexists; (split; [reflexivity|]); repeat constructor; exact Hc.
Qed.

Lemma keeps_sleep n : keeps C (sleep n).
Proof.
  intros w. simpl. repeat split. eexists. split; [reflexivity|].
  repeat constructor.
Qed.

Lemma keeps_file_exists image : keeps C (file_exists sess image).
Proof.
  intros w. simpl. repeat split. eexists. split; [reflexivity|].
  repeat constructor.
Qed.

Lemma keeps_set_action act : keeps C (set_action act).
Proof.
  intros w. simpl. repeat split. eexists. split; [reflexivity|].
  repeat constructor.
Qed.

End Keeps.

Lemma keeps_weaken (C C' : Call -> Prop) {A} (m : M A) :
  (forall c, C c -> C' c) -> keeps C m -> keeps C' m.
Proof.
  intros HC Hm w. destruct (Hm w) as (Hs & Ho & Hu & d & Ht & Hd).
  repeat split; auto. exists d. split; [exact Ht|].
  eapply Forall_impl; [|exact Hd].
  intros [c r| | | | |]; simpl; auto.
Qed.

Create HintDb keeps.
#[export] Hint Resolve keeps_ret keeps_raise keeps_out_of_fuel keeps_get_state
  keeps_get_order keeps_sleep keeps_file_exists keeps_set_action : keeps.

(** Splits a footprint goal along the shape of the computation. *)
Ltac keeps_handler :=
  let e := fresh "e" in
  let k := fresh "k" in
  let H := fresh "H" in
  intros e k H; destruct e; simpl in H; try discriminate;
  injection H as <-.

Ltac keeps_tac :=
  repeat match goal with
    | |- keeps _ (bind _ _) => apply keeps_bind; [|intros]
    | |- keeps _ (try_except _ _) => apply keeps_try; [|keeps_handler]
    | |- keeps _ (invoke _ _ _ _) =>
        apply keeps_invoke; first [exact I | solve [simpl; auto]]
    | |- keeps _ (if ?b then _ else _) => destruct b
    | |- keeps _ (match ?x with _ => _ end) => destruct x
    | |- keeps _ _ => solve [auto with keeps]
    end.

Lemma begins_keeps c (C C' : Call -> Prop) {A} (m : M A) :
  begins c C m -> C' c -> (forall x, C x -> C' x) -> keeps C' m.
Proof.
  intros Hm Hc HC w. destruct (Hm w) as (Hs & Ho & Hu & r & d & Ht & Hd).
  repeat split; auto. exists (ECall c r :: d). split; [exact Ht|].
  constructor; [exact Hc|].
  eapply Forall_impl; [|exact Hd].
  intros [c0 r0| | | | |]; simpl; auto.
Qed.

Section Helpers.

Context (sess : Session).

Lemma keeps_accept_alert : keeps alert_call (accept_alert sess).
Proof. unfold accept_alert, command. keeps_tac. Qed.

Lemma keeps_alert_handler C func :
  keeps C func -> (forall c, alert_call c -> C c) ->
  keeps C (alert_handler sess func).
Proof.
  intros Hf HC. unfold alert_handler. keeps_tac.
  eapply keeps_weaken; [exact HC | apply keeps_accept_alert].
Qed.

Lemma keeps_switch_to_frame frame : keeps passive_call (switch_to_frame sess frame).
Proof.
  unfold switch_to_frame, command. apply keeps_alert_handler.
  - keeps_tac.
  - intros []; simpl; auto.
Qed.

Lemma keeps_wait_loop fuel e : keeps waiting_call (wait_loop sess fuel e).
Proof.
  revert e. induction fuel as [|fuel IH]; intros e; simpl.
  - auto with keeps.
  - unfold command. keeps_tac.
Qed.

(** Once the first call of a handled method is logged, the rest of the run is
    the method's remainder and, on an alert, the dismissal. *)
Lemma begins_handled c C (body : M unit) :
  (forall w, exists r w1 o,
      body w = (o, w1)
      /\ state w1 = state w /\ order w1 = order w /\ upload_bar w1 = upload_bar w
      /\ exists d, trace w1 = trace w ++ ECall c r :: d
                   /\ Forall (calls_in C (state w)) d) ->
  (forall x, alert_call x -> C x) ->
  begins c C (alert_handler sess body).
Proof.
  intros Hb HC w. destruct (Hb w) as (r & w1 & o & E & Hs & Ho & Hu & d & Ht & Hd).
  unfold alert_handler, try_except. rewrite E.
  assert (Hdone : state w1 = state w /\ order w1 = order w
                  /\ upload_bar w1 = upload_bar w
                  /\ exists r0 d0, trace w1 = trace w ++ ECall c r0 :: d0
                                   /\ Forall (calls_in C (state w)) d0)
    by (repeat split; eauto).
  destruct o as [a|e| |]; simpl; try exact Hdone.
  destruct e; simpl; try exact Hdone.
  destruct (keeps_weaken _ C _ HC keeps_accept_alert w1)
    as (Hs' & Ho' & Hu' & d' & Ht' & Hd').
  rewrite Hs', Ho', Hu', Ht', Ht, Hs, Ho, Hu. repeat split.
  exists r, (d ++ d'). split.
  - rewrite <- app_assoc. reflexivity.
  - apply Forall_app. split; [exact Hd|]. rewrite <- Hs. exact Hd'.
Qed.

Lemma begins_wait fuel : begins wait_begin waiting_call (wait sess fuel).
Proof.
  unfold wait. apply begins_handled; [|intros []; simpl; auto].
  intros w. unfold try_except, bind, element, invoke. fold wait_begin.
  destruct (find_one sess (trace w) wait_begin) as [e|x].
  - set (w0 := log (ECall wait_begin (Ok (VElement e))) w).
    destruct (keeps_wait_loop fuel e w0) as (Hs & Ho & Hu & d & Ht & Hd).
    destruct (wait_loop sess fuel e w0) as [o w1] eqn:E. simpl in *.
    assert (Hdone : state w1 = state w /\ order w1 = order w
                    /\ upload_bar w1 = upload_bar w
                    /\ exists d0,
                         trace w1 = trace w ++ ECall wait_begin (Ok (VElement e)) :: d0
                         /\ Forall (calls_in waiting_call (state w)) d0).
    { repeat split; auto. exists d. split; [|exact Hd].
      rewrite Ht, <- app_assoc. reflexivity. }
    destruct o as [a|x| |]; [ | destruct x | | ];
      do 3 eexists; (split; [reflexivity | exact Hdone]).
  - assert (Hdone : state (log (ECall wait_begin (Err x)) w) = state w
                    /\ order (log (ECall wait_begin (Err x)) w) = order w
                    /\ upload_bar (log (ECall wait_begin (Err x)) w) = upload_bar w
                    /\ exists d0,
                         trace (log (ECall wait_begin (Err x)) w)
                         = trace w ++ ECall wait_begin (Err x) :: d0
                         /\ Forall (calls_in waiting_call (state w)) d0).
    { repeat split. exists []. split; [reflexivity | constructor]. }
    destruct x; do 3 eexists; (split; [reflexivity | exact Hdone]).
Qed.

Lemma begins_execute_javascript js :
  begins (execute_script ("javascript:" ++ js)%string) alert_call
    (execute_javascript sess js).
Proof.
  unfold execute_javascript. apply begins_handled; [|auto].
  intros w. unfold command, invoke.
  destruct (run_command sess (trace w) _) as [a|x]; do 3 eexists;
    (split; [reflexivity|]); simpl; repeat split;
    exists []; (split; [reflexivity | constructor]).
Qed.

Lemma keeps_wait fuel : keeps passive_call (wait sess fuel).
Proof.
  eapply begins_keeps; [apply begins_wait | exact I |].
  intros []; simpl; auto.
Qed.

Lemma keeps_execute_javascript (C : Call -> Prop) js :
  C (execute_script ("javascript:" ++ js)%string) ->
  (forall x, alert_call x -> C x) ->
  keeps C (execute_javascript sess js).
Proof.
  intros Hc HC. eapply begins_keeps; [apply begins_execute_javascript | exact Hc | exact HC].
Qed.

End Helpers.

#[export] Hint Resolve keeps_accept_alert keeps_switch_to_frame keeps_wait_loop
  keeps_wait : keeps.

(** Closes a footprint goal from a footprint with fewer calls. *)
Ltac keeps_weaker :=
  eapply keeps_weaken; [|solve [eauto with keeps]];
  let c := fresh "c" in intros c; destruct c; simpl; intuition.

Section Uploading.

Context (sess : Session).

Lemma keeps_wait_for_idle fuel pc : keeps scriptless_call (wait_for_idle sess fuel pc).
Proof.
  induction fuel as [|fuel IH]; simpl; [auto with keeps|].
  unfold text. keeps_tac.
Qed.

Lemma keeps_attempt_upload fuel image pc :
  keeps scriptless_call (attempt_upload sess fuel image pc).
Proof.
  revert pc. induction fuel as [|fuel IH]; intros pc; simpl; [auto with keeps|].
  unfold text, element, command. keeps_tac.
Qed.

Lemma keeps_last_element C elem : keeps C (last_element elem).
Proof. unfold last_element. destruct (rev elem); auto with keeps. Qed.

Lemma keeps_await_upload fuel n : keeps scriptless_call (await_upload sess fuel n).
Proof.
  induction fuel as [|fuel IH]; simpl; [auto with keeps|].
  unfold elements, attribute. keeps_tac.
  - apply keeps_last_element.
  - keeps_weaker.
Qed.

Lemma keeps_upload_image fuel image : keeps scriptless_call (upload_image sess fuel image).
Proof.
  unfold upload_image, elements, element. keeps_tac.
  - apply keeps_wait_for_idle.
  - apply keeps_attempt_upload.
  - apply keeps_await_upload.
Qed.

Lemma place_js_not_mode slot pid :
  is_mode_js ("javascript:" ++ place_js slot pid) = false.
Proof. reflexivity. Qed.

Lemma keeps_insert_slots fuel pid l : keeps modeless_call (insert_slots sess fuel pid l).
Proof.
  induction l as [|slot l IH]; simpl; [auto with keeps|].
  keeps_tac.
  - apply keeps_execute_javascript; [apply place_js_not_mode|].
    intros []; simpl; intuition.
  - keeps_weaker.
Qed.

Lemma keeps_insert_image fuel pid image :
  keeps modeless_call (insert_image sess fuel pid image).
Proof.
  unfold insert_image. keeps_tac.
  - apply keeps_execute_javascript; [reflexivity|].
    intros []; simpl; intuition.
  - apply keeps_insert_slots.
Qed.

Lemma keeps_upload_and_insert_image fuel image :
  keeps modeless_call (upload_and_insert_image sess fuel image).
Proof.
  unfold upload_and_insert_image. keeps_tac.
  - eapply keeps_weaken; [|apply keeps_upload_image].
    intros []; simpl; intuition.
  - apply keeps_insert_image.
Qed.

End Uploading.

(** ** C1: entry checks *)

(** C1.  A public operation invoked in a state other than its entry state
    raises [InvalidStateException] and leaves the driver exactly as it was:
    the workflow state, and everything else, is unchanged. *)
Theorem wrong_state_is_rejected sess fuel op w :
  state w <> entry_state op ->
  run sess fuel op w
  = (Raise (InvalidStateException (entry_state op) (state w)), w).
Proof.
  intros H.
  destruct op; simpl in *;
    unfold define_order, insert_fronts, insert_backs, page_to_fronts,
      page_to_backs, bind, assert_state;
    destruct (States_eq_dec (state w) _); try contradiction; reflexivity.
Qed.

Lemma wrong_state_is_rejected_witness :
  run browser 5 op_insert_backs (driver_in defining_order small_order)
  = (Raise (InvalidStateException paging_to_backs defining_order),
     driver_in defining_order small_order).
Proof.
  apply (wrong_state_is_rejected browser 5 op_insert_backs
           (driver_in defining_order small_order)).
  simpl. discriminate.
Defined.

(** ** C6, C10: no identifier, no file *)

(** C6.  With no identifier (a pid that is [None] or empty) [insert_image]
    returns at once: nothing is logged and nothing changes. *)
Theorem no_pid_no_insert sess fuel pid image w :
  truthy pid = false ->
  insert_image sess fuel pid image w = (Ret tt, w).
Proof.
  intros H. unfold insert_image. rewrite H. reflexivity.
Qed.

Lemma no_pid_no_insert_witness :
  insert_image browser 5 (Some "") (card "fine" [2; 5; 2]%Z true)
    (driver_in inserting_fronts patchy_order)
  = (Ret tt, driver_in inserting_fronts patchy_order).
Proof.
  apply (no_pid_no_insert browser 5 (Some "")). reflexivity.
Defined.

(** C10.  A descriptor popped with [downloaded] true whose file is not there
    when [upload_image] looks: the upload step makes no call into the session
    and returns no identifier, [insert_image] then does nothing, and the round
    ends with the progress update.  Besides the pop and the progress update
    the round logs the file check and one refresh of the status bar in the
    unchanged workflow state (which also clears the action label). *)
Theorem missing_file_is_skipped sess fuel f w image rest :
  queue (collection f (order w)) = image :: rest ->
  downloaded image = true ->
  isfile sess (trace w ++ [EQueueGet f image]) (file_path image) = false ->
  let popped :=
    {| state := state w; action := action w;
       order := with_queue f rest (order w);
       upload_bar := upload_bar w;
       trace := trace w ++ [EQueueGet f image] |} in
  let d := [EQueueGet f image; EFileExists (file_path image) false;
            EStatusBar (state w) "N/A"; EUploadBar] in
  fst (upload_image sess fuel image popped) = Ret None
  /\ sequencer_step sess fuel f w
     = (Ret tt,
        {| state := state w; action := "";
           order := with_queue f rest (order w);
           upload_bar := S (upload_bar w);
           trace := trace w ++ d |})
  /\ filter is_call d = []
  /\ filter is_progress d = [EUploadBar].
Proof.
  intros Hq Hd Hf. simpl. repeat split.
  - unfold upload_image, bind, file_exists. simpl. rewrite Hf. reflexivity.
  - unfold sequencer_step, bind, queue_get. rewrite Hq, Hd.
    unfold upload_and_insert_image, upload_image, bind, file_exists, log.
    simpl. rewrite Hf. unfold upload_bar_update, log. simpl.
    rewrite <- !app_assoc. reflexivity.
Qed.

Lemma missing_file_is_skipped_witness :
  let w := driver_in inserting_fronts
             {| details := some_details;
                fronts := {| cards := cards (fronts patchy_order);
                             queue := tl (queue (fronts patchy_order)) |};
                backs := faces [] |} in
  exists w',
    sequencer_step browser 5 Front w = (Ret tt, w')
    /\ filter is_call (trace w') = []
    /\ upload_bar w' = 1.
Proof.
  pose proof (missing_file_is_skipped browser 5 Front
                (driver_in inserting_fronts
                   {| details := some_details;
                      fronts := {| cards := cards (fronts patchy_order);
                                   queue := tl (queue (fronts patchy_order)) |};
                      backs := faces [] |})
                {| name := "gone"; file_path := "missing.png";
                   slots := [1%Z]; downloaded := true |}
                [card "fine" [2; 5; 2]%Z true]
                eq_refl eq_refl eq_refl) as H.
  simpl in H. destruct H as (_ & H & _).
  eexists. split; [exact H|]. split; reflexivity.
Defined.

(** ** The sequencer *)

Lemma helper_leaves_no_mark C st d :
  Forall (calls_in C st) d -> filter is_mark d = [].
Proof.
  induction 1 as [|e d He _ IH]; [reflexivity|].
  destruct e; simpl in *; auto; contradiction.
Qed.

Lemma helper_issues_no_mode st d :
  Forall (calls_in modeless_call st) d -> Forall (fun e => is_mode e = false) d.
Proof.
  apply Forall_impl. intros [[] r| | | | |]; simpl; auto.
Qed.

(** What one round that returns has done. *)
Lemma sequencer_step_ret sess fuel f w :
  fst (sequencer_step sess fuel f w) = Ret tt ->
  exists image rest d,
    queue (collection f (order w)) = image :: rest
    /\ trace (snd (sequencer_step sess fuel f w))
       = trace w ++ EQueueGet f image :: d ++ [EUploadBar]
    /\ Forall (calls_in modeless_call (state w)) d
    /\ state (snd (sequencer_step sess fuel f w)) = state w
    /\ order (snd (sequencer_step sess fuel f w)) = with_queue f rest (order w)
    /\ upload_bar (snd (sequencer_step sess fuel f w)) = S (upload_bar w).
Proof.
  unfold sequencer_step, bind, queue_get.
  destruct (queue (collection f (order w))) as [|image rest]; [discriminate|].
  intros H. exists image, rest.
  set (w1 := log (EQueueGet f image) _) in *.
  set (m := if downloaded image then _ else _) in *.
  assert (K : keeps modeless_call m)
    by (subst m; destruct (downloaded image);
        [apply keeps_upload_and_insert_image | apply keeps_ret]).
  destruct (K w1) as (Hs & Ho & Hu & d & Ht & Hd).
  destruct (m w1) as [[[]|e| |] w2]; try discriminate.
  exists d. simpl in *. rewrite Ht, Hs, Ho, Hu. repeat split; auto.
  rewrite <- !app_assoc. reflexivity.
Qed.

(** What the loop has done when it returns: one pop and one progress update
    per round, in turn, for the first [n] deliveries. *)
Lemma sequencer_loop_ret sess fuel f n : forall w,
  fst (sequencer_loop sess fuel f n w) = Ret tt ->
  let w' := snd (sequencer_loop sess fuel f n w) in
  let q := queue (collection f (order w)) in
  n <= length q
  /\ state w' = state w
  /\ upload_bar w' = upload_bar w + n
  /\ queue (collection f (order w')) = skipn n q
  /\ exists d,
       trace w' = trace w ++ d
       /\ filter is_mark d
          = flat_map (fun image => [EQueueGet f image; EUploadBar]) (firstn n q)
       /\ Forall (fun e => is_mode e = false) d.
Proof.
  induction n as [|n IH]; intros w H; simpl.
  - repeat split; try lia. exists []. rewrite app_nil_r. auto.
  - simpl in H. unfold bind in *.
    destruct (sequencer_step sess fuel f w) as [o w1] eqn:E.
    destruct o as [[]|e| |]; try discriminate.
    destruct (sequencer_step_ret sess fuel f w) as
      (image & rest & d1 & Hq & Ht & Hd & Hs & Ho & Hu); [rewrite E; reflexivity|].
    rewrite E in Ht, Hs, Ho, Hu. simpl in Ht, Hs, Ho, Hu.
    specialize (IH w1 H). simpl in IH.
    destruct IH as (Hn & Hs' & Hu' & Hq' & d2 & Ht' & Hm & Hmode).
    assert (Hq1 : queue (collection f (order w1)) = rest)
      by (rewrite Ho; destruct f; reflexivity).
    rewrite Hq1 in *. rewrite Hq. simpl. repeat split.
    + lia.
    + congruence.
    + lia.
    + exact Hq'.
    + exists ((EQueueGet f image :: d1 ++ [EUploadBar]) ++ d2). repeat split.
      * rewrite Ht', Ht, <- app_assoc. reflexivity.
      * rewrite filter_app. simpl. rewrite filter_app.
        rewrite (helper_leaves_no_mark _ _ _ Hd). simpl. rewrite Hm. reflexivity.
      * apply Forall_app. split; [|exact Hmode].
        constructor; [reflexivity|]. apply Forall_app. split.
        -- eapply helper_issues_no_mode; exact Hd.
        -- repeat constructor.
Qed.

Lemma length_pops f l :
  length (filter is_pop (flat_map (fun image => [EQueueGet f image; EUploadBar]) l))
  = length l.
Proof. induction l; simpl; auto. Qed.

Lemma length_progress f l :
  length (filter is_progress (flat_map (fun image => [EQueueGet f image; EUploadBar]) l))
  = length l.
Proof. induction l; simpl; auto. Qed.

Lemma filter_mark_pop d : filter is_pop (filter is_mark d) = filter is_pop d.
Proof.
  induction d as [|e d IH]; [reflexivity|].
  destruct e; simpl; rewrite ?IH; reflexivity.
Qed.

Lemma filter_mark_progress d : filter is_progress (filter is_mark d) = filter is_progress d.
Proof.
  induction d as [|e d IH]; [reflexivity|].
  destruct e; simpl; rewrite ?IH; reflexivity.
Qed.

(** A round on a descriptor that was not downloaded. *)
Lemma sequencer_step_skip sess fuel f w image rest :
  queue (collection f (order w)) = image :: rest ->
  downloaded image = false ->
  sequencer_step sess fuel f w
  = (Ret tt,
     {| state := state w; action := action w;
        order := with_queue f rest (order w);
        upload_bar := S (upload_bar w);
        trace := trace w ++ [EQueueGet f image; EUploadBar] |}).
Proof.
  intros Hq Hd. unfold sequencer_step, bind, queue_get. rewrite Hq, Hd.
  unfold ret, upload_bar_update, log. simpl. rewrite <- app_assoc. reflexivity.
Qed.

Lemma helper_marks_nothing C st d :
  Forall (calls_in C st) d -> Forall (fun e => is_mark e = false) d.
Proof.
  apply Forall_impl. intros [c r| | | | |]; simpl; auto; contradiction.
Qed.

(** The log of the loop when it returns, round by round. *)
Lemma sequencer_loop_rounds sess fuel f n : forall w,
  fst (sequencer_loop sess fuel f n w) = Ret tt ->
  exists d,
    trace (snd (sequencer_loop sess fuel f n w)) = trace w ++ d
    /\ rounds f (firstn n (queue (collection f (order w)))) d.
Proof.
  induction n as [|n IH]; intros w H; simpl.
  - exists []. rewrite app_nil_r. split; [reflexivity | constructor].
  - simpl in H. unfold bind in *.
    destruct (sequencer_step sess fuel f w) as [o w1] eqn:E.
    destruct o as [[]|e| |]; try discriminate.
    destruct (sequencer_step_ret sess fuel f w) as
      (image & rest & d1 & Hq & Ht & Hd & Hs & Ho & Hu); [rewrite E; reflexivity|].
    rewrite E in Ht, Ho. simpl in Ht, Ho.
    destruct (IH w1 H) as (d2 & Ht' & Hr).
    assert (Hq1 : queue (collection f (order w1)) = rest)
      by (rewrite Ho; destruct f; reflexivity).
    rewrite Hq1 in Hr. rewrite Hq. simpl.
    exists (EQueueGet f image :: d1 ++ EUploadBar :: d2). split.
    + rewrite Ht', Ht, <- !app_assoc. simpl. rewrite <- app_assoc. reflexivity.
    + constructor; [eapply helper_marks_nothing; exact Hd | | exact Hr].
      intros Hdl. rewrite (sequencer_step_skip sess fuel f w image rest Hq Hdl) in E.
      injection E as <-. simpl in Ht. apply app_inv_head in Ht.
      injection Ht as Ht. symmetry in Ht.
      change [EUploadBar] with ([] ++ [EUploadBar]) in Ht at 2.
      apply app_inv_tail in Ht. exact Ht.
Qed.

(** ** C4: a failed download *)

(** C4.  A descriptor popped with [downloaded] false is skipped: its round
    returns at once, having logged the pop and the progress update and nothing
    else (no upload, no insert, no call at all); and in the log of a sequencer
    run that returns, nothing stands between the pop of such a descriptor and
    the progress update that follows it. *)
Theorem failed_download_is_skipped sess fuel f w :
  (forall image rest,
      queue (collection f (order w)) = image :: rest ->
      downloaded image = false ->
      sequencer_step sess fuel f w
      = (Ret tt,
         {| state := state w; action := action w;
            order := with_queue f rest (order w);
            upload_bar := S (upload_bar w);
            trace := trace w ++ [EQueueGet f image; EUploadBar] |}))
  /\ (fst (upload_and_insert_images sess fuel f w) = Ret tt ->
      exists d,
        trace (snd (upload_and_insert_images sess fuel f w)) = trace w ++ d
        /\ rounds f (firstn (length (cards (collection f (order w))))
                       (queue (collection f (order w)))) d).
Proof.
  split.
  - intros image rest. apply sequencer_step_skip.
  - unfold upload_and_insert_images, bind, get_order. apply sequencer_loop_rounds.
Qed.

Lemma failed_download_is_skipped_witness :
  let w := driver_in inserting_fronts patchy_order in
  sequencer_step browser 5 Front w
  = (Ret tt,
     {| state := inserting_fronts; action := "";
        order := with_queue Front (tl (queue (fronts patchy_order))) patchy_order;
        upload_bar := 1;
        trace := [EQueueGet Front (card "lost" [0%Z] false); EUploadBar] |})
  /\ exists d,
       trace (snd (upload_and_insert_images browser 5 Front w)) = trace w ++ d
       /\ rounds Front (firstn 3 (queue (fronts patchy_order))) d.
Proof.
  intros w.
  destruct (failed_download_is_skipped browser 5 Front w) as [H1 H2]. split.
  - apply (H1 (card "lost" [0%Z] false) (tl (queue (fronts patchy_order))));
      reflexivity.
  - apply H2. vm_compute. reflexivity.
Defined.

(** ** C3: pops and progress *)

(** C3.  For a collection of [n] descriptors the sequencer, when it returns,
    has popped exactly the first [n] deliveries of the queue and advanced the
    upload counter exactly [n] times, once after each pop whatever was done
    with the descriptor: the pops and the progress updates alternate in the
    log.  For [n = 0] it returns at once and leaves the driver as it was (no
    pop, no upload, no insert). *)
Theorem sequencer_pops_and_counts sess fuel f w :
  let n := length (cards (collection f (order w))) in
  let q := queue (collection f (order w)) in
  let w' := snd (upload_and_insert_images sess fuel f w) in
  (n = 0 -> upload_and_insert_images sess fuel f w = (Ret tt, w))
  /\ (fst (upload_and_insert_images sess fuel f w) = Ret tt ->
      exists d,
        trace w' = trace w ++ d
        /\ filter is_mark d
           = flat_map (fun image => [EQueueGet f image; EUploadBar]) (firstn n q)
        /\ length (filter is_pop d) = n
        /\ length (filter is_progress d) = n
        /\ upload_bar w' = upload_bar w + n
        /\ queue (collection f (order w')) = skipn n q).
Proof.
  simpl. unfold upload_and_insert_images, bind, get_order. split.
  - intros ->. reflexivity.
  - intros H. destruct (sequencer_loop_ret sess fuel f _ w H)
      as (Hn & Hs & Hu & Hq & d & Ht & Hm & _).
    exists d. repeat split; auto.
    + rewrite <- filter_mark_pop, Hm, length_pops, length_firstn. lia.
    + rewrite <- filter_mark_progress, Hm, length_progress, length_firstn. lia.
Qed.

Lemma sequencer_pops_and_counts_witness :
  let w := driver_in inserting_fronts patchy_order in
  let w' := snd (upload_and_insert_images browser 5 Front w) in
  fst (upload_and_insert_images browser 5 Front w) = Ret tt
  /\ exists d,
       trace w' = trace w ++ d
       /\ length (filter is_pop d) = 3
       /\ length (filter is_progress d) = 3
       /\ length (filter is_upload d) = 1
       /\ upload_bar w' = 0 + 3.
Proof.
  intros w w'.
  assert (R : fst (upload_and_insert_images browser 5 Front w) = Ret tt)
    by (vm_compute; reflexivity).
  split; [exact R|].
  destruct (proj2 (sequencer_pops_and_counts browser 5 Front w) R)
    as (d & Ht & _ & Hp & Hg & Hu & _).
  exists d. split; [exact Ht|]. split; [exact Hp|]. split; [exact Hg|].
  split; [|exact Hu].
  assert (Hd : d = trace w') by (symmetry; exact Ht).
  rewrite Hd. vm_compute. reflexivity.
Defined.

(** ** Moving forward *)

Lemma assigned_app d1 d2 : assigned (d1 ++ d2) = assigned d1 ++ assigned d2.
Proof.
  induction d1 as [|e d1 IH]; [reflexivity|].
  destruct e; simpl; rewrite ?IH; reflexivity.
Qed.

Lemma last_cons (x : States) l s : last (x :: l) s = last l x.
Proof.
  revert x s. induction l as [|y l IH]; intros x s; [reflexivity|].
  change (last (y :: l) s = last (y :: l) x). rewrite !IH. reflexivity.
Qed.

Lemma ascending_app s l1 l2 :
  ascending s l1 -> ascending (last l1 s) l2 -> ascending s (l1 ++ l2).
Proof.
  revert s. induction l1 as [|x l1 IH]; intros s H1 H2; [exact H2|].
  destruct H1 as [Hx H1]. split; [exact Hx|].
  apply IH; [exact H1|]. rewrite last_cons in H2. exact H2.
Qed.

Lemma last_app_default (l1 l2 : list States) s :
  last (l1 ++ l2) s = last l2 (last l1 s).
Proof.
  revert s. induction l1 as [|x l1 IH]; intros s; [reflexivity|].
  rewrite <- app_comm_cons, !last_cons. apply IH.
Qed.

Lemma forward_refl w : forward w w.
Proof. exists []. rewrite app_nil_r. simpl. auto. Qed.

Lemma forward_trans w1 w2 w3 : forward w1 w2 -> forward w2 w3 -> forward w1 w3.
Proof.
  intros (d1 & Ht1 & Ha1 & Hs1) (d2 & Ht2 & Ha2 & Hs2).
  exists (d1 ++ d2). rewrite assigned_app. repeat split.
  - rewrite Ht2, Ht1, app_assoc. reflexivity.
  - apply ascending_app; [exact Ha1|]. rewrite <- Hs1. exact Ha2.
  - rewrite last_app_default, <- Hs1. exact Hs2.
Qed.

Lemma ascending_repeat s n : ascending s (repeat s n).
Proof. induction n; simpl; auto. Qed.

Lemma last_repeat (s : States) n : last (repeat s n) s = s.
Proof.
  induction n as [|n IH]; [reflexivity|].
  simpl. destruct n; [reflexivity|]. exact IH.
Qed.

Lemma still_forward w w' : still w w' -> forward w w'.
Proof.
  intros (Hs & d & Ht & Ha). exists d. rewrite Ha. repeat split.
  - exact Ht.
  - apply ascending_repeat.
  - rewrite last_repeat. exact Hs.
Qed.

Lemma still_refl w : still w w.
Proof. split; [reflexivity|]. exists []. rewrite app_nil_r. auto. Qed.

Lemma still_trans w1 w2 w3 : still w1 w2 -> still w2 w3 -> still w1 w3.
Proof.
  intros (Hs1 & d1 & Ht1 & Ha1) (Hs2 & d2 & Ht2 & Ha2).
  split; [congruence|]. exists (d1 ++ d2). split.
  - rewrite Ht2, Ht1, app_assoc. reflexivity.
  - rewrite assigned_app, length_app, repeat_app, <- Ha1, <- Hs1, <- Ha2. reflexivity.
Qed.

Lemma calls_assign_nothing C st d :
  Forall (calls_in C st) d -> assigned d = repeat st (length (assigned d)).
Proof.
  induction 1 as [|e d He _ IH]; [reflexivity|].
  destruct e; simpl in *; auto. subst. f_equal. exact IH.
Qed.

Lemma keeps_still C {A} (m : M A) w : keeps C m -> still w (snd (m w)).
Proof.
  intros K. destruct (K w) as (Hs & _ & _ & d & Ht & Hd).
  split; [exact Hs|]. exists d. split; [exact Ht|].
  eapply calls_assign_nothing; exact Hd.
Qed.

Lemma forward_bind {A B} (m : M A) (k : A -> M B) w :
  forward w (snd (m w)) ->
  (forall a w1, m w = (Ret a, w1) -> forward w1 (snd (k a w1))) ->
  forward w (snd (bind m k w)).
Proof.
  intros Hm Hk. unfold bind. destruct (m w) as [[a|e| |] w1] eqn:E; simpl in *; auto.
  eapply forward_trans; [exact Hm|]. apply Hk. reflexivity.
Qed.

Lemma forward_after {A B} (m : M A) (k : A -> M B) w :
  still w (snd (m w)) ->
  (forall a w1, m w = (Ret a, w1) -> state w1 = state w ->
                forward w1 (snd (k a w1))) ->
  forward w (snd (bind m k w)).
Proof.
  intros Hm Hk. apply forward_bind; [apply still_forward; exact Hm|].
  intros a w1 E. apply Hk; [exact E|]. rewrite E in Hm. apply Hm.
Qed.

Lemma forward_assert {B} st (k : unit -> M B) w :
  (state w = st -> forward w (snd (k tt w))) ->
  forward w (snd (bind (assert_state st) k w)).
Proof.
  intros Hk. unfold bind, assert_state.
  destruct (States_eq_dec (state w) st); simpl; [auto | apply forward_refl].
Qed.

Lemma forward_set_state st act w :
  rank (state w) <= rank st -> forward w (snd (set_state st act w)).
Proof.
  intros H. simpl. eexists. split; [reflexivity|]. simpl. auto.
Qed.

Lemma keeps_any C {A} (m : M A) : keeps C m -> keeps any_call m.
Proof. apply keeps_weaken. intros; exact I. Qed.

Section Forward.

Context (sess : Session).

Lemma keeps_any_execute_javascript js : keeps any_call (execute_javascript sess js).
Proof. apply keeps_execute_javascript; intros; exact I. Qed.

Lemma keeps_any_next_step fuel : keeps any_call (next_step sess fuel).
Proof.
  unfold next_step. apply keeps_bind; [eapply keeps_any; apply keeps_wait|].
  intros. apply keeps_any_execute_javascript.
Qed.

Lemma sequencer_step_still fuel f w : still w (snd (sequencer_step sess fuel f w)).
Proof.
  unfold sequencer_step, bind, queue_get.
  destruct (queue (collection f (order w))) as [|image rest]; [apply still_refl|].
  set (w1 := log (EQueueGet f image) _).
  set (m := if downloaded image then _ else _).
  assert (K : keeps modeless_call m)
    by (subst m; destruct (downloaded image);
        [apply keeps_upload_and_insert_image | apply keeps_ret]).
  assert (S1 : still w w1).
  { split; [reflexivity|]. exists [EQueueGet f image]. split; reflexivity. }
  pose proof (keeps_still _ m w1 K) as S2.
  destruct (m w1) as [[[]|e| |] w2]; simpl in *;
    try (eapply still_trans; [exact S1 | exact S2]).
  eapply still_trans; [exact S1|]. eapply still_trans; [exact S2|].
  split; [reflexivity|]. exists [EUploadBar]. split; reflexivity.
Qed.

Lemma sequencer_loop_still fuel f n : forall w,
  still w (snd (sequencer_loop sess fuel f n w)).
Proof.
  induction n as [|n IH]; intros w; simpl; [apply still_refl|].
  unfold bind. pose proof (sequencer_step_still fuel f w) as S1.
  destruct (sequencer_step sess fuel f w) as [[[]|e| |] w1]; simpl in *; auto.
  eapply still_trans; [exact S1 | apply IH].
Qed.

Lemma upload_and_insert_images_still fuel f w :
  still w (snd (upload_and_insert_images sess fuel f w)).
Proof. unfold upload_and_insert_images, bind, get_order. apply sequencer_loop_still. Qed.

End Forward.

#[export] Hint Resolve keeps_any_execute_javascript keeps_any_next_step : keeps.

(** Walks down a method whose calls leave the workflow state alone, up to the
    [set_state] that ends it. *)
Ltac forward_calls :=
  repeat (apply forward_after;
          [ apply (keeps_still any_call);
            solve [keeps_tac | eapply keeps_any; eauto with keeps]
          | intros ? ? _ ? ]).

Ltac forward_finish :=
  apply forward_set_state;
  match goal with
  | |- rank (state ?w) <= _ =>
      let H := fresh in
      assert (H : exists s, s = state w) by eauto;
      destruct H as [? H]; rewrite <- H;
      repeat match goal with E : state _ = _ |- _ => rewrite E in H; clear E end;
      subst; simpl; lia
  end.

Section Operations.

Context (sess : Session).

Lemma forward_define_order w : forward w (snd (define_order sess w)).
Proof.
  unfold define_order, element, command.
  apply forward_assert. intros Hst.
  forward_calls. forward_finish.
Qed.

Lemma forward_page_to_fronts w : forward w (snd (page_to_fronts sess w)).
Proof.
  unfold page_to_fronts, different_images, command.
  apply forward_assert. intros Hst.
  forward_calls. forward_finish.
Qed.

Lemma forward_page_to_backs fuel w : forward w (snd (page_to_backs sess fuel w)).
Proof.
  unfold page_to_backs, different_images, same_images, element, command.
  apply forward_assert. intros Hst.
  forward_calls. forward_finish.
Qed.

End Operations.

(** Splits a run that returned into the runs of its steps. *)
Ltac ret_steps H :=
  repeat match type of H with
    | bind _ _ _ = _ =>
        apply bind_ret_inv in H;
        let a := fresh "a" in
        let w := fresh "w" in
        let E := fresh "E" in
        destruct H as (a & w & E & H)
    end.

Section Exits.

Context (sess : Session).

Lemma set_state_last st act w o w' :
  set_state st act w = (o, w') ->
  state w' = st
  /\ trace w' = trace w ++ [EStatusBar st (if (act =? "")%string then "N/A" else act)].
Proof. unfold set_state. intros H. injection H as _ <-. split; reflexivity. Qed.

Lemma page_to_fronts_exit w w' :
  page_to_fronts sess w = (Ret tt, w') -> state w' = inserting_fronts.
Proof.
  unfold page_to_fronts. intros H. ret_steps H.
  apply set_state_last in H. apply H.
Qed.

Lemma page_to_backs_exit fuel w w' :
  page_to_backs sess fuel w = (Ret tt, w') -> state w' = inserting_backs.
Proof.
  unfold page_to_backs. intros H. ret_steps H.
  apply set_state_last in H. apply H.
Qed.

Lemma run_exit fuel op w w' :
  run sess fuel op w = (Ret tt, w') ->
  state w' = exit_state op
  /\ exists h, trace w' = h ++ [EStatusBar (exit_state op) "N/A"].
Proof.
  destruct op; simpl; unfold define_order, insert_fronts, insert_backs;
    intros H; ret_steps H; apply set_state_last in H; destruct H as [Hs Ht];
    (split; [exact Hs|]); eexists; exact Ht.
Qed.

Lemma forward_insert_fronts fuel w : forward w (snd (insert_fronts sess fuel w)).
Proof.
  unfold insert_fronts.
  apply forward_bind; [apply forward_page_to_fronts|].
  intros [] w1 E. apply page_to_fronts_exit in E.
  apply forward_assert. intros _.
  apply forward_after; [apply upload_and_insert_images_still|].
  intros [] w2 _ E2. apply forward_set_state. rewrite E2, E. simpl. lia.
Qed.

Lemma forward_insert_backs fuel w : forward w (snd (insert_backs sess fuel w)).
Proof.
  unfold insert_backs.
  apply forward_bind; [apply forward_page_to_backs|].
  intros [] w1 E. apply page_to_backs_exit in E.
  apply forward_assert. intros _.
  apply forward_after; [apply upload_and_insert_images_still|].
  intros [] w2 _ E2. apply forward_set_state. rewrite E2, E. simpl. lia.
Qed.

Lemma forward_run fuel op w : forward w (snd (run sess fuel op w)).
Proof.
  destruct op; simpl;
    [apply forward_define_order | apply forward_insert_fronts | apply forward_insert_backs].
Qed.

Lemma forward_execute fuel w : forward w (snd (execute sess fuel w)).
Proof.
  unfold execute.
  apply forward_bind; [apply forward_define_order|]. intros.
  apply forward_bind; [apply forward_insert_fronts|]. intros.
  apply forward_insert_backs.
Qed.

Lemma forward_post_init w :
  state w = initialising -> forward w (snd (post_init sess w)).
Proof.
  intros Hst. unfold post_init, command.
  forward_calls. forward_finish.
Qed.

End Exits.

(** ** C9: the workflow state moves forward *)

(** C9.  Whatever the session does and however the run ends, every state
    written during a public operation, during [execute], and during a whole
    run from [Initialising], is at or after the state it replaces in the order
    Initialising, DefiningOrder, PagingToFronts, InsertingFronts,
    PagingToBacks, InsertingBacks, PagingToReview; and a public operation that
    returns has its exit state as the state of the driver, written by the last
    thing it did. *)
Theorem state_moves_forward sess fuel :
  (forall op w, forward w (snd (run sess fuel op w)))
  /\ (forall w, forward w (snd (execute sess fuel w)))
  /\ (forall o, forward (driver_in initialising o)
                  (snd (whole_run sess fuel (driver_in initialising o))))
  /\ (forall op w w',
        run sess fuel op w = (Ret tt, w') ->
        state w' = exit_state op
        /\ exists h, trace w' = h ++ [EStatusBar (exit_state op) "N/A"]).
Proof.
  repeat split.
  - intros. apply forward_run.
  - intros. apply forward_execute.
  - intros. unfold whole_run.
    apply forward_bind; [apply forward_post_init; reflexivity|].
    intros. apply forward_execute.
  - apply (run_exit sess fuel op w w' H).
  - apply (run_exit sess fuel op w w' H).
Qed.

Lemma state_moves_forward_witness :
  let w := driver_in initialising small_order in
  let w1 := driver_in defining_order small_order in
  forward w (snd (whole_run browser 3 w))
  /\ state (snd (run browser 3 op_define_order w1)) = paging_to_fronts
  /\ exists h,
       trace (snd (run browser 3 op_define_order w1))
       = h ++ [EStatusBar paging_to_fronts "N/A"].
Proof.
  intros w w1.
  destruct (state_moves_forward browser 3) as (_ & _ & H3 & H4).
  split; [apply H3|].
  apply (H4 op_define_order w1). vm_compute. reflexivity.
Defined.

(** ** C2: the mode command *)

Lemma calls_plain st d : Forall (calls_in plain_call st) d -> Forall plain d.
Proof.
  apply Forall_impl. intros [[] r| | | | |]; unfold plain; simpl; intuition.
Qed.

Lemma before_mode_refl w : before_mode w w.
Proof. exists []. rewrite app_nil_r. auto. Qed.

Lemma before_mode_keeps {A} (m : M A) w0 w o w1 :
  m w = (o, w1) -> before_mode w0 w -> keeps plain_call m -> before_mode w0 w1.
Proof.
  intros E (d & Ht & Hd) K. destruct (K w) as (_ & _ & _ & d' & Ht' & Hd').
  rewrite E in Ht'. simpl in Ht'. exists (d ++ d'). split.
  - rewrite Ht', Ht, app_assoc. reflexivity.
  - apply Forall_app. split; [exact Hd|]. eapply calls_plain; exact Hd'.
Qed.

Lemma mode_once_keeps {A} (m : M A) js w0 w o w1 :
  m w = (o, w1) -> mode_once js w0 w -> keeps modeless_call m -> mode_once js w0 w1.
Proof.
  intros E (d1 & r & d2 & Ht & Hd1 & Hd2) K.
  destruct (K w) as (_ & _ & _ & d' & Ht' & Hd').
  rewrite E in Ht'. simpl in Ht'. exists d1, r, (d2 ++ d'). repeat split.
  - rewrite Ht', Ht, <- !app_assoc. reflexivity.
  - exact Hd1.
  - apply Forall_app. split; [exact Hd2|]. eapply helper_issues_no_mode; exact Hd'.
Qed.

Lemma mode_once_extend js w0 w w1 d :
  trace w1 = trace w ++ d -> Forall (fun e => is_mode e = false) d ->
  mode_once js w0 w -> mode_once js w0 w1.
Proof.
  intros Ht' Hd' (d1 & r & d2 & Ht & Hd1 & Hd2).
  exists d1, r, (d2 ++ d). repeat split.
  - rewrite Ht', Ht, <- !app_assoc. reflexivity.
  - exact Hd1.
  - apply Forall_app. split; assumption.
Qed.

Section Mode.

Context (sess : Session).

Lemma mode_once_issue js w0 w o w1 :
  execute_javascript sess js w = (o, w1) ->
  before_mode w0 w ->
  mode_once ("javascript:" ++ js)%string w0 w1.
Proof.
  intros E (d & Ht & Hd).
  destruct (begins_execute_javascript sess js w) as (_ & _ & _ & r & d' & Ht' & Hd').
  rewrite E in Ht'. simpl in Ht'. exists d, r, d'. repeat split.
  - rewrite Ht', Ht, <- app_assoc. reflexivity.
  - exact Hd.
  - eapply Forall_impl; [|exact Hd'].
    intros [[] r0| | | | |]; simpl; intuition.
Qed.

Lemma keeps_plain_execute_javascript js :
  is_mode_js ("javascript:" ++ js) = false ->
  keeps plain_call (execute_javascript sess js).
Proof.
  intros H. apply keeps_execute_javascript; [exact H|].
  intros []; simpl; intuition.
Qed.

Lemma keeps_plain_wait fuel : keeps plain_call (wait sess fuel).
Proof. keeps_weaker. Qed.

Lemma keeps_plain_next_step fuel : keeps plain_call (next_step sess fuel).
Proof.
  unfold next_step. apply keeps_bind; [apply keeps_plain_wait|].
  intros. apply keeps_plain_execute_javascript. reflexivity.
Qed.

Lemma keeps_plain_switch_to_frame frame : keeps plain_call (switch_to_frame sess frame).
Proof. keeps_weaker. Qed.

Lemma assert_state_ret st w a w1 : assert_state st w = (Ret a, w1) -> w1 = w /\ state w = st.
Proof.
  unfold assert_state. destruct (States_eq_dec (state w) st); intros H;
    [|discriminate]. injection H as _ <-. auto.
Qed.

Lemma get_order_ret w a w1 : get_order w = (Ret a, w1) -> w1 = w /\ a = order w.
Proof. unfold get_order. intros H. injection H as <- <-. auto. Qed.

(** The page transition to the fronts, when it returns, has issued the
    different-images command once and nothing else of note. *)
Lemma page_to_fronts_mode w w' :
  page_to_fronts sess w = (Ret tt, w') -> mode_once different_js w w'.
Proof.
  unfold page_to_fronts, different_images. intros H. ret_steps H.
  apply assert_state_ret in E as [-> _]. apply get_order_ret in E2 as [-> ->].
  pose proof (before_mode_refl w) as B.
  eapply (before_mode_keeps _ _ _ _ _ E0) in B;
    [|apply keeps_plain_execute_javascript; reflexivity].
  eapply (before_mode_keeps _ _ _ _ _ E1) in B; [|apply keeps_plain_switch_to_frame].
  eapply (before_mode_keeps _ _ _ _ _ E3) in B;
    [|apply keeps_plain_execute_javascript; reflexivity].
  eapply mode_once_issue in B; [|exact E4].
  eapply (mode_once_keeps _ _ _ _ _ _ E5) in B;
    [|unfold command; apply keeps_invoke; exact I].
  apply set_state_last in H. destruct H as [_ Ht].
  eapply mode_once_extend; [exact Ht| |exact B]. repeat constructor.
Qed.

(** The page transition to the backs, when it returns, has issued once the
    mode command chosen from the number of backs. *)
Lemma page_to_backs_mode fuel w w' :
  page_to_backs sess fuel w = (Ret tt, w') -> mode_once (mode_of Back (order w)) w w'.
Proof.
  unfold page_to_backs. intros H. ret_steps H.
  apply assert_state_ret in E as [-> _]. apply get_order_ret in E5 as [-> ->].
  assert (K2 : forall C, (forall c, passive_call c -> C c) ->
               keeps C
                 (try_except
                    (e <- element sess (find_element_by_id "closeBtn") ;;
                     command sess (click e))
                    (fun e => match e with
                              | NoSuchElementException => Some (ret tt)
                              | _ => None
                              end))).
  { intros C HC. eapply keeps_weaken; [exact HC|].
    unfold element, command. keeps_tac. }
  pose proof (before_mode_refl w) as B.
  eapply (before_mode_keeps _ _ _ _ _ E0) in B; [|apply keeps_plain_next_step].
  eapply (before_mode_keeps _ _ _ _ _ E1) in B; [|apply keeps_plain_wait].
  eapply (before_mode_keeps _ _ _ _ _ E2) in B;
    [|apply K2; intros []; simpl; intuition].
  eapply (before_mode_keeps _ _ _ _ _ E3) in B; [|apply keeps_plain_next_step].
  eapply (before_mode_keeps _ _ _ _ _ E4) in B; [|apply keeps_plain_switch_to_frame].
  assert (Ho : order w5 = order w).
  { destruct (keeps_any_next_step sess fuel w) as (_ & O0 & _).
    destruct (keeps_wait sess fuel w1) as (_ & O1 & _).
    destruct (K2 any_call (fun _ _ => I) w2) as (_ & O2 & _).
    destruct (keeps_any_next_step sess fuel w3) as (_ & O3 & _).
    destruct (keeps_switch_to_frame sess "sysifm_loginFrame" w4) as (_ & O4 & _).
    rewrite E0 in O0. rewrite E1 in O1. rewrite E2 in O2. rewrite E3 in O3.
    rewrite E4 in O4. simpl in *. congruence. }
  assert (M : mode_once (mode_of Back (order w)) w w7).
  { simpl. rewrite <- Ho.
    destruct (Nat.eqb (length (cards (backs (order w5)))) 1);
      unfold same_images, different_images in E6;
      eapply mode_once_issue in B; try exact E6; exact B. }
  eapply (mode_once_keeps _ _ _ _ _ _ E7) in M;
    [|unfold command; apply keeps_invoke; exact I].
  apply set_state_last in H. destruct H as [_ Ht].
  eapply mode_once_extend; [exact Ht| |exact M]. repeat constructor.
Qed.

End Mode.

(** C2, as amended.  When [insert_fronts] or [insert_backs] returns, its page
    transition has issued exactly one mode command, before any file was
    submitted for the face and with no other mode command before or after it:
    for the backs the same-image command when there is exactly one back and
    the different-images command otherwise, for the fronts always the
    different-images command. *)
Theorem mode_chosen_once sess fuel f w :
  fst (run sess fuel (face_op f) w) = Ret tt ->
  mode_once (mode_of f (order w)) w (snd (run sess fuel (face_op f) w)).
Proof.
  intros H.
  destruct (run sess fuel (face_op f) w) as [o w'] eqn:E. simpl in *. subst o.
  destruct f; simpl in E; unfold insert_fronts, insert_backs in E; ret_steps E;
    repeat match goal with u : unit |- _ => destruct u end.
  - apply page_to_fronts_mode in E0. apply assert_state_ret in E1 as [-> _].
    unfold upload_and_insert_images, bind, get_order in E2.
    assert (R : fst (sequencer_loop sess fuel Front
                       (length (cards (collection Front (order w0)))) w0) = Ret tt)
      by (rewrite E2; reflexivity).
    apply sequencer_loop_ret in R. rewrite E2 in R. simpl in R.
    destruct R as (_ & _ & _ & _ & d & Ht & _ & Hd).
    apply set_state_last in E as [_ Ht'].
    eapply mode_once_extend; [exact Ht'|repeat constructor|].
    eapply mode_once_extend; [exact Ht|exact Hd|exact E0].
  - apply page_to_backs_mode in E0. apply assert_state_ret in E1 as [-> _].
    unfold upload_and_insert_images, bind, get_order in E2.
    assert (R : fst (sequencer_loop sess fuel Back
                       (length (cards (collection Back (order w0)))) w0) = Ret tt)
      by (rewrite E2; reflexivity).
    apply sequencer_loop_ret in R. rewrite E2 in R. simpl in R.
    destruct R as (_ & _ & _ & _ & d & Ht & _ & Hd).
    apply set_state_last in E as [_ Ht'].
    eapply mode_once_extend; [exact Ht'|repeat constructor|].
    eapply mode_once_extend; [exact Ht|exact Hd|exact E0].
Qed.

Lemma mode_chosen_once_witness :
  let w := driver_in paging_to_backs small_order in
  fst (run browser 5 (face_op Back) w) = Ret tt
  /\ mode_once (mode_of Back (order w)) w (snd (run browser 5 (face_op Back) w)).
Proof.
  intros w.
  assert (R : fst (run browser 5 (face_op Back) w) = Ret tt)
    by (vm_compute; reflexivity).
  split; [exact R|].
  exact (mode_chosen_once browser 5 Back w R).
Defined.

(** C2 as stated fails for the fronts: with a single front the page
    transition does not issue the same-image command (it issues the
    different-images command). *)
Lemma mode_as_stated_fails :
  ~ (forall sess fuel f w,
        fst (run sess fuel (face_op f) w) = Ret tt ->
        mode_once (mode_as_stated f (order w)) w
          (snd (run sess fuel (face_op f) w))).
Proof.
  intros H.
  specialize (H browser 5 Front (driver_in paging_to_fronts small_order)).
  destruct H as (d1 & r & d2 & Ht & _); [vm_compute; reflexivity|].
  assert (F : existsb is_same_image
                (trace (snd (run browser 5 (face_op Front)
                               (driver_in paging_to_fronts small_order)))) = false)
    by (vm_compute; reflexivity).
  rewrite Ht in F.
  change (mode_as_stated Front (order (driver_in paging_to_fronts small_order)))
    with same_js in F.
  rewrite !existsb_app in F.
  apply orb_false_iff in F as [_ F]. apply orb_false_iff in F as [_ F].
  discriminate F.
Qed.

(** ** C5: inserting into the slots *)

Lemma steps_app d1 d2 : steps (d1 ++ d2) = steps d1 ++ steps d2.
Proof.
  induction d1 as [|e d1 IH]; [reflexivity|].
  destruct e as [[] r| | | | |]; simpl; rewrite ?IH; try reflexivity.
  destruct (id =? "sysdiv_wait")%string; simpl; rewrite ?IH; reflexivity.
Qed.

Lemma placements_app d1 d2 : placements (d1 ++ d2) = placements d1 ++ placements d2.
Proof.
  induction d1 as [|e d1 IH]; [reflexivity|].
  destruct e as [[] r| | | | |]; simpl; rewrite ?IH; try reflexivity.
  destruct (is_placement_js script); simpl; rewrite ?IH; reflexivity.
Qed.

Lemma waiting_is_no_step st d :
  Forall (calls_in waiting_call st) d -> steps d = [] /\ placements d = [].
Proof.
  induction 1 as [|e d He _ [IH1 IH2]]; [auto|].
  destruct e as [[] r| | | | |]; simpl in *; auto; contradiction.
Qed.

Lemma alert_is_no_step st d :
  Forall (calls_in alert_call st) d -> steps d = [] /\ placements d = [].
Proof.
  intros H. apply (waiting_is_no_step st).
  eapply Forall_impl; [|exact H].
  intros [[] r| | | | |]; simpl; auto.
Qed.

Section Inserting.

Context (sess : Session).

(** The log of one script run through [execute_javascript]. *)
Lemma execute_javascript_log js w :
  exists d,
    trace (snd (execute_javascript sess js w)) = trace w ++ d
    /\ steps d = [execute_script ("javascript:" ++ js)%string]
    /\ placements d
       = (if is_placement_js ("javascript:" ++ js)
          then ["javascript:" ++ js] else [])%string.
Proof.
  destruct (begins_execute_javascript sess js w) as (_ & _ & _ & r & d & Ht & Hd).
  apply alert_is_no_step in Hd as [H1 H2].
  exists (ECall (execute_script ("javascript:" ++ js)%string) r :: d).
  split; [exact Ht|]. simpl steps. simpl placements. rewrite H1, H2.
  split; [reflexivity|].
  destruct (is_placement_js _); reflexivity.
Qed.

(** The log of one [wait]. *)
Lemma wait_log fuel w :
  exists d,
    trace (snd (wait sess fuel w)) = trace w ++ d
    /\ steps d = [wait_begin]
    /\ placements d = [].
Proof.
  destruct (begins_wait sess fuel w) as (_ & _ & _ & r & d & Ht & Hd).
  apply waiting_is_no_step in Hd as [H1 H2].
  exists (ECall wait_begin r :: d).
  split; [exact Ht|]. simpl. rewrite H1, H2. auto.
Qed.

Lemma insert_slots_ret fuel pid l : forall w,
  fst (insert_slots sess fuel pid l w) = Ret tt ->
  exists d,
    trace (snd (insert_slots sess fuel pid l w)) = trace w ++ d
    /\ placements d = map (fun slot => "javascript:" ++ place_js slot pid)%string l
    /\ steps d
       = flat_map (fun slot =>
                     [execute_script ("javascript:" ++ place_js slot pid)%string;
                      wait_begin]) l.
Proof.
  induction l as [|slot l IH]; intros w H.
  - exists []. simpl. rewrite app_nil_r. auto.
  - cbn [insert_slots] in *. unfold bind in *.
    destruct (execute_javascript_log (place_js slot pid) w) as (d1 & T1 & S1 & P1).
    destruct (execute_javascript sess (place_js slot pid) w) as [[[]|e| |] w1];
      try discriminate.
    destruct (wait_log fuel w1) as (d2 & T2 & S2 & P2).
    destruct (wait sess fuel w1) as [[[]|e| |] w2]; try discriminate.
    destruct (IH w2 H) as (d3 & T3 & P3 & S3).
    simpl in T1, T2. exists (d1 ++ d2 ++ d3). repeat split.
    + rewrite T3, T2, T1, <- !app_assoc. reflexivity.
    + rewrite !placements_app, P1, P2, P3. reflexivity.
    + rewrite !steps_app, S1, S2, S3. reflexivity.
Qed.

End Inserting.

Lemma set_action_log act w o w1 :
  set_action act w = (o, w1) ->
  trace w1
  = trace w ++ [EStatusBar (state w) (if (act =? "")%string then "N/A" else act)].
Proof.
  unfold set_action, bind, get_state, set_state. intros H.
  injection H as _ <-. reflexivity.
Qed.


(** ** The loops, one round at a time *)

Section Rounds.

Context (sess : Session).

(** A timeout of the wait for the indicator: the wait is made again. *)
Lemma wait_loop_timeout fuel e w :
  run_command sess (trace w) (wait_until_invisible 100 e) = Err TimeoutException ->
  wait_loop sess (S fuel) e w
  = wait_loop sess fuel e
      (log (ECall (wait_until_invisible 100 e) (Err TimeoutException)) w).
Proof.
  intros F. cbn [wait_loop]. unfold bind, try_except, command, invoke.
  rewrite F. reflexivity.
Qed.

(** The indicator has gone: the loop is left. *)
Lemma wait_loop_clear fuel e w :
  run_command sess (trace w) (wait_until_invisible 100 e) = Ok tt ->
  wait_loop sess (S fuel) e w
  = (Ret tt, log (ECall (wait_until_invisible 100 e) (Ok VNone)) w).
Proof.
  intros F. cbn [wait_loop]. unfold bind, try_except, command, invoke.
  rewrite F. reflexivity.
Qed.

(** Any other failure of the wait is raised. *)
Lemma wait_loop_error fuel e w x :
  run_command sess (trace w) (wait_until_invisible 100 e) = Err x ->
  x <> TimeoutException ->
  wait_loop sess (S fuel) e w
  = (Raise x, log (ECall (wait_until_invisible 100 e) (Err x)) w).
Proof.
  intros F Hx. cbn [wait_loop]. unfold bind, try_except, command, invoke.
  rewrite F. destruct x; try reflexivity. contradiction.
Qed.

Lemma wait_loop_never_times_out fuel : forall e w,
  fst (wait_loop sess fuel e w) <> Raise TimeoutException.
Proof.
  induction fuel as [|fuel IH]; intros e w; [discriminate|].
  destruct (run_command sess (trace w) (wait_until_invisible 100 e)) as [[]|x] eqn:F.
  - rewrite (wait_loop_clear _ _ _ F). discriminate.
  - destruct x;
      try (rewrite (wait_loop_error _ _ _ _ F); [simpl; congruence | discriminate]).
    rewrite (wait_loop_timeout _ _ _ F). apply IH.
Qed.

(** An alert while the list of uploads is read: it is accepted and the loop
    goes round again. *)
Lemma await_upload_alert fuel n w :
  find_all sess (trace w) poll_call = Err UnexpectedAlertPresentException ->
  await_upload sess (S fuel) n w
  = (accept_alert sess ;; await_upload sess fuel n)
      (log (ECall poll_call (Err UnexpectedAlertPresentException)) w).
Proof.
  intros F. cbn [await_upload]. unfold bind at 1 2. unfold try_except at 1.
  unfold bind at 1. unfold elements, invoke. fold poll_call. rewrite F.
  unfold bind. destruct (accept_alert sess _) as [[[]|x| |] w1]; reflexivity.
Qed.

Lemma await_upload_error fuel n w x :
  find_all sess (trace w) poll_call = Err x ->
  x <> UnexpectedAlertPresentException ->
  await_upload sess (S fuel) n w = (Raise x, log (ECall poll_call (Err x)) w).
Proof.
  intros F Hx. cbn [await_upload]. unfold bind at 1. unfold try_except at 1.
  unfold bind at 1. unfold elements, invoke. fold poll_call. rewrite F.
  destruct x; try reflexivity. contradiction.
Qed.

(** The list has not grown: two seconds' sleep and round again. *)
Lemma await_upload_short fuel n w es :
  find_all sess (trace w) poll_call = Ok es ->
  length es <= n ->
  await_upload sess (S fuel) n w
  = await_upload sess fuel n
      (log (ESleep 2) (log (ECall poll_call (Ok (VElements es))) w)).
Proof.
  intros F Hn. cbn [await_upload]. unfold bind at 1. unfold try_except at 1.
  unfold bind at 1. unfold elements, invoke. fold poll_call. rewrite F.
  apply Nat.ltb_ge in Hn. rewrite Hn. reflexivity.
Qed.

Lemma last_element_snoc front e w : last_element (front ++ [e]) w = (Ret e, w).
Proof. unfold last_element. rewrite rev_app_distr. reflexivity. Qed.

(** The list has grown: the pid of its last entry is read. *)
Lemma await_upload_grown fuel n w front e :
  find_all sess (trace w) poll_call = Ok (front ++ [e]) ->
  n < length (front ++ [e]) ->
  let w1 := log (ECall poll_call (Ok (VElements (front ++ [e])))) w in
  await_upload sess (S fuel) n w
  = match read_attribute sess (trace w1) (get_attribute e "pid") with
    | Ok pid => (Ret pid, log (ECall (get_attribute e "pid") (Ok (shown pid))) w1)
    | Err UnexpectedAlertPresentException =>
        (accept_alert sess ;; await_upload sess fuel n)
          (log (ECall (get_attribute e "pid") (Err UnexpectedAlertPresentException)) w1)
    | Err x => (Raise x, log (ECall (get_attribute e "pid") (Err x)) w1)
    end.
Proof.
  intros F Hn w1. cbn [await_upload]. unfold bind at 1. unfold try_except at 1.
  unfold bind at 1. unfold elements, invoke at 1. fold poll_call. rewrite F.
  apply Nat.ltb_lt in Hn. rewrite Hn. fold w1.
  unfold bind at 1. rewrite last_element_snoc.
  unfold bind at 1. unfold attribute, invoke.
  destruct (read_attribute sess (trace w1) (get_attribute e "pid")) as [pid|x];
    [reflexivity|].
  destruct x; try reflexivity.
  unfold bind. destruct (accept_alert sess _) as [[[]|x| |] w2]; reflexivity.
Qed.

(** A list that has grown has a last entry. *)
Lemma grown_list_snoc (es : list WebElement) n :
  n < length es -> exists front e, es = front ++ [e].
Proof.
  intros H. destruct (exists_last (l := es)) as (front & e & ->).
  - intros ->. simpl in H. lia.
  - eauto.
Qed.

End Rounds.

(** ** C7: dialogs and timeouts *)

Section Noise.

Context (sess : Session).

Lemma accept_alert_quiet w :
  dismissal_is_quiet sess ->
  fst (accept_alert sess w) <> Raise UnexpectedAlertPresentException.
Proof.
  intros Q. unfold accept_alert, try_except, bind, command, invoke.
  pose proof (Q (trace w) switch_to_alert I) as Q1.
  destruct (run_command sess (trace w) switch_to_alert) as [[]|x].
  - set (w1 := log _ w). pose proof (Q (trace w1) alert_accept I) as Q2.
    destruct (run_command sess (trace w1) alert_accept) as [[]|x]; [discriminate|].
    destruct x; simpl; congruence.
  - destruct x; simpl; congruence.
Qed.

Lemma accept_then_quiet {A} (k : M A) w :
  dismissal_is_quiet sess ->
  (forall w1, fst (k w1) <> Raise UnexpectedAlertPresentException) ->
  fst ((accept_alert sess ;; k) w) <> Raise UnexpectedAlertPresentException.
Proof.
  intros Q Hk. unfold bind. pose proof (accept_alert_quiet w Q) as Ha.
  destruct (accept_alert sess w) as [[[]|x| |] w1]; simpl in *;
    try discriminate; [apply Hk|].
  intros E. apply Ha. injection E as ->. reflexivity.
Qed.

Lemma await_upload_never_alerts fuel n :
  dismissal_is_quiet sess ->
  forall w, fst (await_upload sess fuel n w) <> Raise UnexpectedAlertPresentException.
Proof.
  intros Q. induction fuel as [|fuel IH]; intros w; [discriminate|].
  destruct (find_all sess (trace w) poll_call) as [es|x] eqn:F.
  - destruct (Nat.ltb n (length es)) eqn:L.
    + apply Nat.ltb_lt in L. destruct (grown_list_snoc es n L) as (front & e & ->).
      rewrite (await_upload_grown sess fuel n w front e F L). cbv zeta.
      destruct (read_attribute sess _ _) as [pid|x]; [discriminate|].
      destruct x; try (simpl; congruence).
      apply accept_then_quiet; assumption.
    + apply Nat.ltb_ge in L. rewrite (await_upload_short sess fuel n w es F L).
      apply IH.
  - destruct x;
      try (rewrite (await_upload_error sess fuel n w _ F);
           [simpl; congruence | discriminate]).
    rewrite (await_upload_alert sess fuel n w F).
    apply accept_then_quiet; assumption.
Qed.

End Noise.

Section NoiseLogs.

Context (sess : Session).





End NoiseLogs.





(** ** C8: the upload step *)

Section Upload.

Context (sess : Session).

Lemma wait_for_idle_hidden fuel pc w :
  read_string sess (trace w) (display_call pc) = Ok "none"%string ->
  wait_for_idle sess (S fuel) pc w = (Ret tt, log (display_of pc "none") w).
Proof.
  intros F. cbn [wait_for_idle]. unfold bind, text, invoke.
  fold (display_call pc). rewrite F. reflexivity.
Qed.

Lemma wait_for_idle_showing fuel pc w v :
  read_string sess (trace w) (display_call pc) = Ok v ->
  v <> "none"%string ->
  wait_for_idle sess (S fuel) pc w
  = wait_for_idle sess fuel pc (log (ESleep 3) (log (display_of pc v) w)).
Proof.
  intros F V. cbn [wait_for_idle]. unfold bind, text, invoke.
  fold (display_call pc). rewrite F. apply String.eqb_neq in V. rewrite V.
  reflexivity.
Qed.

Lemma wait_for_idle_error fuel pc w x :
  read_string sess (trace w) (display_call pc) = Err x ->
  wait_for_idle sess (S fuel) pc w
  = (Raise x, log (ECall (display_call pc) (Err x)) w).
Proof.
  intros F. cbn [wait_for_idle]. unfold bind, text, invoke.
  fold (display_call pc). rewrite F. reflexivity.
Qed.

Lemma wait_for_idle_ret fuel pc : forall w,
  fst (wait_for_idle sess fuel pc w) = Ret tt ->
  exists d,
    trace (snd (wait_for_idle sess fuel pc w)) = trace w ++ d
    /\ idle_wait pc d
    /\ exists h,
         trace (snd (wait_for_idle sess fuel pc w)) = h ++ [display_of pc "none"]
         /\ read_string sess h (display_call pc) = Ok "none"%string.
Proof.
  induction fuel as [|fuel IH]; intros w H; [discriminate|].
  destruct (read_string sess (trace w) (display_call pc)) as [v|x] eqn:F.
  - destruct (string_dec v "none") as [->|V].
    + rewrite (wait_for_idle_hidden fuel pc w F). simpl.
      exists [display_of pc "none"]. repeat split; [constructor|].
      exists (trace w). auto.
    + rewrite (wait_for_idle_showing fuel pc w v F V) in *.
      destruct (IH _ H) as (d & Ht & Hd & h & Hh & Hr).
      exists (display_of pc v :: ESleep 3 :: d). repeat split.
      * rewrite Ht. simpl. rewrite <- !app_assoc. reflexivity.
      * constructor; assumption.
      * exists h. auto.
  - rewrite (wait_for_idle_error fuel pc w x F) in H. discriminate.
Qed.

Lemma attempt_upload_showing fuel image pc w v :
  read_string sess (trace w) (display_call pc) = Ok v ->
  v <> "none"%string ->
  attempt_upload sess (S fuel) image pc w = (Ret tt, log (display_of pc v) w).
Proof.
  intros F V. cbn [attempt_upload]. unfold bind, text, invoke.
  fold (display_call pc). rewrite F. apply String.eqb_neq in V. rewrite V.
  reflexivity.
Qed.

Lemma attempt_upload_hidden fuel image pc w :
  read_string sess (trace w) (display_call pc) = Ok "none"%string ->
  attempt_upload sess (S fuel) image pc w
  = (input <- element sess (find_element_by_xpath upload_input_xpath) ;;
     command sess (send_keys input (file_path image)) ;;
     sleep 1 ;;
     pc' <- element sess progress_call ;;
     attempt_upload sess fuel image pc')
      (log (display_of pc "none") w).
Proof.
  intros F. cbn [attempt_upload]. unfold bind at 1. unfold text, invoke at 1.
  fold (display_call pc). rewrite F. reflexivity.
Qed.

Lemma attempt_upload_error fuel image pc w x :
  read_string sess (trace w) (display_call pc) = Err x ->
  attempt_upload sess (S fuel) image pc w
  = (Raise x, log (ECall (display_call pc) (Err x)) w).
Proof.
  intros F. cbn [attempt_upload]. unfold bind at 1. unfold text, invoke at 1.
  fold (display_call pc). rewrite F. reflexivity.
Qed.

Lemma invoke_ret {A} ask (show : A -> Value) c w a w1 :
  invoke sess ask show c w = (Ret a, w1) ->
  w1 = log (ECall c (Ok (show a))) w.
Proof.
  unfold invoke. destruct (ask sess (trace w) c); intros H; [|discriminate].
  injection H as <- <-. reflexivity.
Qed.

Lemma attempt_upload_ret fuel image : forall pc w,
  fst (attempt_upload sess fuel image pc w) = Ret tt ->
  exists d k,
    trace (snd (attempt_upload sess fuel image pc w)) = trace w ++ d
    /\ submissions image pc d k
    /\ (read_string sess (trace w) (display_call pc) = Ok "none"%string -> 1 <= k).
Proof.
  induction fuel as [|fuel IH]; intros pc w H; [discriminate|].
  destruct (read_string sess (trace w) (display_call pc)) as [v|x] eqn:F.
  - destruct (string_dec v "none") as [->|V].
    + rewrite (attempt_upload_hidden fuel image pc w F) in *.
      set (w1 := log _ w) in *.
      destruct ((input <- _ ;; _) w1) as [o w'] eqn:E. simpl in H. subst o.
      ret_steps E. repeat match goal with u : unit |- _ => destruct u end.
      unfold element, command in *.
      apply invoke_ret in E0, E1, E3. unfold sleep in E2. injection E2 as E2.
      destruct (IH a2 w4) as (d & k & Ht & Hd & _); [rewrite E; reflexivity|].
      rewrite E in Ht. simpl in Ht |- *.
      eexists. exists (S k). repeat split.
      * rewrite Ht. subst w4 w3 w2 w0. unfold w1. simpl.
        rewrite <- !app_assoc. simpl. reflexivity.
      * apply submissions_round. exact Hd.
      * intros _. lia.
    + rewrite (attempt_upload_showing fuel image pc w v F V). simpl.
      exists [display_of pc v], 0. repeat split.
      * constructor. exact V.
      * intros E. congruence.
  - rewrite (attempt_upload_error fuel image pc w x F) in H. discriminate.
Qed.

Lemma accept_alert_ret w :
  fst (accept_alert sess w) = Ret tt ->
  exists a, trace (snd (accept_alert sess w)) = trace w ++ a /\ dismissal a.
Proof.
  unfold accept_alert, try_except, bind, command, invoke.
  destruct (run_command sess (trace w) switch_to_alert) as [[]|x].
  - set (w1 := log _ w).
    destruct (run_command sess (trace w1) alert_accept) as [[]|x].
    + intros _. eexists. split; [|apply dismissal_accepted].
      simpl. rewrite <- app_assoc. reflexivity.
    + destruct x; try discriminate. intros _.
      eexists. split; [|apply dismissal_late].
      simpl. rewrite <- app_assoc. reflexivity.
  - destruct x; try discriminate. intros _.
    eexists. split; [|apply dismissal_gone]. reflexivity.
Qed.

Lemma accept_then_ret {A} (k : M A) w (r : A) :
  fst ((accept_alert sess ;; k) w) = Ret r ->
  exists a w1,
    accept_alert sess w = (Ret tt, w1)
    /\ trace w1 = trace w ++ a /\ dismissal a
    /\ (accept_alert sess ;; k) w = k w1.
Proof.
  unfold bind. intros H. pose proof (accept_alert_ret w) as Ha.
  destruct (accept_alert sess w) as [[[]|x| |] w1]; try discriminate.
  destruct (Ha eq_refl) as (a & Ht & Hd). exists a, w1. auto.
Qed.

Lemma await_upload_ret fuel n : forall w pid,
  fst (await_upload sess fuel n w) = Ret pid ->
  exists d,
    trace (snd (await_upload sess fuel n w)) = trace w ++ d
    /\ polling n d pid.
Proof.
  induction fuel as [|fuel IH]; intros w pid H; [discriminate|].
  destruct (find_all sess (trace w) poll_call) as [es|x] eqn:F.
  - destruct (Nat.ltb n (length es)) eqn:L.
    + apply Nat.ltb_lt in L. destruct (grown_list_snoc es n L) as (front & e & ->).
      rewrite (await_upload_grown sess fuel n w front e F L) in *. cbv zeta in *.
      set (w1 := log _ w) in *.
      destruct (read_attribute sess (trace w1) (get_attribute e "pid")) as [p|x].
      * simpl in H. injection H as ->. eexists. split.
        -- simpl. rewrite <- app_assoc. reflexivity.
        -- apply polling_found. exact L.
      * destruct x; try discriminate.
        set (w2 := log _ w1) in *.
        destruct (accept_then_ret _ w2 pid H) as (a & w3 & _ & Ta & Da & E).
        rewrite E in *. destruct (IH w3 pid H) as (d & Ht & Hd).
        eexists. split; [|apply polling_pid_alert; [exact L|exact Da|exact Hd]].
        rewrite Ht, Ta. unfold w2, w1. simpl. rewrite <- !app_assoc. reflexivity.
    + apply Nat.ltb_ge in L.
      rewrite (await_upload_short sess fuel n w es F L) in *.
      destruct (IH _ pid H) as (d & Ht & Hd).
      eexists. split; [|apply polling_sleep; [exact L|exact Hd]].
      rewrite Ht. simpl. rewrite <- !app_assoc. reflexivity.
  - destruct x;
      try (rewrite (await_upload_error sess fuel n w _ F) in H;
           [discriminate H | discriminate]).
    rewrite (await_upload_alert sess fuel n w F) in *.
    set (w1 := log _ w) in *.
    destruct (accept_then_ret _ w1 pid H) as (a & w2 & _ & Ta & Da & E).
    rewrite E in *. destruct (IH w2 pid H) as (d & Ht & Hd).
    eexists. split; [|apply polling_list_alert; [exact Da|exact Hd]].
    rewrite Ht, Ta. unfold w1. simpl. rewrite <- !app_assoc. reflexivity.
Qed.

End Upload.

Lemma file_exists_ret sess image w a w1 :
  file_exists sess image w = (Ret a, w1) ->
  a = isfile sess (trace w) (file_path image)
  /\ w1 = log (EFileExists (file_path image) a) w.
Proof. unfold file_exists. intros H. injection H as <- <-. auto. Qed.

(** What an upload that returned has done. *)
Lemma upload_image_ret sess fuel image w pid :
  isfile sess (trace w) (file_path image) = true ->
  fst (upload_image sess fuel image w) = Ret pid ->
  exists d k,
    trace (snd (upload_image sess fuel image w)) = trace w ++ d
    /\ upload_log image (state w) pid d k
    /\ (steady_indicator sess -> 1 <= k).
Proof.
  intros Hf H.
  destruct (upload_image sess fuel image w) as [o w'] eqn:E. simpl in H. subst o.
  unfold upload_image in E. ret_steps E.
  apply file_exists_ret in E0 as [-> ->]. rewrite Hf in E. ret_steps E.
  repeat match goal with u : unit |- _ => destruct u end.
  apply set_action_log in E0 as T0. unfold elements, element in *.
  change (if ("Uploading " ++ dq ++ name image ++ dq =? "")%string
          then "N/A"%string
          else ("Uploading " ++ dq ++ name image ++ dq)%string)
    with ("Uploading " ++ dq ++ name image ++ dq)%string in T0.
  apply invoke_ret in E1, E2. fold poll_call in E1. fold progress_call in E2.
  destruct (wait_for_idle_ret sess fuel a1 w2) as (d1 & T1 & I1 & h & Hh & Hr);
    [rewrite E3; reflexivity|].
  destruct (attempt_upload_ret sess fuel image a1 w3) as (d2 & k & T2 & I2 & K);
    [rewrite E4; reflexivity|].
  destruct (await_upload_ret sess fuel (length a0) w4 pid) as (d3 & T3 & I3);
    [rewrite E; reflexivity|].
  rewrite E3 in T1, Hh. rewrite E4 in T2. rewrite E in T3. cbn [snd] in *.
  eexists. exists k. split; [|split].
  - rewrite T3, T2, T1. subst w2 w1. cbn [trace log]. rewrite T0.
    cbn [trace log]. rewrite <- !app_assoc. reflexivity.
  - exists a0, a1, d1, d2, d3. repeat split; auto.
  - intros St. apply K. rewrite Hh. apply St. exact Hr.
Qed.

Lemma submissions_upload image pc d k :
  submissions image pc d k -> 1 <= k -> existsb is_upload d = true.
Proof.
  intros H. destruct H; intros Hk; [lia|]. simpl. reflexivity.
Qed.

(** C8.  On the [flicker] page the progress indicator reads hidden once and
    showing from then on, as when another upload starts between two readings.
    For a descriptor whose file exists, [upload_image] leaves its first loop
    on the reading that finds the indicator hidden, finds it showing at the
    reading that guards the submission, and so goes on to poll without
    having submitted the file: it returns the identifier 1, the pid of an
    entry it did not upload, and its log holds no [send_keys] at all. *)
Theorem upload_returns_unsubmitted :
  let image := card "fine" [2; 5; 2]%Z true in
  let w := driver_in inserting_fronts patchy_order in
  let r := upload_image flicker 3 image w in
  isfile flicker (trace w) (file_path image) = true
  /\ fst r = Ret (Some "1"%string)
  /\ trace (snd r)
     = [EFileExists "fine.png" true;
        EStatusBar inserting_fronts ("Uploading " ++ dq ++ "fine" ++ dq)%string;
        ECall poll_call (Ok (VElements []));
        ECall progress_call (Ok (VElement (Element 0)));
        display_of (Element 0) "none";
        display_of (Element 0) "block";
        ECall poll_call (Ok (VElements [Element 1]));
        ECall (get_attribute (Element 1) "pid") (Ok (VString "1"))]
  /\ filter is_upload (trace (snd r)) = [].
Proof. repeat split; vm_compute; reflexivity. Qed.

(** The upload step as the claim words it does not hold of every session: on
    the [flicker] page [upload_image] returns an identifier although it never
    submitted the file. *)
Lemma upload_as_stated_fails : ~ upload_as_stated.
Proof.
  intros H.
  destruct (H flicker 3 (card "fine" [2; 5; 2]%Z true)
              (driver_in inserting_fronts patchy_order) (Some "1"%string))
    as (d & k & Ht & (es0 & pc & d1 & d2 & d3 & -> & _ & S2 & _) & Hk);
    [reflexivity | vm_compute; reflexivity |].
  apply submissions_upload in S2; [|exact Hk].
  assert (F : existsb is_upload
                (trace (snd (upload_image flicker 3 (card "fine" [2; 5; 2]%Z true)
                               (driver_in inserting_fronts patchy_order)))) = false)
    by (vm_compute; reflexivity).
  rewrite Ht in F. rewrite !existsb_app in F. rewrite S2 in F.
  apply orb_false_iff in F as [_ F]. apply orb_false_iff in F as [_ F].
  apply orb_false_iff in F as [_ F]. discriminate F.
Qed.

Lemma uploading_app h l : forall b, uploading (h ++ l) b = uploading l (uploading h b).
Proof.
  induction h as [|e h IH]; intros b; [reflexivity|].
  destruct e as [[] r|n| | | |]; simpl; auto.
  destruct n as [|[|[|[|n]]]]; simpl; auto.
Qed.

Lemma browser_steady : steady_indicator browser.
Proof.
  intros h pc H. simpl in *. rewrite uploading_app. simpl. exact H.
Qed.

(** ** The upload step returns on a page that behaves *)

Lemma count_uploads_app h l : count_uploads (h ++ l) = count_uploads h + count_uploads l.
Proof. unfold count_uploads. rewrite filter_app, length_app. reflexivity. Qed.

Lemma browser_display h pc :
  read_string browser h (display_call pc)
  = Ok (if uploading h false then "block" else "none")%string.
Proof. reflexivity. Qed.

Lemma count_uploads_cons e h :
  count_uploads (e :: h) = (if is_upload e then 1 else 0) + count_uploads h.
Proof. unfold count_uploads. simpl. destruct (is_upload e); reflexivity. Qed.

Lemma count_uploads_nil : count_uploads [] = 0.
Proof. reflexivity. Qed.

Ltac count_uploads_tac :=
  rewrite !count_uploads_app;
  unfold display_of, display_call, progress_call, poll_call;
  rewrite !count_uploads_cons, !count_uploads_nil; simpl; lia.

Lemma wait_for_idle_returns fuel pc w :
  2 <= fuel ->
  exists w',
    wait_for_idle browser fuel pc w = (Ret tt, w')
    /\ uploading (trace w') false = false
    /\ count_uploads (trace w') = count_uploads (trace w).
Proof.
  intros Hf. destruct fuel as [|[|fuel]]; try lia.
  pose proof (browser_display (trace w) pc) as F.
  destruct (uploading (trace w) false) eqn:U.
  - rewrite (wait_for_idle_showing browser _ pc w "block" F); [|discriminate].
    set (w1 := log (ESleep 3) _).
    assert (U1 : uploading (trace w1) false = false).
    { unfold w1. simpl. rewrite !uploading_app.
      unfold display_of, display_call. reflexivity. }
    pose proof (browser_display (trace w1) pc) as F1. rewrite U1 in F1.
    rewrite (wait_for_idle_hidden browser _ pc w1 F1). eexists. split; [reflexivity|].
    split.
    + simpl. rewrite uploading_app. simpl. exact U1.
    + unfold w1. simpl. count_uploads_tac.
  - rewrite (wait_for_idle_hidden browser _ pc w F). eexists. split; [reflexivity|].
    split.
    + simpl. rewrite uploading_app. simpl. exact U.
    + simpl. count_uploads_tac.
Qed.

Lemma attempt_upload_returns fuel image pc w :
  2 <= fuel ->
  uploading (trace w) false = false ->
  exists w',
    attempt_upload browser fuel image pc w = (Ret tt, w')
    /\ count_uploads (trace w') = S (count_uploads (trace w)).
Proof.
  intros Hf U. destruct fuel as [|[|fuel]]; try lia.
  pose proof (browser_display (trace w) pc) as F. rewrite U in F.
  rewrite (attempt_upload_hidden browser _ image pc w F).
  unfold bind, element, command, invoke, sleep. cbn [browser run_command find_one].
  set (w5 := log (ECall progress_call _) _).
  assert (U5 : uploading (trace w5) false = true).
  { unfold w5. simpl. rewrite !uploading_app.
    unfold display_of, display_call, progress_call. reflexivity. }
  pose proof (browser_display (trace w5) (Element 0)) as F5. rewrite U5 in F5.
  rewrite (attempt_upload_showing browser _ image (Element 0) w5 "block" F5);
    [|discriminate].
  eexists. split; [reflexivity|].
  unfold w5. simpl. count_uploads_tac.
Qed.

Lemma await_upload_returns fuel n w :
  1 <= fuel ->
  n < count_uploads (trace w) ->
  exists pid w', await_upload browser fuel n w = (Ret (Some pid), w').
Proof.
  intros Hf Hn. destruct fuel as [|fuel]; try lia.
  destruct (count_uploads (trace w)) as [|c] eqn:C; [lia|].
  assert (F : find_all browser (trace w) poll_call
              = Ok (map Element (seq 1 c) ++ [Element (S c)])).
  { simpl. rewrite C, seq_S, map_app. reflexivity. }
  assert (L : n < length (map Element (seq 1 c) ++ [Element (S c)])).
  { rewrite length_app, length_map, length_seq. simpl. lia. }
  rewrite (await_upload_grown browser fuel n w _ _ F L). cbv zeta. simpl.
  eauto.
Qed.

(** On the [browser] page the upload step returns an identifier for every
    descriptor whose file exists, from every state of the log, as soon as
    every loop may go round twice. *)
Lemma upload_image_returns fuel image w :
  2 <= fuel ->
  file_path image <> "missing.png"%string ->
  exists pid, fst (upload_image browser fuel image w) = Ret (Some pid).
Proof.
  intros Hf Hp. unfold upload_image.
  unfold bind at 1. unfold file_exists. cbn [browser isfile].
  apply String.eqb_neq in Hp. rewrite Hp. cbn [negb].
  unfold bind at 1. unfold set_action, bind at 1, get_state, set_state.
  set (w1 := log (EStatusBar _ _) _).
  unfold bind at 1. unfold elements, invoke at 1. cbn [browser find_all].
  set (w2 := log (ECall (find_elements_by_xpath uploads_xpath) _) w1).
  unfold bind at 1. unfold element, invoke at 1. cbn [browser find_one].
  set (w3 := log (ECall (find_element_by_id "divFileProgressContainer") _) w2).
  assert (C3 : count_uploads (trace w3) = count_uploads (trace w1)).
  { unfold w3, w2. simpl. count_uploads_tac. }
  destruct (wait_for_idle_returns fuel (Element 0) w3 Hf) as (w4 & E4 & U4 & C4).
  unfold bind at 1. rewrite E4.
  destruct (attempt_upload_returns fuel image (Element 0) w4 Hf U4) as (w5 & E5 & C5).
  unfold bind at 1. rewrite E5.
  destruct (await_upload_returns fuel
              (length (map Element (seq 1 (count_uploads (trace w1))))) w5)
    as (pid & w6 & E6); [lia | |].
  - rewrite length_map, length_seq, C5, C4, C3. lia.
  - exists pid. rewrite E6. reflexivity.
Qed.

(** What [upload_image] does on every session.  For a descriptor whose file
    exists, when it returns, it has counted the uploads listed, then read the
    indicator until it was hidden (sleeping three seconds after each reading
    that found it showing), then submitted the file once for each further
    reading that found the indicator hidden (none when the first of them
    already found it showing; at least one on a session whose indicator is
    steady), then read the list of uploads until it was longer than the count
    taken before, and returns the pid attribute of the last entry of that
    list.  And it does return: on the [browser] page, for every descriptor
    whose file exists and from every state of the log, as soon as every loop
    may go round twice. *)
Theorem upload_in_three_phases :
  (forall sess fuel image w pid,
      isfile sess (trace w) (file_path image) = true ->
      fst (upload_image sess fuel image w) = Ret pid ->
      exists d k,
        trace (snd (upload_image sess fuel image w)) = trace w ++ d
        /\ upload_log image (state w) pid d k
        /\ (steady_indicator sess -> 1 <= k))
  /\ (forall fuel image w,
        2 <= fuel ->
        isfile browser (trace w) (file_path image) = true ->
        exists pid, fst (upload_image browser fuel image w) = Ret (Some pid)).
Proof.
  split.
  - apply upload_image_ret.
  - intros fuel image w Hf Hp. apply upload_image_returns; [exact Hf|].
    simpl in Hp. intros E. rewrite E in Hp. discriminate.
Qed.

Lemma upload_in_three_phases_witness :
  let image := card "fine" [2; 5; 2]%Z true in
  let w := log (ECall (send_keys (Element 0) "lost.png") (Ok VNone))
             (driver_in inserting_fronts patchy_order) in
  isfile browser (trace w) (file_path image) = true
  /\ fst (upload_image browser 5 image w) = Ret (Some "2"%string)
  /\ exists d k,
       trace (snd (upload_image browser 5 image w)) = trace w ++ d
       /\ upload_log image (state w) (Some "2"%string) d k
       /\ 1 <= k.
Proof.
  intros image w.
  assert (F : isfile browser (trace w) (file_path image) = true) by reflexivity.
  assert (R : fst (upload_image browser 5 image w) = Ret (Some "2"%string))
    by (vm_compute; reflexivity).
  split; [exact F|]. split; [exact R|].
  destruct (proj1 upload_in_three_phases browser 5 image w (Some "2"%string) F R)
    as (d & k & Ht & L & K).
  exists d, k. split; [exact Ht|]. split; [exact L|].
  apply K. exact browser_steady.
Defined.

(** ** More of the driver: what stays as it is *)

Lemma quiet_refl w : quiet w w.
Proof. repeat split. exists []. rewrite app_nil_r. auto. Qed.

Lemma quiet_trans w1 w2 w3 : quiet w1 w2 -> quiet w2 w3 -> quiet w1 w3.
Proof.
  intros (Ho1 & Hu1 & d1 & Ht1 & Hm1) (Ho2 & Hu2 & d2 & Ht2 & Hm2).
  repeat split; try congruence. exists (d1 ++ d2). split.
  - rewrite Ht2, Ht1, app_assoc. reflexivity.
  - rewrite filter_app, Hm1, Hm2. reflexivity.
Qed.

Lemma quietly_bind {A B} (m : M A) (k : A -> M B) :
  quietly m -> (forall a, quietly (k a)) -> quietly (bind m k).
Proof.
  intros Hm Hk w. specialize (Hm w). unfold bind.
  destruct (m w) as [[a|e| |] w1]; simpl in *; auto.
  eapply quiet_trans; [exact Hm | apply Hk].
Qed.

Lemma quietly_try {A} (m : M A) h :
  quietly m -> (forall e k, h e = Some k -> quietly k) -> quietly (try_except m h).
Proof.
  intros Hm Hh w. specialize (Hm w). unfold try_except.
  destruct (m w) as [[a|e| |] w1]; simpl in *; auto.
  destruct (h e) as [k|] eqn:He; [|exact Hm].
  eapply quiet_trans; [exact Hm | apply (Hh e k He)].
Qed.

Lemma keeps_quietly C {A} (m : M A) : keeps C m -> quietly m.
Proof.
  intros K w. destruct (K w) as (_ & Ho & Hu & d & Ht & Hd).
  repeat split; auto. exists d. split; [exact Ht|].
  eapply helper_leaves_no_mark; exact Hd.
Qed.

Lemma quietly_assert_state st : quietly (assert_state st).
Proof.
  intros w. unfold assert_state.
  destruct (States_eq_dec (state w) st); apply quiet_refl.
Qed.

Lemma quietly_set_state st act : quietly (set_state st act).
Proof.
  intros w. repeat split. eexists. split; reflexivity.
Qed.

(** Splits a goal about a method that pops nothing along its steps. *)
Ltac quietly_tac :=
  repeat match goal with
    | |- quietly (bind _ _) => apply quietly_bind; [|intros]
    | |- quietly (try_except _ _) => apply quietly_try; [|keeps_handler]
    | |- quietly (assert_state _) => apply quietly_assert_state
    | |- quietly (set_state _ _) => apply quietly_set_state
    | |- quietly (if ?b then _ else _) => destruct b
    | |- quietly _ =>
        apply (keeps_quietly any_call);
        solve [keeps_tac | eapply keeps_any; eauto with keeps]
    end.

Section Quiet.

Context (sess : Session).

Lemma quietly_define_order : quietly (define_order sess).
Proof. unfold define_order, element, command. quietly_tac. Qed.

Lemma quietly_page_to_fronts : quietly (page_to_fronts sess).
Proof. unfold page_to_fronts, different_images, command. quietly_tac. Qed.

Lemma quietly_page_to_backs fuel : quietly (page_to_backs sess fuel).
Proof.
  unfold page_to_backs, different_images, same_images, element, command.
  quietly_tac.
Qed.

End Quiet.

Lemma with_queue_same f o : with_queue f (queue (collection f o)) o = o.
Proof. destruct o as [d [c1 q1] [c2 q2]], f; reflexivity. Qed.

Lemma with_queue_twice f q1 q2 o :
  with_queue f q2 (with_queue f q1 o) = with_queue f q2 o.
Proof. destruct f; reflexivity. Qed.

Lemma queue_with_queue f q o : queue (collection f (with_queue f q o)) = q.
Proof. destruct f; reflexivity. Qed.

Lemma served_refl w : served w w.
Proof. split; [reflexivity|]. intros f. split; [reflexivity|]. exists 0. reflexivity. Qed.

Lemma served_trans w1 w2 w3 : served w1 w2 -> served w2 w3 -> served w1 w3.
Proof.
  intros [Hd1 H1] [Hd2 H2]. split; [congruence|]. intros f.
  destruct (H1 f) as (Hc1 & k1 & Hq1). destruct (H2 f) as (Hc2 & k2 & Hq2).
  split; [congruence|]. exists (k2 + k1). rewrite Hq2, Hq1. apply skipn_skipn.
Qed.

Lemma served_same_order w w' : order w' = order w -> served w w'.
Proof.
  intros H. split; [rewrite H; reflexivity|]. intros f. rewrite H.
  split; [reflexivity|]. exists 0. reflexivity.
Qed.

Lemma served_pop f image rest w w' :
  queue (collection f (order w)) = image :: rest ->
  order w' = with_queue f rest (order w) ->
  served w w'.
Proof.
  intros Hq Ho. unfold served. rewrite Ho.
  destruct (order w) as [dt [c1 q1] [c2 q2]].
  destruct f; simpl in *; subst; (split; [reflexivity|]);
    intros g; destruct g; simpl; (split; [reflexivity|]);
    try (exists 0; reflexivity); exists 1; reflexivity.
Qed.

Lemma quiet_served w w' : quiet w w' -> served w w'.
Proof. intros (Ho & _). apply served_same_order. exact Ho. Qed.

(** One round of the sequencer, however it ends: on an empty queue it blocks
    and nothing has happened; otherwise the descriptor is popped, and the
    progress update is made exactly when the round returns. *)
Lemma sequencer_step_any sess fuel f w :
  match queue (collection f (order w)) with
  | [] => sequencer_step sess fuel f w = (Blocked, w)
  | image :: rest =>
      let w' := snd (sequencer_step sess fuel f w) in
      order w' = with_queue f rest (order w)
      /\ state w' = state w
      /\ exists work,
           Forall (calls_in modeless_call (state w)) work
           /\ (downloaded image = false -> work = [])
           /\ if returned (fst (sequencer_step sess fuel f w))
              then fst (sequencer_step sess fuel f w) = Ret tt
                   /\ trace w' = trace w ++ EQueueGet f image :: work ++ [EUploadBar]
                   /\ upload_bar w' = S (upload_bar w)
              else downloaded image = true
                   /\ trace w' = trace w ++ EQueueGet f image :: work
                   /\ upload_bar w' = upload_bar w
  end.
Proof.
  destruct (queue (collection f (order w))) as [|image rest] eqn:Hq.
  - unfold sequencer_step, bind, queue_get. rewrite Hq. reflexivity.
  - unfold sequencer_step, bind, queue_get. rewrite Hq.
    set (w1 := log (EQueueGet f image) _).
    destruct (downloaded image) eqn:Hd.
    + destruct (keeps_upload_and_insert_image sess fuel image w1)
        as (Hs & Ho & Hu & d & Ht & Hf).
      destruct (upload_and_insert_image sess fuel image w1) as [[[]|e| |] w2];
        simpl in *; rewrite ?Hs, ?Ho, ?Hu, ?Ht; repeat split;
        exists d; (split; [exact Hf|]); (split; [discriminate|]);
        repeat split; rewrite <- ?app_assoc; reflexivity.
    + simpl. repeat split. exists []. split; [constructor|]. split; [reflexivity|].
      repeat split. rewrite <- app_assoc. reflexivity.
Qed.

Lemma serves_sequencer_step sess fuel f : serves (sequencer_step sess fuel f).
Proof.
  intros w. pose proof (sequencer_step_any sess fuel f w) as H.
  destruct (queue (collection f (order w))) as [|image rest] eqn:Hq.
  - rewrite H. apply served_refl.
  - destruct H as (Ho & _). eapply served_pop; eassumption.
Qed.

Lemma serves_bind {A B} (m : M A) (k : A -> M B) :
  serves m -> (forall a, serves (k a)) -> serves (bind m k).
Proof.
  intros Hm Hk w. specialize (Hm w). unfold bind.
  destruct (m w) as [[a|e| |] w1]; simpl in *; auto.
  eapply served_trans; [exact Hm | apply Hk].
Qed.

Lemma quietly_serves {A} (m : M A) : quietly m -> serves m.
Proof. intros H w. apply quiet_served, H. Qed.

Lemma serves_sequencer_loop sess fuel f n : serves (sequencer_loop sess fuel f n).
Proof.
  induction n as [|n IH]; simpl.
  - intros w. apply served_refl.
  - apply serves_bind; [apply serves_sequencer_step | intros; exact IH].
Qed.

Lemma serves_upload_and_insert_images sess fuel f :
  serves (upload_and_insert_images sess fuel f).
Proof.
  unfold upload_and_insert_images. apply serves_bind.
  - intros w. apply served_refl.
  - intros. apply serves_sequencer_loop.
Qed.

Lemma serves_run sess fuel op : serves (run sess fuel op).
Proof.
  destruct op; simpl.
  - apply quietly_serves, quietly_define_order.
  - unfold insert_fronts.
    apply serves_bind; [apply quietly_serves, quietly_page_to_fronts|intros].
    apply serves_bind; [apply quietly_serves, quietly_assert_state|intros].
    apply serves_bind; [apply serves_upload_and_insert_images|intros].
    apply quietly_serves, quietly_set_state.
  - unfold insert_backs.
    apply serves_bind; [apply quietly_serves, quietly_page_to_backs|intros].
    apply serves_bind; [apply quietly_serves, quietly_assert_state|intros].
    apply serves_bind; [apply serves_upload_and_insert_images|intros].
    apply quietly_serves, quietly_set_state.
Qed.

(** X3.  Whatever the session does and however the run ends, a public
    operation, [execute] and a whole run leave the order's details and the
    descriptor lists of both faces as they were, and take descriptors only
    from the front of the queues. *)
Theorem order_is_only_consumed sess fuel :
  (forall op w, served w (snd (run sess fuel op w)))
  /\ (forall w, served w (snd (execute sess fuel w)))
  /\ (forall w, served w (snd (whole_run sess fuel w))).
Proof.
  assert (E : serves (execute sess fuel)).
  { unfold execute. apply serves_bind; [apply (serves_run sess fuel op_define_order)|].
    intros. apply serves_bind; [apply (serves_run sess fuel op_insert_fronts)|].
    intros. apply (serves_run sess fuel op_insert_backs). }
  split; [intros; apply serves_run|]. split; [intros; apply E|].
  intros w. unfold whole_run.
  apply (serves_bind (post_init sess) (fun _ => execute sess fuel));
    [|intros; exact E].
  apply quietly_serves. unfold post_init, command. quietly_tac.
Qed.

(** ** More of the driver: the sequencer, however it ends *)

Lemma sequencer_loop_any sess fuel f n : forall w,
  let w' := snd (sequencer_loop sess fuel f n w) in
  exists d rest,
    trace w' = trace w ++ d
    /\ filter is_mark d ++ rest
       = flat_map (round_marks f) (firstn n (queue (collection f (order w))))
    /\ upload_bar w' = upload_bar w + length (filter is_progress d).
Proof.
  induction n as [|n IH]; intros w; simpl.
  - exists [], []. rewrite app_nil_r. simpl. auto.
  - unfold bind. pose proof (sequencer_step_any sess fuel f w) as H.
    destruct (queue (collection f (order w))) as [|image rest0] eqn:Hq.
    + rewrite H. simpl. exists [], []. rewrite app_nil_r. simpl. auto.
    + destruct H as (Ho & Hs & work & Hf & _ & H).
      pose proof (helper_leaves_no_mark _ _ _ Hf) as Hm.
      assert (Hp : filter is_progress work = [])
        by (rewrite <- filter_mark_progress, Hm; reflexivity).
      destruct (sequencer_step sess fuel f w) as [o w1]. simpl in *.
      assert (Hq1 : queue (collection f (order w1)) = rest0)
        by (rewrite Ho; apply queue_with_queue).
      destruct o as [[]|e| |]; simpl in *.
      * destruct H as (_ & Ht & Hu).
        destruct (IH w1) as (d2 & rest2 & Ht2 & Hm2 & Hu2). rewrite Hq1 in Hm2.
        exists ((EQueueGet f image :: work ++ [EUploadBar]) ++ d2), rest2.
        repeat split.
        -- rewrite Ht2, Ht, <- app_assoc. reflexivity.
        -- rewrite filter_app. simpl. rewrite filter_app, Hm. simpl.
           rewrite <- Hm2. reflexivity.
        -- rewrite Hu2, Hu, filter_app. simpl. rewrite filter_app, Hp. simpl. lia.
      * destruct H as (_ & Ht & Hu).
        exists (EQueueGet f image :: work),
               (EUploadBar :: flat_map (round_marks f) (firstn n rest0)).
        repeat split; [exact Ht | simpl; rewrite Hm; reflexivity
                       | simpl; rewrite Hp, Hu; simpl; lia].
      * destruct H as (_ & Ht & Hu).
        exists (EQueueGet f image :: work),
               (EUploadBar :: flat_map (round_marks f) (firstn n rest0)).
        repeat split; [exact Ht | simpl; rewrite Hm; reflexivity
                       | simpl; rewrite Hp, Hu; simpl; lia].
      * destruct H as (_ & Ht & Hu).
        exists (EQueueGet f image :: work),
               (EUploadBar :: flat_map (round_marks f) (firstn n rest0)).
        repeat split; [exact Ht | simpl; rewrite Hm; reflexivity
                       | simpl; rewrite Hp, Hu; simpl; lia].
Qed.

(** X4.  However [upload_and_insert_images] ends (it returns, an upload or an
    insert raises, a loop runs on, the queue stays empty), the pops and
    progress updates in its log are an initial part of: pop, update, pop,
    update, ... for the first [len(cards)] deliveries of the queue.  So it
    never pops more descriptors than the face has, never updates the counter
    without a pop before, and the counter has advanced by the number of
    updates logged. *)
Theorem sequencer_never_overruns sess fuel f w :
  let w' := snd (upload_and_insert_images sess fuel f w) in
  exists d rest,
    trace w' = trace w ++ d
    /\ filter is_mark d ++ rest
       = flat_map (round_marks f)
           (firstn (length (cards (collection f (order w))))
              (queue (collection f (order w))))
    /\ upload_bar w' = upload_bar w + length (filter is_progress d).
Proof.
  unfold upload_and_insert_images, bind, get_order. apply sequencer_loop_any.
Qed.

(** ** More of the driver: an insert that stops *)

Lemma insert_slots_any sess fuel pid l : forall w,
  exists d k,
    trace (snd (insert_slots sess fuel pid l w)) = trace w ++ d
    /\ k <= length l
    /\ placements d
       = map (fun slot => "javascript:" ++ place_js slot pid)%string (firstn k l).
Proof.
  induction l as [|slot l IH]; intros w.
  - exists [], 0. simpl. rewrite app_nil_r. auto.
  - cbn [insert_slots]. unfold bind.
    destruct (execute_javascript_log sess (place_js slot pid) w) as (d1 & T1 & _ & P1).
    change (is_placement_js ("javascript:" ++ place_js slot pid)) with true in P1.
    destruct (execute_javascript sess (place_js slot pid) w) as [o1 w1].
    simpl in T1.
    assert (Stop1 : exists d k,
               trace w1 = trace w ++ d /\ k <= length (slot :: l)
               /\ placements d
                  = map (fun slot => "javascript:" ++ place_js slot pid)%string
                      (firstn k (slot :: l))).
    { exists d1, 1. repeat split; [exact T1 | simpl; lia | exact P1]. }
    destruct o1 as [[]|e| |]; try exact Stop1.
    destruct (wait_log sess fuel w1) as (d2 & T2 & _ & P2).
    destruct (wait sess fuel w1) as [o2 w2]. simpl in T2.
    assert (Stop2 : exists d k,
               trace w2 = trace w ++ d /\ k <= length (slot :: l)
               /\ placements d
                  = map (fun slot => "javascript:" ++ place_js slot pid)%string
                      (firstn k (slot :: l))).
    { exists (d1 ++ d2), 1. repeat split.
      - rewrite T2, T1, app_assoc. reflexivity.
      - simpl; lia.
      - rewrite placements_app, P1, P2. reflexivity. }
    destruct o2 as [[]|e| |]; try exact Stop2.
    destruct (IH w2) as (d3 & k & T3 & Hk & P3).
    exists (d1 ++ d2 ++ d3), (S k). repeat split.
    + rewrite T3, T2, T1, <- !app_assoc. reflexivity.
    + simpl. lia.
    + rewrite !placements_app, P1, P2, P3. reflexivity.
Qed.

(** X10.  However [insert_image] ends, the placement commands it has issued
    are those of an initial part of the descriptor's slot list, once each and
    in the order of the list: when a placement or a wait fails, no command
    for a later slot has been issued. *)
Theorem placements_follow_the_slots sess fuel pid image w :
  exists d k,
    trace (snd (insert_image sess fuel pid image w)) = trace w ++ d
    /\ k <= length (slots image)
    /\ placements d
       = map (fun slot => "javascript:" ++ place_js slot pid)%string
           (firstn k (slots image)).
Proof.
  unfold insert_image. destruct (truthy pid).
  - unfold bind at 1.
    pose proof (set_action_log ("Inserting " ++ dq ++ name image ++ dq)%string w) as T0.
    destruct (set_action _ w) as [o0 w0] eqn:E0.
    specialize (T0 o0 w0 eq_refl).
    assert (R0 : o0 = Ret tt)
      by (unfold set_action, bind, get_state, set_state in E0; congruence).
    subst o0. unfold bind at 1.
    destruct (execute_javascript_log sess "l = PageLayout.prototype" w0)
      as (d1 & T1 & _ & P1).
    change (is_placement_js ("javascript:" ++ "l = PageLayout.prototype"))
      with false in P1.
    destruct (execute_javascript sess "l = PageLayout.prototype" w0) as [o1 w1].
    simpl in T1.
    assert (Stop1 : exists d k,
               trace w1 = trace w ++ d /\ k <= length (slots image)
               /\ placements d
                  = map (fun slot => "javascript:" ++ place_js slot pid)%string
                      (firstn k (slots image))).
    { eexists. exists 0. split; [rewrite T1, T0, <- app_assoc; reflexivity|].
      split; [lia|]. rewrite placements_app, P1. reflexivity. }
    destruct o1 as [[]|e| |]; try exact Stop1.
    unfold bind at 1.
    destruct (insert_slots_any sess fuel pid (slots image) w1) as (d2 & k & T2 & Hk & P2).
    destruct (insert_slots sess fuel pid (slots image) w1) as [o2 w2]. simpl in T2.
    assert (Stop2 : exists d k,
               trace w2 = trace w ++ d /\ k <= length (slots image)
               /\ placements d
                  = map (fun slot => "javascript:" ++ place_js slot pid)%string
                      (firstn k (slots image))).
    { eexists. exists k. split; [rewrite T2, T1, T0, <- !app_assoc; reflexivity|].
      split; [exact Hk|]. rewrite !placements_app, P1, P2. reflexivity. }
    destruct o2 as [[]|e| |]; try exact Stop2.
    pose proof (set_action_log "" w2) as T3.
    destruct (set_action "" w2) as [o3 w3]. specialize (T3 o3 w3 eq_refl).
    simpl. eexists. exists k.
    split; [rewrite T3, T2, T1, T0, <- !app_assoc; reflexivity|].
    split; [exact Hk|]. rewrite !placements_app, P1, P2. simpl.
    rewrite app_nil_r. reflexivity.
  - exists [], 0. simpl. rewrite app_nil_r. repeat split. lia.
Qed.

(** ** More of the driver: waiting *)

Lemma wait_loop_returns sess e k : forall fuel w,
  clears_after sess e w k ->
  k < fuel ->
  wait_loop sess fuel e w = (Ret tt, snd (wait_loop sess fuel e w))
  /\ trace (snd (wait_loop sess fuel e w)) = trace w ++ waited e k.
Proof.
  induction k as [|k IH]; intros fuel w H Hf; destruct fuel as [|fuel]; try lia.
  - simpl in H. rewrite (wait_loop_clear sess fuel e w H). split; reflexivity.
  - destruct H as [H1 H2]. rewrite (wait_loop_timeout sess fuel e w H1).
    fold (until_call e).
    destruct (IH fuel _ H2) as [R T]; [lia|]. split; [exact R|].
    rewrite T. unfold waited. simpl. rewrite <- app_assoc. reflexivity.
Qed.

(** X5.  [wait] returns at once, whatever the fuel, when the loading
    indicator is not on the page; and when the indicator is found and goes
    after [k] timed-out waits, [wait] returns as soon as its loop may go round
    more than [k] times, having made exactly those [k] waits and the one that
    succeeded. *)
Theorem wait_outlasts_timeouts sess w :
  (find_one sess (trace w) wait_begin = Err NoSuchElementException ->
   forall fuel,
     wait sess fuel w
     = (Ret tt, log (ECall wait_begin (Err NoSuchElementException)) w))
  /\ (forall e k fuel,
        find_one sess (trace w) wait_begin = Ok e ->
        clears_after sess e (log (ECall wait_begin (Ok (VElement e))) w) k ->
        k < fuel ->
        fst (wait sess fuel w) = Ret tt
        /\ trace (snd (wait sess fuel w))
           = trace w ++ ECall wait_begin (Ok (VElement e)) :: waited e k).
Proof.
  split.
  - intros F fuel. unfold wait, alert_handler, try_except, bind, element, invoke.
    fold wait_begin. rewrite F. reflexivity.
  - intros e k fuel F H Hf.
    unfold wait, alert_handler, try_except, bind, element, invoke.
    fold wait_begin. rewrite F.
    destruct (wait_loop_returns sess e k fuel _ H Hf) as [R T].
    rewrite R. simpl. split; [reflexivity|].
    rewrite T. simpl. rewrite <- app_assoc. reflexivity.
Qed.

Lemma wait_outlasts_timeouts_witness :
  let w := driver_in inserting_fronts patchy_order in
  fst (wait noisy 2 w) = Ret tt
  /\ trace (snd (wait noisy 2 w))
     = trace w ++ ECall wait_begin (Ok (VElement (Element 0))) :: waited (Element 0) 1.
Proof.
  intros w.
  apply (proj2 (wait_outlasts_timeouts noisy w) (Element 0) 1 2).
  - reflexivity.
  - simpl. split; reflexivity.
  - lia.
Defined.

(** ** More of the driver: an operation that fails *)

Lemma keeps_steady C {A} (m : M A) : keeps C m -> steady m.
Proof. intros K w. apply K. Qed.

Lemma steady_assert_state st : steady (assert_state st).
Proof.
  intros w. unfold assert_state. destruct (States_eq_dec (state w) st); reflexivity.
Qed.

Lemma halts_bind {A B} (m : M A) (k : A -> M B) :
  steady m -> (forall a, halts_in_place (k a)) -> halts_in_place (bind m k).
Proof.
  intros Hm Hk w. specialize (Hm w). unfold bind.
  destruct (m w) as [[a|e| |] w1]; simpl in *; intros H; auto.
  rewrite (Hk a w1 H). exact Hm.
Qed.

Lemma halts_set_state st act : halts_in_place (set_state st act).
Proof. intros w H. discriminate H. Qed.

(** Walks down a method that writes the workflow state only at its end. *)
Ltac halts_tac :=
  repeat match goal with
    | |- halts_in_place (bind (assert_state _) _) =>
        apply halts_bind; [apply steady_assert_state | intros]
    | |- halts_in_place (bind _ _) =>
        apply halts_bind;
        [ apply (keeps_steady any_call);
          solve [keeps_tac | eapply keeps_any; eauto with keeps]
        | intros ]
    | |- halts_in_place (set_state _ _) => apply halts_set_state
    end.

Section Halts.

Context (sess : Session).

Lemma halts_define_order : halts_in_place (define_order sess).
Proof. unfold define_order, element, command. halts_tac. Qed.

Lemma halts_page_to_fronts : halts_in_place (page_to_fronts sess).
Proof. unfold page_to_fronts, different_images, command. halts_tac. Qed.

Lemma halts_page_to_backs fuel : halts_in_place (page_to_backs sess fuel).
Proof.
  unfold page_to_backs, different_images, same_images, element, command.
  halts_tac.
Qed.

Lemma page_to_fronts_entry w a w' :
  page_to_fronts sess w = (Ret a, w') -> state w = paging_to_fronts.
Proof.
  unfold page_to_fronts. intros H. ret_steps H.
  apply assert_state_ret in E. apply E.
Qed.

Lemma page_to_backs_entry fuel w a w' :
  page_to_backs sess fuel w = (Ret a, w') -> state w = paging_to_backs.
Proof.
  unfold page_to_backs. intros H. ret_steps H.
  apply assert_state_ret in E. apply E.
Qed.

(** After the page transition, an insert that fails to return stops in the
    inserting state. *)
Lemma insert_rest_halts fuel f st w :
  state w = inserting f ->
  returned (fst ((assert_state (inserting f) ;;
                  upload_and_insert_images sess fuel f ;;
                  set_state st "") w)) = false ->
  state (snd ((assert_state (inserting f) ;;
               upload_and_insert_images sess fuel f ;;
               set_state st "") w)) = inserting f.
Proof.
  intros Hs. unfold bind, assert_state.
  destruct (States_eq_dec (state w) (inserting f)) as [_|N]; [|contradiction].
  destruct (upload_and_insert_images_still sess fuel f w) as (Hst & _).
  destruct (upload_and_insert_images sess fuel f w) as [[[]|x| |] w1];
    simpl in *; intros H; try discriminate; congruence.
Qed.

End Halts.

Lemma failed_bind {A B} (m : M A) (k : A -> M B) w :
  returned (fst (bind m k w)) = false ->
  (returned (fst (m w)) = false /\ snd (bind m k w) = snd (m w))
  \/ exists a w1,
       m w = (Ret a, w1)
       /\ returned (fst (k a w1)) = false
       /\ snd (bind m k w) = snd (k a w1).
Proof.
  unfold bind. destruct (m w) as [[a|e| |] w1]; simpl; intros H; auto.
  right. exists a, w1. auto.
Qed.

(** X7.  A public operation that does not return (it raised, ran on or
    blocked) has left the workflow state either as it found it or, for an
    insert operation that had passed its page transition, in the inserting
    state of its face; a failing operation never moves the driver on to its
    exit state. *)
Theorem failed_operation_state sess fuel op w :
  returned (fst (run sess fuel op w)) = false ->
  state (snd (run sess fuel op w)) = state w
  \/ exists f, op = face_op f
               /\ state w = entry_state op
               /\ state (snd (run sess fuel op w)) = inserting f.
Proof.
  destruct op; simpl.
  - intros H. left. apply halts_define_order. exact H.
  - unfold insert_fronts. intros H.
    apply failed_bind in H as [[H S]|(a & w1 & E & H & S)]; rewrite S.
    + left. apply halts_page_to_fronts. exact H.
    + right. exists Front. split; [reflexivity|].
      split; [eapply page_to_fronts_entry; exact E|].
      destruct a. apply page_to_fronts_exit in E.
      apply (insert_rest_halts sess fuel Front paging_to_backs w1 E H).
  - unfold insert_backs. intros H.
    apply failed_bind in H as [[H S]|(a & w1 & E & H & S)]; rewrite S.
    + left. apply halts_page_to_backs. exact H.
    + right. exists Back. split; [reflexivity|].
      split; [eapply page_to_backs_entry; exact E|].
      destruct a. apply page_to_backs_exit in E.
      apply (insert_rest_halts sess fuel Back paging_to_review w1 E H).
Qed.

Lemma failed_operation_state_witness :
  let w := driver_in paging_to_fronts small_order in
  returned (fst (run broken 5 op_insert_fronts w)) = false
  /\ state (snd (run broken 5 op_insert_fronts w)) = inserting_fronts
  /\ (state (snd (run broken 5 op_insert_fronts w)) = state w
      \/ exists f, op_insert_fronts = face_op f
                   /\ state w = entry_state op_insert_fronts
                   /\ state (snd (run broken 5 op_insert_fronts w)) = inserting f).
Proof.
  intros w.
  assert (R : returned (fst (run broken 5 op_insert_fronts w)) = false)
    by (vm_compute; reflexivity).
  split; [exact R|]. split; [vm_compute; reflexivity|].
  exact (failed_operation_state broken 5 op_insert_fronts w R).
Defined.

(** ** More of the driver: a run that returns *)

Lemma quietly_run_ret {A} (m : M A) w a w' :
  quietly m -> m w = (Ret a, w') -> quiet w w'.
Proof. intros Q E. specialize (Q w). rewrite E in Q. exact Q. Qed.

Lemma sequencer_loop_order sess fuel f n : forall w,
  fst (sequencer_loop sess fuel f n w) = Ret tt ->
  order (snd (sequencer_loop sess fuel f n w))
  = with_queue f (skipn n (queue (collection f (order w)))) (order w).
Proof.
  induction n as [|n IH]; intros w H; simpl.
  - symmetry. apply with_queue_same.
  - simpl in H. unfold bind in *.
    destruct (sequencer_step sess fuel f w) as [o w1] eqn:E.
    destruct o as [[]|e| |]; try discriminate.
    destruct (sequencer_step_ret sess fuel f w) as
      (image & rest & d1 & Hq & _ & _ & _ & Ho & _); [rewrite E; reflexivity|].
    rewrite E in Ho. simpl in Ho.
    rewrite (IH w1 H), Ho, queue_with_queue, with_queue_twice, Hq. reflexivity.
Qed.

(** What an insert operation that returned has done. *)
Lemma insert_face_ret sess fuel f w w' :
  run sess fuel (face_op f) w = (Ret tt, w') ->
  let n := length (cards (collection f (order w))) in
  let q := queue (collection f (order w)) in
  state w = entry_state (face_op f)
  /\ state w' = exit_state (face_op f)
  /\ upload_bar w' = upload_bar w + n
  /\ order w' = with_queue f (skipn n q) (order w)
  /\ exists d,
       trace w' = trace w ++ d
       /\ filter is_mark d = flat_map (round_marks f) (firstn n q).
Proof.
  intros H. pose proof (run_exit sess fuel (face_op f) w w' H) as [Hx _].
  assert (P : exists w0,
             quiet w w0 /\ state w = entry_state (face_op f)
             /\ fst (sequencer_loop sess fuel f
                       (length (cards (collection f (order w0)))) w0) = Ret tt
             /\ exists w1,
                  w1 = snd (sequencer_loop sess fuel f
                              (length (cards (collection f (order w0)))) w0)
                  /\ quiet w1 w').
  { destruct f; simpl in H; unfold insert_fronts, insert_backs in H; ret_steps H;
      repeat match goal with u : unit |- _ => destruct u end;
      apply assert_state_ret in E0 as [-> _];
      unfold upload_and_insert_images, bind, get_order in E1;
      exists w0.
    - split; [eapply quietly_run_ret; [apply quietly_page_to_fronts | exact E]|].
      split; [eapply page_to_fronts_entry; exact E|].
      rewrite E1. split; [reflexivity|]. exists w2. split; [reflexivity|].
      eapply quietly_run_ret; [apply quietly_set_state | exact H].
    - split; [eapply quietly_run_ret; [apply quietly_page_to_backs | exact E]|].
      split; [eapply page_to_backs_entry; exact E|].
      rewrite E1. split; [reflexivity|]. exists w2. split; [reflexivity|].
      eapply quietly_run_ret; [apply quietly_set_state | exact H]. }
  destruct P as (w0 & (Ho0 & Hu0 & d0 & Ht0 & Hm0) & He & R & w1 & -> &
                 (Ho1 & Hu1 & d1 & Ht1 & Hm1)).
  pose proof (sequencer_loop_order sess fuel f _ w0 R) as Ho.
  destruct (sequencer_loop_ret sess fuel f _ w0 R) as (_ & _ & Hu & _ & d & Ht & Hm & _).
  rewrite Ho in Ho1. rewrite Hu in Hu1. rewrite Ht in Ht1.
  rewrite Ho0 in Ho1, Hu1, Hm. rewrite Hu0 in Hu1. rewrite Ht0 in Ht1.
  cbv zeta. split; [exact He|]. split; [exact Hx|]. split; [exact Hu1|].
  split; [exact Ho1|].
  exists (d0 ++ d ++ d1). split.
  - rewrite Ht1, <- !app_assoc. reflexivity.
  - rewrite !filter_app, Hm0, Hm1, Hm, app_nil_r. reflexivity.
Qed.

Lemma define_order_ret sess w w' :
  define_order sess w = (Ret tt, w') ->
  state w = defining_order /\ state w' = paging_to_fronts /\ quiet w w'.
Proof.
  intros H. split; [|split].
  - unfold define_order in H. ret_steps H. apply assert_state_ret in E. apply E.
  - apply (run_exit sess 0 op_define_order w w' H).
  - eapply quietly_run_ret; [apply quietly_define_order | exact H].
Qed.

(** What [execute] has done when it returns. *)
Lemma execute_ret sess fuel w :
  fst (execute sess fuel w) = Ret tt ->
  let w' := snd (execute sess fuel w) in
  let nf := length (cards (fronts (order w))) in
  let nb := length (cards (backs (order w))) in
  state w = defining_order
  /\ state w' = paging_to_review
  /\ upload_bar w' = upload_bar w + num_images (order w)
  /\ order w'
     = with_queue Back (skipn nb (queue (backs (order w))))
         (with_queue Front (skipn nf (queue (fronts (order w)))) (order w))
  /\ exists d,
       trace w' = trace w ++ d
       /\ filter is_mark d
          = flat_map (round_marks Front) (firstn nf (queue (fronts (order w))))
            ++ flat_map (round_marks Back) (firstn nb (queue (backs (order w)))).
Proof.
  intros H. destruct (execute sess fuel w) as [o w'] eqn:E. simpl in H. subst o.
  unfold execute in E. ret_steps E.
  repeat match goal with u : unit |- _ => destruct u end.
  apply define_order_ret in E0 as (Hs0 & _ & Ho0 & Hu0 & d0 & Ht0 & Hm0).
  apply (insert_face_ret sess fuel Front) in E1
    as (_ & _ & Hu1 & Ho1 & d1 & Ht1 & Hm1).
  apply (insert_face_ret sess fuel Back) in E
    as (_ & Hs2 & Hu2 & Ho2 & d2 & Ht2 & Hm2).
  simpl in *. rewrite Ho1, Ho0 in *. simpl in *. repeat split; auto.
  - rewrite Hu2, Hu1, Hu0. unfold num_images. lia.
  - exists (d0 ++ d1 ++ d2). split.
    + rewrite Ht2, Ht1, Ht0, <- !app_assoc. reflexivity.
    + rewrite !filter_app, Hm0, Hm1, Hm2. reflexivity.
Qed.

(** X1.  [execute] returns only from the state DefiningOrder, and then the
    workflow has reached PagingToReview, the upload counter has advanced by
    the total that [configure_bars] gave it (the number of fronts plus the
    number of backs), and each queue has lost exactly as many deliveries as
    its face has descriptors. *)
Theorem execute_completes sess fuel w :
  fst (execute sess fuel w) = Ret tt ->
  let w' := snd (execute sess fuel w) in
  state w = defining_order
  /\ state w' = paging_to_review
  /\ upload_bar w' = upload_bar w + num_images (order w)
  /\ order w'
     = with_queue Back
         (skipn (length (cards (backs (order w)))) (queue (backs (order w))))
         (with_queue Front
            (skipn (length (cards (fronts (order w)))) (queue (fronts (order w))))
            (order w)).
Proof.
  intros H. destruct (execute_ret sess fuel w H) as (H1 & H2 & H3 & H4 & _).
  auto.
Qed.

Lemma execute_completes_witness :
  let w := driver_in defining_order small_order in
  let w' := snd (execute browser 3 w) in
  fst (execute browser 3 w) = Ret tt
  /\ state w' = paging_to_review
  /\ upload_bar w' = 0 + num_images small_order.
Proof.
  intros w w'.
  assert (R : fst (execute browser 3 w) = Ret tt) by (vm_compute; reflexivity).
  split; [exact R|].
  destruct (execute_completes browser 3 w R) as (_ & H2 & H3 & _).
  split; [exact H2 | exact H3].
Defined.

(** X2.  In the log of an [execute] that returns, the pops and progress
    updates are: pop, update for each of the first deliveries of the front
    queue, in queue order, and only then pop, update for each of the first
    deliveries of the back queue; no back is popped before every front has
    been counted. *)
Theorem fronts_before_backs sess fuel w :
  fst (execute sess fuel w) = Ret tt ->
  exists d,
    trace (snd (execute sess fuel w)) = trace w ++ d
    /\ filter is_mark d
       = flat_map (round_marks Front)
           (firstn (length (cards (fronts (order w)))) (queue (fronts (order w))))
         ++ flat_map (round_marks Back)
              (firstn (length (cards (backs (order w)))) (queue (backs (order w)))).
Proof.
  intros H. destruct (execute_ret sess fuel w H) as (_ & _ & _ & _ & H5).
  exact H5.
Qed.

Lemma fronts_before_backs_witness :
  let w := driver_in defining_order small_order in
  fst (execute browser 3 w) = Ret tt
  /\ exists d,
       trace (snd (execute browser 3 w)) = trace w ++ d
       /\ filter is_mark d
          = round_marks Front (card "front" [0; 1; 2]%Z true)
            ++ round_marks Back (card "back_a" [0; 2]%Z true)
            ++ round_marks Back (card "back_b" [1]%Z true).
Proof.
  intros w.
  assert (R : fst (execute browser 3 w) = Ret tt) by (vm_compute; reflexivity).
  split; [exact R|].
  exact (fronts_before_backs browser 3 w R).
Defined.

(** ** More of the driver: the footprint of an upload *)

Section UploadFootprint.

Context (sess : Session) (image : CardImage).

Lemma own_accept_alert : keeps (own_upload_call image) (accept_alert sess).
Proof.
  eapply keeps_weaken; [|apply keeps_accept_alert].
  intros []; simpl; auto; contradiction.
Qed.

Lemma own_wait_for_idle fuel pc :
  keeps (own_upload_call image) (wait_for_idle sess fuel pc).
Proof.
  induction fuel as [|fuel IH]; simpl; [auto with keeps|].
  unfold text. keeps_tac.
Qed.

Lemma own_attempt_upload fuel : forall pc,
  keeps (own_upload_call image) (attempt_upload sess fuel image pc).
Proof.
  induction fuel as [|fuel IH]; intros pc; simpl; [auto with keeps|].
  unfold text, element, command. keeps_tac.
Qed.

Lemma own_await_upload fuel n :
  keeps (own_upload_call image) (await_upload sess fuel n).
Proof.
  induction fuel as [|fuel IH]; simpl; [auto with keeps|].
  unfold elements, attribute. keeps_tac.
  - apply keeps_last_element.
  - apply own_accept_alert.
Qed.

End UploadFootprint.

(** X11.  However it ends (with an identifier, with [None], with an
    exception, or not at all), [upload_image] leaves the workflow state, the
    order with its queues and the upload counter as they are, and logs only
    file checks, sleeps, refreshes of the status bar in the current state,
    look-ups, reads, dismissals of a dialog and submissions of the
    descriptor's own file: it runs no script, clicks and selects nothing,
    pops no queue and submits no other file. *)
Theorem upload_touches_only_its_file sess fuel image :
  keeps (own_upload_call image) (upload_image sess fuel image).
Proof.
  unfold upload_image, elements, element. keeps_tac.
  - apply own_wait_for_idle.
  - apply own_attempt_upload.
  - apply own_await_upload.
Qed.

(** ** More of the driver: the log of the first operation *)

Lemma log_trace e w : trace (log e w) = trace w ++ [e].
Proof. reflexivity. Qed.

(** X8.  A [define_order] that returns has logged exactly this: the stock
    dropdown looked up and the order's stock selected by its visible text,
    the quantity dropdown looked up and the order's bracket selected by its
    decimal value, then, only for an order with foil, the effect dropdown
    looked up and EF_055 selected, and the status bar refreshed in
    PagingToFronts with no action. *)
Theorem define_order_selects sess w :
  fst (define_order sess w) = Ret tt ->
  exists e1 e2 e3,
    trace (snd (define_order sess w))
    = trace w ++ define_order_log (order w) e1 e2 e3.
Proof.
  intros H. destruct (define_order sess w) as [o w'] eqn:E. simpl in H. subst o.
  unfold define_order in E. ret_steps E.
  apply assert_state_ret in E0 as [-> _].
  apply get_order_ret in E1 as [-> ->].
  unfold element, command in *.
  apply invoke_ret in E2, E3, E4, E5. subst.
  apply set_state_last in E as [_ Ht].
  unfold define_order_log.
  destruct (foil (details (order w))).
  - ret_steps E6. apply invoke_ret in E, E6. subst.
    exists a1, a3, a0. simpl in *. rewrite Ht, <- !app_assoc. reflexivity.
  - injection E6 as _ <-.
    exists a1, a3, a1. simpl in *. rewrite Ht, <- !app_assoc. reflexivity.
Qed.

Lemma define_order_selects_witness :
  let w := driver_in defining_order foil_order in
  fst (define_order browser w) = Ret tt
  /\ exists e1 e2 e3,
       trace (snd (define_order browser w))
       = trace w ++ define_order_log (order w) e1 e2 e3.
Proof.
  intros w.
  assert (R : fst (define_order browser w) = Ret tt) by (vm_compute; reflexivity).
  split; [exact R|].
  exact (define_order_selects browser w R).
Defined.

(** ** More of the driver: the page transitions *)

Lemma frame_is_no_step st d : Forall (calls_in frame_call st) d -> steps d = [].
Proof.
  induction 1 as [|e d He _ IH]; [reflexivity|].
  destruct e as [[] r| | | | |]; simpl in *; auto; contradiction.
Qed.

Lemma close_is_no_step st d : Forall (calls_in close_call st) d -> steps d = [].
Proof.
  induction 1 as [|e d He _ IH]; [reflexivity|].
  destruct e as [[] r| | | | |]; simpl in *; auto; try contradiction.
  subst id. exact IH.
Qed.

Section Paging.

Context (sess : Session).

Lemma frame_switch_to_frame frame : keeps frame_call (switch_to_frame sess frame).
Proof.
  unfold switch_to_frame, command. apply keeps_alert_handler.
  - keeps_tac.
  - intros []; simpl; auto.
Qed.

Lemma switch_to_frame_log frame w :
  exists d,
    trace (snd (switch_to_frame sess frame w)) = trace w ++ d /\ steps d = [].
Proof.
  destruct (frame_switch_to_frame frame w) as (_ & _ & _ & d & Ht & Hd).
  exists d. split; [exact Ht | exact (frame_is_no_step _ _ Hd)].
Qed.

Lemma close_popup_log w :
  exists d,
    trace (snd (try_except
                  (e <- element sess (find_element_by_id "closeBtn") ;;
                   command sess (click e))
                  (fun e => match e with
                            | NoSuchElementException => Some (ret tt)
                            | _ => None
                            end) w))
    = trace w ++ d
    /\ steps d = [].
Proof.
  match goal with
  | |- exists d, trace (snd (?m w)) = _ /\ _ =>
      assert (K : keeps close_call m) by (unfold element, command; keeps_tac);
      destruct (K w) as (_ & _ & _ & d & Ht & Hd)
  end.
  exists d. split; [exact Ht | exact (close_is_no_step _ _ Hd)].
Qed.

Lemma next_step_log fuel w a w' :
  next_step sess fuel w = (Ret a, w') ->
  order w' = order w
  /\ exists d,
       trace w' = trace w ++ d
       /\ steps d = [wait_begin; execute_script next_step_js].
Proof.
  unfold next_step. intros H. ret_steps H.
  destruct (wait_log sess fuel w) as (d1 & T1 & S1 & _).
  destruct (keeps_wait sess fuel w) as (_ & O1 & _).
  rewrite E in T1, O1. cbn [snd] in T1, O1.
  destruct (execute_javascript_log sess "oDesign.setNextStep();" w0)
    as (d2 & T2 & S2 & _).
  destruct (keeps_any_execute_javascript sess "oDesign.setNextStep();" w0)
    as (_ & O2 & _).
  rewrite H in T2, O2. cbn [snd] in T2, O2.
  split; [rewrite O2; exact O1|].
  exists (d1 ++ d2). split.
  - rewrite T2, T1, <- app_assoc. reflexivity.
  - rewrite steps_app, S1, S2. reflexivity.
Qed.

End Paging.

(** X9.  A [page_to_fronts] that returns has run exactly three scripts, in
    this order: the personalisation call, the assignment of the order's
    quantity to the card-number field, and the different-images mode command;
    it has begun no wait. *)
Theorem page_to_fronts_scripts sess w :
  fst (page_to_fronts sess w) = Ret tt ->
  exists d,
    trace (snd (page_to_fronts sess w)) = trace w ++ d
    /\ steps d = [execute_script personalize_js;
                  execute_script (quantity_js (order w));
                  execute_script different_js].
Proof.
  intros H. destruct (page_to_fronts sess w) as [o w'] eqn:E. simpl in H. subst o.
  unfold page_to_fronts, different_images in E. ret_steps E.
  apply assert_state_ret in E0 as [-> _].
  match type of E1 with execute_javascript _ ?js _ = _ =>
    destruct (execute_javascript_log sess js w) as (d1 & T1 & S1 & _);
    destruct (keeps_any_execute_javascript sess js w) as (_ & O1 & _)
  end.
  rewrite E1 in T1, O1. cbn [snd] in T1, O1.
  destruct (switch_to_frame_log sess "sysifm_loginFrame" w1) as (d2 & T2 & S2).
  destruct (frame_switch_to_frame sess "sysifm_loginFrame" w1) as (_ & O2 & _).
  rewrite E2 in T2, O2. cbn [snd] in T2, O2.
  apply get_order_ret in E3 as [-> ->].
  match type of E4 with execute_javascript _ ?js _ = _ =>
    destruct (execute_javascript_log sess js w2) as (d3 & T3 & S3 & _)
  end.
  rewrite E4 in T3. cbn [snd] in T3.
  match type of E5 with execute_javascript _ ?js _ = _ =>
    destruct (execute_javascript_log sess js w4) as (d4 & T4 & S4 & _)
  end.
  rewrite E5 in T4. cbn [snd] in T4.
  apply invoke_ret in E6. subst w6.
  apply set_state_last in E as [_ T].
  rewrite log_trace in T.
  exists (d1 ++ d2 ++ d3 ++ d4
          ++ [ECall switch_to_default_content (Ok VNone)]
          ++ [EStatusBar inserting_fronts "N/A"]).
  split.
  - cbn [snd]. rewrite T, T4, T3, T2, T1, <- !app_assoc. reflexivity.
  - rewrite !steps_app, S1, S2, S3, S4, O2, O1. reflexivity.
Qed.

(** X12.  A [page_to_backs] that returns has gone through these steps, in
    this order: a wait begun and the next-step script, a wait begun, (the
    attempt to close the pop-up, which is no step), again a wait begun and
    the next-step script, and last the mode command of the back face; so the
    page is advanced exactly twice, each time after a wait, and the mode is
    chosen only on the page reached. *)
Theorem page_to_backs_steps sess fuel w :
  fst (page_to_backs sess fuel w) = Ret tt ->
  exists d,
    trace (snd (page_to_backs sess fuel w)) = trace w ++ d
    /\ steps d = [wait_begin; execute_script next_step_js;
                  wait_begin;
                  wait_begin; execute_script next_step_js;
                  execute_script (mode_of Back (order w))].
Proof.
  intros H. destruct (page_to_backs sess fuel w) as [o w'] eqn:E. simpl in H. subst o.
  unfold page_to_backs in E. ret_steps E.
  apply assert_state_ret in E0 as [-> _].
  apply next_step_log in E1 as (O1 & d1 & T1 & S1).
  destruct (wait_log sess fuel w1) as (d2 & T2 & S2 & _).
  destruct (keeps_wait sess fuel w1) as (_ & O2 & _).
  rewrite E2 in T2, O2. cbn [snd] in T2, O2.
  destruct (close_popup_log sess w2) as (d3 & T3 & S3).
  match type of E3 with ?m w2 = _ =>
    assert (K : keeps close_call m) by (unfold element, command; keeps_tac);
    destruct (K w2) as (_ & O3 & _); clear K
  end.
  rewrite E3 in T3, O3. cbn [snd] in T3, O3.
  apply next_step_log in E4 as (O4 & d4 & T4 & S4).
  destruct (switch_to_frame_log sess "sysifm_loginFrame" w4) as (d5 & T5 & S5).
  destruct (frame_switch_to_frame sess "sysifm_loginFrame" w4) as (_ & O5 & _).
  rewrite E5 in T5, O5. cbn [snd] in T5, O5.
  apply get_order_ret in E6 as [-> ->].
  assert (M6 : exists d6, trace w7 = trace w5 ++ d6
                          /\ steps d6 = [execute_script (mode_of Back (order w5))]).
  { unfold mode_of. destruct (Nat.eqb _ 1); unfold same_images, different_images in E7;
      match type of E7 with execute_javascript _ ?js _ = _ =>
        destruct (execute_javascript_log sess js w5) as (d6 & T6 & S6 & _)
      end; rewrite E7 in T6; cbn [snd] in T6; exists d6; split; auto. }
  destruct M6 as (d6 & T6 & S6).
  apply invoke_ret in E8. subst w8.
  apply set_state_last in E as [_ T].
  rewrite log_trace in T.
  exists (d1 ++ d2 ++ d3 ++ d4 ++ d5 ++ d6
          ++ [ECall switch_to_default_content (Ok VNone)]
          ++ [EStatusBar inserting_backs "N/A"]).
  split.
  - cbn [snd]. rewrite T, T6, T5, T4, T3, T2, T1, <- !app_assoc. reflexivity.
  - rewrite !steps_app, S1, S2, S3, S4, S5, S6, O5, O4, O3, O2, O1. reflexivity.
Qed.

Lemma page_to_fronts_scripts_witness :
  let w := driver_in paging_to_fronts small_order in
  fst (page_to_fronts browser w) = Ret tt
  /\ exists d,
       trace (snd (page_to_fronts browser w)) = trace w ++ d
       /\ steps d = [execute_script personalize_js;
                     execute_script (quantity_js (order w));
                     execute_script different_js].
Proof.
  intros w.
  assert (R : fst (page_to_fronts browser w) = Ret tt) by (vm_compute; reflexivity).
  split; [exact R|].
  exact (page_to_fronts_scripts browser w R).
Defined.

Lemma page_to_backs_steps_witness :
  let w := driver_in paging_to_backs small_order in
  fst (page_to_backs noisy 3 w) = Ret tt
  /\ exists d,
       trace (snd (page_to_backs noisy 3 w)) = trace w ++ d
       /\ steps d = [wait_begin; execute_script next_step_js;
                     wait_begin;
                     wait_begin; execute_script next_step_js;
                     execute_script (mode_of Back (order w))].
Proof.
  intros w.
  assert (R : fst (page_to_backs noisy 3 w) = Ret tt) by (vm_compute; reflexivity).
  split; [exact R|].
  exact (page_to_backs_steps noisy 3 w R).
Defined.

(** ** More of the driver: the assertions of a run *)

Section Unasserting.

Context (sess : Session) (Hsess : selenium_session sess).

Lemma un_ret {A} (a : A) : unasserting (ret a).
Proof. intros w e H. discriminate. Qed.

Lemma un_out_of_fuel {A} : unasserting (@out_of_fuel A).
Proof. intros w e H. discriminate. Qed.

Lemma un_raise {A} e : foreign e = true -> unasserting (@raise A e).
Proof. intros He w e' H. injection H as <-. exact He. Qed.

Lemma un_bind {A B} (m : M A) (k : A -> M B) :
  unasserting m -> (forall a, unasserting (k a)) -> unasserting (bind m k).
Proof.
  intros Hm Hk w e. unfold bind. specialize (Hm w).
  destruct (m w) as [[a|x| |] w1]; simpl in *; intros H; try discriminate.
  - exact (Hk a w1 e H).
  - injection H as <-. apply Hm. reflexivity.
Qed.

Lemma un_try {A} (m : M A) h :
  unasserting m -> (forall e k, h e = Some k -> unasserting k) ->
  unasserting (try_except m h).
Proof.
  intros Hm Hh w e. unfold try_except. specialize (Hm w).
  destruct (m w) as [[a|x| |] w1]; simpl in *; intros H; try discriminate.
  destruct (h x) as [k|] eqn:Hx.
  - exact (Hh x k Hx w1 e H).
  - apply Hm. exact H.
Qed.

Lemma un_invoke {A} ask (show : A -> Value) c :
  answers_foreign ask sess -> unasserting (invoke sess ask show c).
Proof.
  intros Ha w e. unfold invoke.
  destruct (ask sess (trace w) c) as [a|x] eqn:E; simpl; intros H; [discriminate|].
  injection H as <-. exact (Ha _ _ _ E).
Qed.

Lemma un_pure {A} (m : M A) :
  (forall w, returned (fst (m w)) = true) -> unasserting m.
Proof. intros Hm w e H. specialize (Hm w). rewrite H in Hm. discriminate. Qed.

Lemma un_sleep n : unasserting (sleep n).
Proof. apply un_pure. reflexivity. Qed.

Lemma un_file_exists image : unasserting (file_exists sess image).
Proof. apply un_pure. reflexivity. Qed.

Lemma un_set_state st act : unasserting (set_state st act).
Proof. apply un_pure. reflexivity. Qed.

Lemma un_set_action act : unasserting (set_action act).
Proof. apply un_pure. reflexivity. Qed.

Lemma un_get_order : unasserting get_order.
Proof. apply un_pure. reflexivity. Qed.

Lemma un_upload_bar_update : unasserting upload_bar_update.
Proof. apply un_pure. reflexivity. Qed.

Lemma un_queue_get f : unasserting (queue_get f).
Proof.
  intros w e. unfold queue_get.
  destruct (queue (collection f (order w))); discriminate.
Qed.

Lemma un_assert_state st w e :
  state w = st -> fst (assert_state st w) = Raise e -> foreign e = true.
Proof.
  unfold assert_state. intros Hs.
  destruct (States_eq_dec (state w) st); [discriminate | contradiction].
Qed.

Ltac un_handler :=
  let e := fresh "e" in
  let k := fresh "k" in
  let H := fresh "H" in
  intros e k H; destruct e; simpl in H; try discriminate;
  injection H as <-.

Ltac un_tac :=
  repeat match goal with
    | |- unasserting (bind _ _) => apply un_bind; [|intros]
    | |- unasserting (try_except _ _) => apply un_try; [|un_handler]
    | |- unasserting (invoke _ _ _ _) => apply un_invoke; apply Hsess
    | |- unasserting (ret _) => apply un_ret
    | |- unasserting out_of_fuel => apply un_out_of_fuel
    | |- unasserting (sleep _) => apply un_sleep
    | |- unasserting (file_exists _ _) => apply un_file_exists
    | |- unasserting (set_state _ _) => apply un_set_state
    | |- unasserting (set_action _) => apply un_set_action
    | |- unasserting get_order => apply un_get_order
    | |- unasserting upload_bar_update => apply un_upload_bar_update
    | |- unasserting (queue_get _) => apply un_queue_get
    | |- unasserting (if ?b then _ else _) => destruct b
    | |- unasserting (match ?x with _ => _ end) => destruct x
    end.

Lemma un_accept_alert : unasserting (accept_alert sess).
Proof. unfold accept_alert, command. un_tac. Qed.

Lemma un_alert_handler func :
  unasserting func -> unasserting (alert_handler sess func).
Proof. intros Hf. unfold alert_handler. un_tac; [exact Hf | apply un_accept_alert]. Qed.

Lemma un_switch_to_frame frame : unasserting (switch_to_frame sess frame).
Proof. unfold switch_to_frame, command. apply un_alert_handler. un_tac. Qed.

Lemma un_wait_loop fuel e : unasserting (wait_loop sess fuel e).
Proof.
  induction fuel as [|fuel IH]; simpl; [apply un_out_of_fuel|].
  unfold command. un_tac. exact IH.
Qed.

Lemma un_wait fuel : unasserting (wait sess fuel).
Proof.
  unfold wait, element. apply un_alert_handler. un_tac. apply un_wait_loop.
Qed.

Lemma un_execute_javascript js : unasserting (execute_javascript sess js).
Proof. unfold execute_javascript, command. apply un_alert_handler. un_tac. Qed.

Lemma un_next_step fuel : unasserting (next_step sess fuel).
Proof.
  unfold next_step. un_tac; [apply un_wait | apply un_execute_javascript].
Qed.

Lemma un_wait_for_idle fuel pc : unasserting (wait_for_idle sess fuel pc).
Proof.
  induction fuel as [|fuel IH]; simpl; [apply un_out_of_fuel|].
  unfold text. un_tac. exact IH.
Qed.

Lemma un_attempt_upload fuel image : forall pc,
  unasserting (attempt_upload sess fuel image pc).
Proof.
  induction fuel as [|fuel IH]; intros pc; simpl; [apply un_out_of_fuel|].
  unfold text, element, command. un_tac. apply IH.
Qed.

Lemma un_await_upload fuel n : unasserting (await_upload sess fuel n).
Proof.
  induction fuel as [|fuel IH]; simpl; [apply un_out_of_fuel|].
  unfold elements, attribute, last_element. un_tac;
    try exact IH; try apply un_accept_alert; try (apply un_raise; reflexivity).
Qed.

Lemma un_upload_image fuel image : unasserting (upload_image sess fuel image).
Proof.
  unfold upload_image, elements, element. un_tac.
  - apply un_wait_for_idle.
  - apply un_attempt_upload.
  - apply un_await_upload.
Qed.

Lemma un_insert_slots fuel pid l : unasserting (insert_slots sess fuel pid l).
Proof.
  induction l as [|slot l IH]; simpl; [apply un_ret|].
  un_tac; [apply un_execute_javascript | apply un_wait | exact IH].
Qed.

Lemma un_insert_image fuel pid image : unasserting (insert_image sess fuel pid image).
Proof.
  unfold insert_image. un_tac.
  - apply un_execute_javascript.
  - apply un_insert_slots.
Qed.

Lemma un_sequencer_step fuel f : unasserting (sequencer_step sess fuel f).
Proof.
  unfold sequencer_step, upload_and_insert_image. un_tac.
  - apply un_upload_image.
  - apply un_insert_image.
Qed.

Lemma un_upload_and_insert_images fuel f :
  unasserting (upload_and_insert_images sess fuel f).
Proof.
  unfold upload_and_insert_images. un_tac.
  induction (length (cards (collection f a))) as [|n IH]; simpl; [apply un_ret|].
  un_tac; [apply un_sequencer_step | exact IH].
Qed.

(** From the state it asserts, a computation that begins with the assertion
    goes on as if the assertion were not there. *)
Lemma un_after_assert {A} st (k : unit -> M A) w e :
  state w = st -> unasserting (k tt) ->
  fst (bind (assert_state st) k w) = Raise e -> foreign e = true.
Proof.
  intros Hs Hk. unfold bind, assert_state.
  destruct (States_eq_dec (state w) st); [apply Hk | contradiction].
Qed.

Lemma un_then {A B} (m : M A) (k : A -> M B) w e :
  (forall x, fst (m w) = Raise x -> foreign x = true) ->
  (forall a w1 x, m w = (Ret a, w1) -> fst (k a w1) = Raise x -> foreign x = true) ->
  fst (bind m k w) = Raise e -> foreign e = true.
Proof.
  intros Hm Hk. unfold bind.
  destruct (m w) as [[a|x| |] w1]; simpl in *; intros H; try discriminate.
  - exact (Hk a w1 e eq_refl H).
  - injection H as <-. apply Hm. reflexivity.
Qed.

Lemma un_define_order w e :
  state w = defining_order ->
  fst (define_order sess w) = Raise e -> foreign e = true.
Proof.
  intros Hs. unfold define_order. apply un_after_assert; [exact Hs|].
  unfold element, command. un_tac.
Qed.

Lemma un_page_to_fronts w e :
  state w = paging_to_fronts ->
  fst (page_to_fronts sess w) = Raise e -> foreign e = true.
Proof.
  intros Hs. unfold page_to_fronts. apply un_after_assert; [exact Hs|].
  unfold different_images, command. un_tac;
    first [apply un_execute_javascript | apply un_switch_to_frame].
Qed.

Lemma un_page_to_backs fuel w e :
  state w = paging_to_backs ->
  fst (page_to_backs sess fuel w) = Raise e -> foreign e = true.
Proof.
  intros Hs. unfold page_to_backs. apply un_after_assert; [exact Hs|].
  unfold same_images, different_images, element, command. un_tac;
    first [apply un_execute_javascript | apply un_switch_to_frame
          | apply un_next_step | apply un_wait].
Qed.

Lemma un_run fuel op w e :
  state w = entry_state op ->
  fst (run sess fuel op w) = Raise e -> foreign e = true.
Proof.
  destruct op; simpl; intros Hs.
  - apply un_define_order. exact Hs.
  - unfold insert_fronts. apply un_then.
    + intros x. apply un_page_to_fronts. exact Hs.
    + intros [] w1 x E. apply page_to_fronts_exit in E.
      apply un_after_assert; [exact E|].
      un_tac. apply un_upload_and_insert_images.
  - unfold insert_backs. apply un_then.
    + intros x. apply un_page_to_backs. exact Hs.
    + intros [] w1 x E. apply page_to_backs_exit in E.
      apply un_after_assert; [exact E|].
      un_tac. apply un_upload_and_insert_images.
Qed.

Lemma un_execute fuel w e :
  state w = defining_order ->
  fst (execute sess fuel w) = Raise e -> foreign e = true.
Proof.
  intros Hs. unfold execute. apply un_then.
  - intros x. apply (un_run fuel op_define_order). exact Hs.
  - intros [] w1 x E. apply (run_exit sess fuel op_define_order) in E as [E _].
    apply un_then.
    + intros y. apply (un_run fuel op_insert_fronts). exact E.
    + intros [] w2 y E2. apply (run_exit sess fuel op_insert_fronts) in E2 as [E2 _].
      apply (un_run fuel op_insert_backs). exact E2.
Qed.

Lemma un_whole_run fuel : unasserting (whole_run sess fuel).
Proof.
  intros w e. unfold whole_run. apply un_then.
  - intros x. apply (un_bind (command sess (driver_get starting_url))
                       (fun _ => set_state defining_order "")).
    + unfold command. apply un_invoke. apply Hsess.
    + intros. apply un_set_state.
  - intros [] w1 x E. apply un_execute.
    unfold post_init in E. ret_steps E. apply set_state_last in E. apply E.
Qed.

End Unasserting.

(** X13.  With a session that never answers with the driver's own exception,
    a public operation entered in the state it expects raises no
    [InvalidStateException], neither from its first assertion nor from the
    one that follows the page transition; and an [execute] entered in
    DefiningOrder, or a whole run from the construction of the driver on,
    raises none in any of its operations: each operation leaves the driver
    in the state the next one asserts. *)
Theorem assertions_pass_in_sequence sess fuel :
  selenium_session sess ->
  (forall op w x y,
     state w = entry_state op ->
     fst (run sess fuel op w) <> Raise (InvalidStateException x y))
  /\ (forall w x y,
        state w = defining_order ->
        fst (execute sess fuel w) <> Raise (InvalidStateException x y))
  /\ (forall w x y,
        fst (whole_run sess fuel w) <> Raise (InvalidStateException x y)).
Proof.
  intros Hsess. split; [|split].
  - intros op w x y Hs H. apply (un_run sess Hsess) in H; [discriminate | exact Hs].
  - intros w x y Hs H. apply (un_execute sess Hsess) in H; [discriminate | exact Hs].
  - intros w x y H. apply (un_whole_run sess Hsess) in H. discriminate.
Qed.

Lemma noisy_is_selenium : selenium_session noisy.
Proof.
  repeat split; intros h c e; simpl.
  - destruct c; try discriminate.
    destruct (Nat.even _); [|discriminate]. intros H. injection H as <-. reflexivity.
  - discriminate.
  - destruct (Nat.eqb _ 1); [|discriminate]. intros H. injection H as <-. reflexivity.
  - discriminate.
  - destruct c as [| | | | | | | | | | |[k] a| | | |]; discriminate.
Qed.

Lemma assertions_pass_in_sequence_witness :
  selenium_session noisy
  /\ forall w x y,
       fst (whole_run noisy 3 w) <> Raise (InvalidStateException x y).
Proof.
  split; [exact noisy_is_selenium|].
  exact (proj2 (proj2 (assertions_pass_in_sequence noisy 3 noisy_is_selenium))).
Defined.

(** ** More of the driver: from the upload to the slots *)

Lemma scriptless_is_no_placement st d :
  Forall (calls_in scriptless_call st) d -> placements d = [].
Proof.
  induction 1 as [|e d He _ IH]; [reflexivity|].
  destruct e as [[] r| | | | |]; simpl in *; auto; contradiction.
Qed.

Lemma insert_image_placements sess fuel pid image w :
  fst (insert_image sess fuel pid image w) = Ret tt ->
  exists d,
    trace (snd (insert_image sess fuel pid image w)) = trace w ++ d
    /\ placements d
       = if truthy pid
         then map (fun slot => "javascript:" ++ place_js slot pid)%string (slots image)
         else [].
Proof.
  intros H. destruct (insert_image sess fuel pid image w) as [o w'] eqn:E.
  simpl in H. subst o. unfold insert_image in E.
  destruct (truthy pid).
  - ret_steps E. repeat match goal with u : unit |- _ => destruct u end.
    apply set_action_log in E0 as T0. apply set_action_log in E as T3.
    destruct (execute_javascript_log sess "l = PageLayout.prototype" w0)
      as (d1 & T1 & _ & P1).
    rewrite E1 in T1. cbn [snd] in T1.
    destruct (insert_slots_ret sess fuel pid (slots image) w1) as (d2 & T2 & P2 & _);
      [rewrite E2; reflexivity|].
    rewrite E2 in T2. cbn [snd] in T2.
    eexists. split.
    + cbn [snd]. rewrite T3, T2, T1, T0, <- !app_assoc. reflexivity.
    + rewrite !placements_app, P1, P2. simpl. rewrite app_nil_r. reflexivity.
  - injection E as <-. exists []. rewrite app_nil_r. auto.
Qed.

(** X14.  When [upload_and_insert_image] returns for a descriptor whose file
    exists, its log is an upload log that ends with the reading of an
    identifier, followed by the log of the insertion; the upload part holds
    no placement command, and the placement commands of the insertion carry
    that very identifier, one per slot in the order of the slot list, or are
    none at all when the identifier read is [None] or the empty string. *)
Theorem uploaded_pid_is_placed sess fuel image w :
  isfile sess (trace w) (file_path image) = true ->
  fst (upload_and_insert_image sess fuel image w) = Ret tt ->
  exists pid d1 d2 k,
    trace (snd (upload_and_insert_image sess fuel image w)) = trace w ++ d1 ++ d2
    /\ upload_log image (state w) pid d1 k
    /\ placements d1 = []
    /\ placements d2
       = if truthy pid
         then map (fun slot => "javascript:" ++ place_js slot pid)%string (slots image)
         else [].
Proof.
  intros Hf H.
  destruct (upload_and_insert_image sess fuel image w) as [o w'] eqn:E.
  simpl in H. subst o. unfold upload_and_insert_image in E. ret_steps E.
  rename a into pid.
  destruct (upload_image_ret sess fuel image w pid Hf) as (d1 & k & T1 & U1 & _);
    [rewrite E0; reflexivity|].
  destruct (keeps_upload_image sess fuel image w) as (_ & _ & _ & d1' & T1' & K1).
  rewrite E0 in T1, T1'. cbn [snd] in T1, T1'.
  assert (d1' = d1) by (rewrite T1 in T1'; apply app_inv_head in T1'; auto).
  subst d1'. apply scriptless_is_no_placement in K1.
  destruct (insert_image_placements sess fuel pid image w0) as (d2 & T2 & P2);
    [rewrite E; reflexivity|].
  rewrite E in T2. cbn [snd] in T2.
  exists pid, d1, d2, k. cbn [snd]. repeat split; auto.
  rewrite T2, T1, <- app_assoc. reflexivity.
Qed.

Lemma uploaded_pid_is_placed_witness :
  let image := card "front" [0; 1; 2]%Z true in
  let w := driver_in inserting_fronts small_order in
  isfile browser (trace w) (file_path image) = true
  /\ fst (upload_and_insert_image browser 3 image w) = Ret tt
  /\ exists pid d1 d2 k,
       trace (snd (upload_and_insert_image browser 3 image w)) = trace w ++ d1 ++ d2
       /\ upload_log image (state w) pid d1 k
       /\ placements d1 = []
       /\ placements d2
          = if truthy pid
            then map (fun slot => "javascript:" ++ place_js slot pid)%string
                   (slots image)
            else [].
Proof.
  intros image w.
  assert (F : isfile browser (trace w) (file_path image) = true)
    by (vm_compute; reflexivity).
  assert (R : fst (upload_and_insert_image browser 3 image w) = Ret tt)
    by (vm_compute; reflexivity).
  split; [exact F|]. split; [exact R|].
  exact (uploaded_pid_is_placed browser 3 image w F R).
Defined.

(** ** More of the driver: nothing follows a failure *)

Section Abrupt.

Context (sess : Session).

Lemma ab_pure {A} (m : M A) :
  (forall w, returned (fst (m w)) = true) -> abrupt m.
Proof. intros Hm w e H. specialize (Hm w). rewrite H in Hm. discriminate. Qed.

Lemma ab_out_of_fuel {A} : abrupt (@out_of_fuel A).
Proof. intros w e H. discriminate. Qed.

Lemma ab_raise {A} e : own_exception e = true -> abrupt (@raise A e).
Proof. intros He w e' H. injection H as <-. left. exact He. Qed.

Lemma ab_bind {A B} (m : M A) (k : A -> M B) :
  abrupt m -> (forall a, abrupt (k a)) -> abrupt (bind m k).
Proof.
  intros Hm Hk w e. unfold bind. specialize (Hm w).
  destruct (m w) as [[a|x| |] w1]; simpl in *; intros H; try discriminate.
  - exact (Hk a w1 e H).
  - injection H as <-. apply Hm. reflexivity.
Qed.

Lemma ab_try {A} (m : M A) h :
  abrupt m -> (forall e k, h e = Some k -> abrupt k) -> abrupt (try_except m h).
Proof.
  intros Hm Hh w e. unfold try_except. specialize (Hm w).
  destruct (m w) as [[a|x| |] w1]; simpl in *; intros H; try discriminate.
  destruct (h x) as [k|] eqn:Hx.
  - exact (Hh x k Hx w1 e H).
  - simpl in H. injection H as <-. apply Hm. reflexivity.
Qed.

Lemma ab_invoke {A} ask (show : A -> Value) c : abrupt (invoke sess ask show c).
Proof.
  intros w e. unfold invoke.
  destruct (ask sess (trace w) c) as [a|x]; simpl; intros H; [discriminate|].
  injection H as <-. right. exists (trace w), c. reflexivity.
Qed.

Lemma ab_assert_state st : abrupt (assert_state st).
Proof.
  intros w e. unfold assert_state.
  destruct (States_eq_dec (state w) st); simpl; intros H; [discriminate|].
  injection H as <-. left. reflexivity.
Qed.

Lemma ab_queue_get f : abrupt (queue_get f).
Proof.
  intros w e. unfold queue_get.
  destruct (queue (collection f (order w))); discriminate.
Qed.

Ltac ab_handler :=
  let e := fresh "e" in
  let k := fresh "k" in
  let H := fresh "H" in
  intros e k H; destruct e; simpl in H; try discriminate;
  injection H as <-.

Ltac ab_tac :=
  repeat match goal with
    | |- abrupt (bind _ _) => apply ab_bind; [|intros]
    | |- abrupt (try_except _ _) => apply ab_try; [|ab_handler]
    | |- abrupt (invoke _ _ _ _) => apply ab_invoke
    | |- abrupt (assert_state _) => apply ab_assert_state
    | |- abrupt (queue_get _) => apply ab_queue_get
    | |- abrupt out_of_fuel => apply ab_out_of_fuel
    | |- abrupt (ret _) => apply ab_pure; reflexivity
    | |- abrupt (sleep _) => apply ab_pure; reflexivity
    | |- abrupt (file_exists _ _) => apply ab_pure; reflexivity
    | |- abrupt (set_state _ _) => apply ab_pure; reflexivity
    | |- abrupt (set_action _) => apply ab_pure; reflexivity
    | |- abrupt get_order => apply ab_pure; reflexivity
    | |- abrupt upload_bar_update => apply ab_pure; reflexivity
    | |- abrupt (if ?b then _ else _) => destruct b
    | |- abrupt (match ?x with _ => _ end) => destruct x
    end.

Lemma ab_accept_alert : abrupt (accept_alert sess).
Proof. unfold accept_alert, command. ab_tac. Qed.

Lemma ab_alert_handler func : abrupt func -> abrupt (alert_handler sess func).
Proof. intros Hf. unfold alert_handler. ab_tac; [exact Hf | apply ab_accept_alert]. Qed.

Lemma ab_switch_to_frame frame : abrupt (switch_to_frame sess frame).
Proof. unfold switch_to_frame, command. apply ab_alert_handler. ab_tac. Qed.

Lemma ab_wait_loop fuel e : abrupt (wait_loop sess fuel e).
Proof.
  induction fuel as [|fuel IH]; simpl; [apply ab_out_of_fuel|].
  unfold command. ab_tac. exact IH.
Qed.

Lemma ab_wait fuel : abrupt (wait sess fuel).
Proof.
  unfold wait, element. apply ab_alert_handler. ab_tac. apply ab_wait_loop.
Qed.

Lemma ab_execute_javascript js : abrupt (execute_javascript sess js).
Proof. unfold execute_javascript, command. apply ab_alert_handler. ab_tac. Qed.

Lemma ab_next_step fuel : abrupt (next_step sess fuel).
Proof.
  unfold next_step. ab_tac; [apply ab_wait | apply ab_execute_javascript].
Qed.

Lemma ab_wait_for_idle fuel pc : abrupt (wait_for_idle sess fuel pc).
Proof.
  induction fuel as [|fuel IH]; simpl; [apply ab_out_of_fuel|].
  unfold text. ab_tac. exact IH.
Qed.

Lemma ab_attempt_upload fuel image : forall pc,
  abrupt (attempt_upload sess fuel image pc).
Proof.
  induction fuel as [|fuel IH]; intros pc; simpl; [apply ab_out_of_fuel|].
  unfold text, element, command. ab_tac. apply IH.
Qed.

Lemma ab_await_upload fuel n : abrupt (await_upload sess fuel n).
Proof.
  induction fuel as [|fuel IH]; simpl; [apply ab_out_of_fuel|].
  unfold elements, attribute, last_element. ab_tac;
    try exact IH; try apply ab_accept_alert; try (apply ab_raise; reflexivity).
Qed.

Lemma ab_upload_image fuel image : abrupt (upload_image sess fuel image).
Proof.
  unfold upload_image, elements, element. ab_tac.
  - apply ab_wait_for_idle.
  - apply ab_attempt_upload.
  - apply ab_await_upload.
Qed.

Lemma ab_insert_slots fuel pid l : abrupt (insert_slots sess fuel pid l).
Proof.
  induction l as [|slot l IH]; simpl; [apply ab_pure; reflexivity|].
  ab_tac; [apply ab_execute_javascript | apply ab_wait | exact IH].
Qed.

Lemma ab_insert_image fuel pid image : abrupt (insert_image sess fuel pid image).
Proof.
  unfold insert_image. ab_tac.
  - apply ab_execute_javascript.
  - apply ab_insert_slots.
Qed.

Lemma ab_upload_and_insert_images fuel f :
  abrupt (upload_and_insert_images sess fuel f).
Proof.
  unfold upload_and_insert_images. ab_tac.
  induction (length (cards (collection f a))) as [|n IH]; simpl;
    [apply ab_pure; reflexivity|].
  unfold sequencer_step, upload_and_insert_image. ab_tac;
    first [apply ab_upload_image | apply ab_insert_image | exact IH].
Qed.

Lemma ab_run fuel op : abrupt (run sess fuel op).
Proof.
  destruct op; simpl;
    unfold define_order, insert_fronts, insert_backs, page_to_fronts,
      page_to_backs, same_images, different_images, element, command;
    ab_tac;
    first [apply ab_execute_javascript | apply ab_switch_to_frame
          | apply ab_next_step | apply ab_wait
          | apply ab_upload_and_insert_images].
Qed.

Lemma ab_execute fuel : abrupt (execute sess fuel).
Proof.
  unfold execute. ab_tac.
  - apply (ab_run fuel op_define_order).
  - apply (ab_run fuel op_insert_fronts).
  - apply (ab_run fuel op_insert_backs).
Qed.

Lemma ab_whole_run fuel : abrupt (whole_run sess fuel).
Proof.
  unfold whole_run, post_init, command. ab_tac. apply ab_execute.
Qed.

End Abrupt.

(** X15.  When a public operation, [execute] or a whole run raises an
    exception, it is either the driver's own (a failed state assertion, or
    the index error of an empty list of uploads) or the answer of the call
    that is the last entry of the log: after the call that failed the driver
    has made no further call, refreshed no status bar and counted no upload;
    nothing is cleaned up or retried. *)
Theorem nothing_follows_a_failure sess fuel w e :
  (forall op,
     fst (run sess fuel op w) = Raise e ->
     own_exception e = true
     \/ exists h c, trace (snd (run sess fuel op w)) = h ++ [ECall c (Err e)])
  /\ (fst (execute sess fuel w) = Raise e ->
      own_exception e = true
      \/ exists h c, trace (snd (execute sess fuel w)) = h ++ [ECall c (Err e)])
  /\ (fst (whole_run sess fuel w) = Raise e ->
      own_exception e = true
      \/ exists h c, trace (snd (whole_run sess fuel w)) = h ++ [ECall c (Err e)]).
Proof.
  split; [|split].
  - intros op. apply (ab_run sess fuel op w e).
  - apply (ab_execute sess fuel w e).
  - apply (ab_whole_run sess fuel w e).
Qed.

Lemma nothing_follows_a_failure_witness :
  let w := driver_in initialising small_order in
  fst (whole_run broken 5 w) = Raise JavascriptException
  /\ exists h c,
       trace (snd (whole_run broken 5 w)) = h ++ [ECall c (Err JavascriptException)].
Proof.
  intros w.
  assert (R : fst (whole_run broken 5 w) = Raise JavascriptException)
    by (vm_compute; reflexivity).
  split; [exact R|].
  destruct (proj2 (proj2 (nothing_follows_a_failure broken 5 w JavascriptException)) R)
    as [H|H]; [discriminate H | exact H].
Defined.

(** ** C5: the placements and the waits between them *)



Section InsertLogs.

Context (sess : Session).





End InsertLogs.











(** ** More of the driver: a round that fails *)

Section RoundWork.

Context (sess : Session) (image : CardImage).

Lemma round_upload_image fuel :
  keeps (round_call image) (upload_image sess fuel image).
Proof.
  apply (keeps_weaken (own_upload_call image)); [intros c Hc; left; exact Hc|].
  unfold upload_image, elements, element. keeps_tac.
  - apply own_wait_for_idle.
  - apply own_attempt_upload.
  - apply own_await_upload.
Qed.

Lemma round_alert c : alert_call c -> round_call image c.
Proof. destruct c; simpl; intros H; try contradiction; right; exact I. Qed.

Lemma round_wait fuel : keeps (round_call image) (wait sess fuel).
Proof.
  eapply begins_keeps; [apply begins_wait | right; reflexivity |].
  intros []; simpl; intros H; try contradiction; right; exact I.
Qed.

Lemma round_insert_slots fuel pid l :
  incl l (slots image) ->
  keeps (round_call image) (insert_slots sess fuel pid l).
Proof.
  induction l as [|slot l IH]; intros Hl; simpl; [auto with keeps|].
  keeps_tac.
  - apply keeps_execute_javascript; [|apply round_alert].
    right. right. exists slot, pid. split; [apply Hl; left|]; reflexivity.
  - apply round_wait.
  - apply IH. intros x Hx. apply Hl. right. exact Hx.
Qed.

Lemma round_insert_image fuel pid :
  keeps (round_call image) (insert_image sess fuel pid image).
Proof.
  unfold insert_image. keeps_tac.
  - apply keeps_execute_javascript; [|apply round_alert].
    right. left. reflexivity.
  - apply round_insert_slots. apply incl_refl.
Qed.

Lemma round_upload_and_insert_image fuel :
  keeps (round_call image) (upload_and_insert_image sess fuel image).
Proof.
  unfold upload_and_insert_image. keeps_tac.
  - apply round_upload_image.
  - apply round_insert_image.
Qed.

End RoundWork.

(** X6.  A round of the sequencer that raises: the descriptor popped was a
    downloaded one and is gone from the queue; the exception is the one its
    upload-and-insert raised, and the driver is left exactly as that upload-
    and-insert left it, so that what is logged after the pop is the log of
    the descriptor's own upload and insertion and nothing more: file checks,
    sleeps, refreshes of the status bar in the unchanged state, the calls of
    the upload with no file submitted but the descriptor's own, the prototype
    script, placement commands for the descriptor's slots and waits.  The
    progress counter has not been advanced and the workflow state is
    unchanged. *)
Theorem failed_round_is_not_counted sess fuel f w e :
  fst (sequencer_step sess fuel f w) = Raise e ->
  let w' := snd (sequencer_step sess fuel f w) in
  exists image rest work,
    queue (collection f (order w)) = image :: rest
    /\ downloaded image = true
    /\ (let popped :=
          {| state := state w; action := action w;
             order := with_queue f rest (order w);
             upload_bar := upload_bar w;
             trace := trace w ++ [EQueueGet f image] |} in
        fst (upload_and_insert_image sess fuel image popped) = Raise e
        /\ w' = snd (upload_and_insert_image sess fuel image popped))
    /\ order w' = with_queue f rest (order w)
    /\ trace w' = trace w ++ EQueueGet f image :: work
    /\ Forall (calls_in (round_call image) (state w)) work
    /\ filter is_mark work = []
    /\ upload_bar w' = upload_bar w
    /\ state w' = state w.
Proof.
  unfold sequencer_step, bind, queue_get.
  destruct (queue (collection f (order w))) as [|image rest]; [discriminate|].
  set (popped := log (EQueueGet f image) _).
  destruct (downloaded image) eqn:Hd; [|discriminate].
  destruct (round_upload_and_insert_image sess image fuel popped)
    as (Hs & Ho & Hu & work & Ht & Hf).
  destruct (upload_and_insert_image sess fuel image popped) as [[[]|x| |] w2] eqn:E;
    try discriminate.
  intros H. injection H as ->. cbn [fst snd] in *.
  exists image, rest, work. split; [reflexivity|]. split; [exact Hd|].
  split.
  - change (fst (upload_and_insert_image sess fuel image popped) = Raise e
            /\ w2 = snd (upload_and_insert_image sess fuel image popped)).
    rewrite E. split; reflexivity.
  - repeat split; auto.
    + rewrite Ht. unfold popped. simpl. rewrite <- app_assoc. reflexivity.
    + eapply helper_leaves_no_mark; exact Hf.
Qed.

Lemma failed_round_is_not_counted_witness :
  let w := driver_in inserting_fronts
             {| details := some_details;
                fronts := faces [card "fine" [2; 5; 2]%Z true];
                backs := faces [] |} in
  let w' := snd (sequencer_step broken 5 Front w) in
  fst (sequencer_step broken 5 Front w) = Raise JavascriptException
  /\ exists image rest work,
       queue (collection Front (order w)) = image :: rest
       /\ downloaded image = true
       /\ (let popped :=
             {| state := state w; action := action w;
                order := with_queue Front rest (order w);
                upload_bar := upload_bar w;
                trace := trace w ++ [EQueueGet Front image] |} in
           fst (upload_and_insert_image broken 5 image popped)
           = Raise JavascriptException
           /\ w' = snd (upload_and_insert_image broken 5 image popped))
       /\ order w' = with_queue Front rest (order w)
       /\ trace w' = trace w ++ EQueueGet Front image :: work
       /\ Forall (calls_in (round_call image) (state w)) work
       /\ filter is_mark work = []
       /\ upload_bar w' = upload_bar w
       /\ state w' = state w.
Proof.
  intros w w'.
  assert (R : fst (sequencer_step broken 5 Front w) = Raise JavascriptException)
    by (vm_compute; reflexivity).
  split; [exact R|].
  exact (failed_round_is_not_counted broken 5 Front w JavascriptException R).
Defined.
